(** * WYRD-LEDGER: the offline queue and the cloud synchronisation context

    A shallow embedding of [src/lib/config.ts] (appConfig),
    [src/lib/offlineQueue.ts] and [src/contexts/SyncContext.tsx], of the
    handlers of the Settings, Products and New Order pages that call them,
    and the properties proved about them.

    Conventions of the embedding.
    - [localStorage] holds text.  An entry is seen through [JSON.parse]: it is
      the empty string, text that [JSON.parse] rejects, or the text that
      [JSON.stringify] gives for a value.  The entries under the keys of the
      collections hold plain JSON values.  The queue key differs from every
      key of [STORAGE_KEYS].
    - The entry under [appConfig.offlineQueueKey] is modelled twice.
      [LocalStorage] reads it at its declared type [QueuedOperation[]]: these
      are the states the application itself produces, and the functions of
      [offlineQueue.ts] and the provider are defined on them first.  Module
      [Untyped] has the same functions on a storage whose queue entry is the
      text of any JSON value: there [getQueuedOperations] can return a value
      that is no array and the three writers of the queue can throw.
      [declared] embeds the first in the second, and the lemmas [declared_...]
      show that the functions agree there.
    - [localStorage.setItem] throws when the browser refuses the new contents
      (quota); which contents are refused is the browser's business, a
      parameter [quota] of the development.
    - JavaScript numbers are doubles.  Time stamps and stock counts are
      integers of [Z]; where the code adds one to a retry count the sum is
      rounded as a double rounds it ([plusOne]), which is exact up to 2^53.
    - Values in memory ([Value]) can hold [undefined]; [JSON.stringify] drops
      it, and [batch.set] of Firestore throws on it ([firestoreValue]).  What
      else the SDK refuses (an array directly inside an array, a number that
      is [NaN]) is not modelled.
    - [crypto.randomUUID()], [Date.now()] and the results of the awaited
      Firestore calls are supplied by the caller of each function.
    - [STORAGE_KEYS] is a plain object: indexing it with a document id finds
      its own four properties and those it inherits from [Object.prototype],
      whose values are functions (the text of a native function is the one
      V8 prints). *)

From Stdlib Require Import ZArith Lia.
From stdpp Require Import gmap strings list.

Open Scope Z_scope.
Local Set Warnings "-register-all".

(** ** JSON values and what JavaScript does with them *)

Inductive Json : Type :=
  | JNull
  | JBool (b : bool)
  | JNum (n : Z)
  | JStr (s : string)
  | JArr (xs : list Json)
  | JObj (fields : list (string * Json)).

(** [if (v)] on a parsed value. *)
Definition truthy (v : Json) : bool :=
  match v with
  | JNull => false
  | JBool b => b
  | JNum n => negb (n =? 0)
  | JStr s => negb (String.eqb s "")
  | JArr _ => true
  | JObj _ => true
  end.

Definition Array_isArray (v : Json) : bool :=
  match v with JArr _ => true | _ => false end.

(** Values in memory: those of JSON, and [undefined]. *)
Inductive Value : Type :=
  | VUndefined
  | VNull
  | VBool (b : bool)
  | VNum (n : Z)
  | VStr (s : string)
  | VArr (xs : list Value)
  | VObj (fields : list (string * Value)).

(** The value [JSON.parse] gives, in memory. *)
Fixpoint ofJson (j : Json) : Value :=
  match j with
  | JNull => VNull
  | JBool b => VBool b
  | JNum n => VNum n
  | JStr s => VStr s
  | JArr xs => VArr (List.map ofJson xs)
  | JObj fields => VObj (List.map (fun '(k, v) => (k, ofJson v)) fields)
  end.

(** [JSON.parse(JSON.stringify(v))]: a property whose value is [undefined]
    is left out, an element that is [undefined] becomes [null], and
    [undefined] itself has no text ([None]). *)
Fixpoint JSON_image (v : Value) : option Json :=
  match v with
  | VUndefined => None
  | VNull => Some JNull
  | VBool b => Some (JBool b)
  | VNum n => Some (JNum n)
  | VStr s => Some (JStr s)
  | VArr xs => Some (JArr (List.map (fun x => default JNull (JSON_image x)) xs))
  | VObj fields =>
      Some (JObj (flat_map (fun '(k, x) =>
                              match JSON_image x with
                              | Some j => [(k, j)]
                              | None => []
                              end) fields))
  end.

(** [JSON.parse(JSON.stringify(xs))] of an array. *)
Definition JSON_array (xs : list Value) : Json :=
  JArr (List.map (fun x => default JNull (JSON_image x)) xs).

(** No [undefined] anywhere in the value. *)
Fixpoint defined (v : Value) : bool :=
  match v with
  | VUndefined => false
  | VArr xs => forallb defined xs
  | VObj fields => forallb (fun '(_, x) => defined x) fields
  | _ => true
  end.

(** What Firestore stores for the field value [v] of [batch.set]: the SDK,
    configured as [firebase.ts] leaves it (no [ignoreUndefinedProperties]),
    refuses a value that holds [undefined] anywhere by throwing. *)
Definition firestoreValue (v : Value) : option Json :=
  if defined v then JSON_image v else None.

(** Exceptions the modelled code can meet. *)
Inductive Error : Type :=
  | SyntaxError            (* JSON.parse on text that is not JSON *)
  | QuotaExceededError     (* localStorage.setItem refused *)
  | FirebaseError          (* a rejected Firestore call, invalid data *)
  | PlainError (message : string)    (* new Error(message) *)
  | TypeError.             (* a property of null, a call of a non-function *)

Inductive Completion (A : Type) : Type :=
  | Normal (a : A)
  | Throw (e : Error).
Arguments Normal {A} a.
Arguments Throw {A} e.

(** ** config.ts *)

Module appConfig.
Definition offlineQueueKey : string := "wyrd-ledger-offline-queue".
Definition maxQueueSize : nat := 50.
Definition maxRetries : Z := 3.
End appConfig.

(** ** offlineQueue.ts *)

Inductive OperationType : Type := save | sync_type.

Record QueuedOperation : Type := mkOp {
  id : string;
  type : OperationType;
  collection : option string;
  data : Json;
  timestamp : Z;
  retryCount : Z
}.

(** The argument of [queueOperation]:
    [Omit<QueuedOperation, "id" | "timestamp" | "retryCount">]. *)
Record OperationInput : Type := mkInput {
  in_type : OperationType;
  in_collection : option string;
  in_data : Json
}.

(** An entry of [localStorage], seen through [JSON.parse]. *)
Inductive Stored (A : Type) : Type :=
  | Blank          (* the empty string *)
  | Corrupt        (* non-empty text that JSON.parse rejects *)
  | Valid (a : A). (* JSON.stringify a *)
Arguments Blank {A}.
Arguments Corrupt {A}.
Arguments Valid {A} a.

(** [if (stored)] on a string: only the empty string is falsy. *)
Definition nonempty {A} (s : Stored A) : bool :=
  match s with Blank => false | _ => true end.

Definition JSON_parse {A} (s : Stored A) : Completion A :=
  match s with
  | Valid a => Normal a
  | _ => Throw SyntaxError
  end.

Definition JSON_stringify {A} (a : A) : Stored A := Valid a.

(** [localStorage] with the queue entry read at its declared type
    [QueuedOperation[]].  [Untyped.Storage] below has the entry as the text
    of any JSON value. *)
Record LocalStorage : Type := mkStorage {
  queueItem : option (Stored (list QueuedOperation));
    (* the entry under appConfig.offlineQueueKey *)
  dataItems : gmap string (Stored Json)
    (* the entries under every other key *)
}.

Section Browser.
(** Does the browser accept these contents?  [setItem] throws when not. *)
Variable quota : LocalStorage -> bool.

Definition setQueueItem (v : Stored (list QueuedOperation))
    (ls : LocalStorage) : Completion LocalStorage :=
  let ls' := mkStorage (Some v) (dataItems ls) in
  if quota ls' then Normal ls' else Throw QuotaExceededError.

Definition setItem (key : string) (v : Stored Json)
    (ls : LocalStorage) : Completion LocalStorage :=
  let ls' := mkStorage (queueItem ls) (<[key := v]> (dataItems ls)) in
  if quota ls' then Normal ls' else Throw QuotaExceededError.

(** [try { localStorage.setItem(offlineQueueKey, JSON.stringify(operations)) }
     catch (error) { console.error(...) }] *)
Definition persistQueue (operations : list QueuedOperation)
    (ls : LocalStorage) : LocalStorage :=
  match setQueueItem (JSON_stringify operations) ls with
  | Normal ls' => ls'
  | Throw _ => ls
  end.
End Browser.

(** The body of the [try] of [getQueuedOperations]. *)
Definition readQueue (ls : LocalStorage) : Completion (list QueuedOperation) :=
  match queueItem ls with
  | Some stored => if nonempty stored then JSON_parse stored else Normal []
  | None => Normal []
  end.

(** [getQueuedOperations] on an entry of the declared type;
    [Untyped.getQueuedOperations] is the function on every entry, and the
    two agree here ([declared_getQueuedOperations]). *)
Definition getQueuedOperations (ls : LocalStorage) : list QueuedOperation :=
  match readQueue ls with
  | Normal operations => operations
  | Throw _ => []
  end.

(** [Array.prototype.shift]: drops the first element, nothing on []. *)
Definition shift {A} (l : list A) : list A := tail l.

Definition shouldRetry (op : QueuedOperation) : bool :=
  retryCount op <? appConfig.maxRetries.

(** The entry [queueOperation] appends:
    [{...op, id: crypto.randomUUID(), timestamp: Date.now(), retryCount: 0}]. *)
Definition newEntry (uuid : string) (now : Z) (op : OperationInput)
    : QueuedOperation :=
  {| id := uuid; type := in_type op; collection := in_collection op;
     data := in_data op; timestamp := now; retryCount := 0 |}.

(** A whole number as a JavaScript number holds it.  A double holds every
    whole number up to 2^53 in absolute value exactly; beyond, a result is
    rounded to the nearest double, which is a multiple of the gap between
    doubles at that size, a tie going to the even significand. *)
Definition roundNumber (z : Z) : Z :=
  if Z.abs z <=? 9007199254740992 then z
  else
    let ulp := 2 ^ (Z.log2 (Z.abs z) - 52) in
    let q := Z.abs z / ulp in
    let r := Z.abs z mod ulp in
    let q :=
      if 2 * r <? ulp then q
      else if ulp <? 2 * r then q + 1
      else if Z.even q then q else q + 1 in
    Z.sgn z * (q * ulp).

(** [n + 1] in JavaScript. *)
Definition plusOne (n : Z) : Z := roundNumber (n + 1).

(** [{...op, retryCount: op.retryCount + 1}]. *)
Definition retried (op : QueuedOperation) : QueuedOperation :=
  {| id := id op; type := type op; collection := collection op;
     data := data op; timestamp := timestamp op;
     retryCount := plusOne (retryCount op) |}.

Section Queue.
Variable quota : LocalStorage -> bool.

Definition queueOperation (uuid : string) (now : Z) (op : OperationInput)
    (ls : LocalStorage) : LocalStorage :=
  let operations := getQueuedOperations ls in
  let operations :=
    if bool_decide (appConfig.maxQueueSize <= length operations)%nat
    then shift operations else operations in
  let operations := operations ++ [newEntry uuid now op] in
  persistQueue quota operations ls.

Definition removeFromQueue (i : string) (ls : LocalStorage) : LocalStorage :=
  let operations :=
    List.filter (fun op => negb (String.eqb (id op) i))
                (getQueuedOperations ls) in
  persistQueue quota operations ls.

Definition incrementRetryCount (i : string) (ls : LocalStorage)
    : LocalStorage :=
  let operations :=
    List.map (fun op => if String.eqb (id op) i then retried op else op)
             (getQueuedOperations ls) in
  persistQueue quota operations ls.

(** The browser accepts the queue [operations] in place of the stored one:
    the [setItem] of the queue functions does not throw. *)
Definition fits (operations : list QueuedOperation) (ls : LocalStorage)
    : Prop :=
  quota (mkStorage (Some (JSON_stringify operations)) (dataItems ls)) = true.

(** A sequence of [queueOperation] calls, each with the id and the time it
    draws. *)
Definition enqueueAll (calls : list (string * Z * OperationInput))
    (ls : LocalStorage) : LocalStorage :=
  fold_left (fun ls '(uuid, now, op) => queueOperation uuid now op ls)
            calls ls.
End Queue.

(** [localStorage.removeItem] never throws on quota. *)
Definition clearQueue (ls : LocalStorage) : LocalStorage :=
  mkStorage None (dataItems ls).

(** ** SyncContext.tsx *)

Inductive SyncStatus : Type := syncing | synced | offline.

(** The own properties of the object literal [STORAGE_KEYS], in the order
    [Object.entries] lists them. *)
Definition STORAGE_KEYS_entries : list (string * string) :=
  [ ("products", "wyrd-ledger-products");
    ("customers", "wyrd-ledger-customers");
    ("settings", "wyrd-ledger-settings");
    ("bankAccounts", "wyrd-ledger-bank-accounts") ].

(** What an object literal inherits from [Object.prototype]: each name
    with the text its value has when it is used as a key of
    [localStorage].  The values are native functions, printed as V8
    prints them, and under [__proto__] the prototype itself. *)
Definition Object_prototype : list (string * string) :=
  [ ("constructor", "function Object() { [native code] }");
    ("__defineGetter__", "function __defineGetter__() { [native code] }");
    ("__defineSetter__", "function __defineSetter__() { [native code] }");
    ("hasOwnProperty", "function hasOwnProperty() { [native code] }");
    ("__lookupGetter__", "function __lookupGetter__() { [native code] }");
    ("__lookupSetter__", "function __lookupSetter__() { [native code] }");
    ("isPrototypeOf", "function isPrototypeOf() { [native code] }");
    ("propertyIsEnumerable",
     "function propertyIsEnumerable() { [native code] }");
    ("toString", "function toString() { [native code] }");
    ("valueOf", "function valueOf() { [native code] }");
    ("__proto__", "[object Object]");
    ("toLocaleString", "function toLocaleString() { [native code] }") ].

(** [STORAGE_KEYS[name]], as a storage key: the own property of that name,
    else the inherited one, else [undefined].  An own value is a non-empty
    string and an inherited one an object, so what is found is truthy. *)
Definition STORAGE_KEYS (name : string) : option string :=
  match (list_to_map STORAGE_KEYS_entries : gmap string string) !! name with
  | Some storageKey => Some storageKey
  | None => (list_to_map Object_prototype : gmap string string) !! name
  end.

(** The notifications the context raises, one constructor per [toast] call. *)
Inductive Toast : Type :=
  | OfflineChangesQueued        (* destructive, "Offline - changes queued" *)
  | SaveFailedQueued            (* destructive, "Save failed - queued for later" *)
  | QueueSynced (successCount : Z)   (* "Sync complete", n pending change(s) *)
  | SyncNoConnection            (* destructive, "Sync failed", no connection *)
  | SyncComplete                (* "Sync complete" *)
  | SyncFailed                  (* destructive, "Sync failed" *)
  | RestoreComplete             (* "Restore complete" *)
  | RestoreFailed.              (* destructive, "Restore failed" *)

(** A Firestore document of [users/<uid>/data]: its id and its fields. *)
Record DocSnapshot : Type := mkDoc {
  doc_id : string;
  doc_data : gmap string Json
}.

(** Requests sent to Firestore, under [users/<uid>/data]. *)
Inductive RemoteCall : Type :=
  | BatchCommit (uid : string) (writes : list (string * Json))
      (* batch.set(doc(.., name), {items, updatedAt}) ...; batch.commit() *)
  | GetDocs (uid : string)
  | DeleteDoc (uid : string) (name : string).

(** The module-level [db] and the [user] captured by the callbacks. *)
Record Connection : Type := mkConn {
  db : bool;               (* db is not null *)
  user : option string     (* user.uid when a user is signed in *)
}.

(** [!db || !user] fails: the uid to use. *)
Definition connected (c : Connection) : option string :=
  if db c then user c else None.

(** What the provider and the browser hold, for a browser whose local
    storage is seen as an [S]. *)
Record SyncState_ (S : Type) : Type := mkState {
  localStorage : S;
  status : SyncStatus;
  lastSynced : option Z;
  pendingOperations : Z;
  isProcessingQueue : bool;          (* isProcessingQueue.current *)
  toasts : list Toast;               (* oldest first *)
  remoteCalls : list RemoteCall;     (* oldest first *)
  reloads : nat                      (* window.location.reload() calls *)
}.
Arguments mkState {S}.
Arguments localStorage {S}.
Arguments status {S}.
Arguments lastSynced {S}.
Arguments pendingOperations {S}.
Arguments isProcessingQueue {S}.
Arguments toasts {S}.
Arguments remoteCalls {S}.
Arguments reloads {S}.

Abbreviation SyncState := (SyncState_ LocalStorage).

Definition setStorage {S T} (ls : T) (st : SyncState_ S) : SyncState_ T :=
  mkState ls (status st) (lastSynced st) (pendingOperations st)
          (isProcessingQueue st) (toasts st) (remoteCalls st) (reloads st).

Definition setStatus {S} (s : SyncStatus) (st : SyncState_ S) : SyncState_ S :=
  mkState (localStorage st) s (lastSynced st) (pendingOperations st)
          (isProcessingQueue st) (toasts st) (remoteCalls st) (reloads st).

Definition setLastSynced {S} (d : option Z) (st : SyncState_ S)
    : SyncState_ S :=
  mkState (localStorage st) (status st) d (pendingOperations st)
          (isProcessingQueue st) (toasts st) (remoteCalls st) (reloads st).

Definition setPendingOperations {S} (f : Z -> Z) (st : SyncState_ S)
    : SyncState_ S :=
  mkState (localStorage st) (status st) (lastSynced st)
          (f (pendingOperations st))
          (isProcessingQueue st) (toasts st) (remoteCalls st) (reloads st).

Definition setProcessing {S} (b : bool) (st : SyncState_ S) : SyncState_ S :=
  mkState (localStorage st) (status st) (lastSynced st) (pendingOperations st)
          b (toasts st) (remoteCalls st) (reloads st).

Definition toast {S} (t : Toast) (st : SyncState_ S) : SyncState_ S :=
  mkState (localStorage st) (status st) (lastSynced st) (pendingOperations st)
          (isProcessingQueue st) (toasts st ++ [t]) (remoteCalls st)
          (reloads st).

Definition request {S} (c : RemoteCall) (st : SyncState_ S) : SyncState_ S :=
  mkState (localStorage st) (status st) (lastSynced st) (pendingOperations st)
          (isProcessingQueue st) (toasts st) (remoteCalls st ++ [c])
          (reloads st).

Definition reload {T} (st : SyncState_ T) : SyncState_ T :=
  mkState (localStorage st) (status st) (lastSynced st) (pendingOperations st)
          (isProcessingQueue st) (toasts st) (remoteCalls st)
          (S (reloads st)).

(** How a call of an async function ends. *)
Inductive Settled : Type :=
  | Resolved
  | Rejected (e : Error).

(** *** saveDataInternal

    The part up to [await batch.commit()]: the guard, [batch.set], which
    throws on data that Firestore does not take, and the request. *)
Definition saveDataInternal_begin {S} (c : Connection)
    (collectionName : string) (data : Value) (st : SyncState_ S)
    : Completion (SyncState_ S) :=
  match connected c with
  | None => Throw (PlainError "Cannot save: No database connection or user")
  | Some uid =>
      match firestoreValue data with
      | Some items =>
          Normal (request (BatchCommit uid [(collectionName, items)]) st)
      | None => Throw FirebaseError
      end
  end.

(** The part after it, given how the commit settled. *)
Definition saveDataInternal_end {S} (now : Z) (commit : Settled)
    (st : SyncState_ S) : SyncState_ S * Settled :=
  match commit with
  | Resolved => (setStatus synced (setLastSynced (Some now) st), Resolved)
  | Rejected e => (st, Rejected e)
  end.

Section SyncProvider.
Variable quota : LocalStorage -> bool.

Definition enqueue (uuid : string) (now : Z) (op : OperationInput)
    (st : SyncState) : SyncState :=
  setStorage (queueOperation quota uuid now op (localStorage st)) st.

Definition dequeue (i : string) (st : SyncState) : SyncState :=
  setStorage (removeFromQueue quota i (localStorage st)) st.

Definition bumpRetry (i : string) (st : SyncState) : SyncState :=
  setStorage (incrementRetryCount quota i (localStorage st)) st.

(** *** saveData

    [uuid] and [now] are what [crypto.randomUUID()] and [Date.now()] would
    give if the operation is queued; [commit] is how [batch.commit()]
    settles if it is sent. *)
Definition saveData (c : Connection) (uuid : string) (now : Z)
    (commit : Settled) (collectionName : string) (data : list Value)
    (st : SyncState) : SyncState * Settled :=
  let op := {| in_type := save; in_collection := Some collectionName;
               in_data := JSON_array data |} in
  match connected c with
  | None =>
      let st := enqueue uuid now op st in
      let st := setPendingOperations (fun prev => prev + 1) st in
      let st := toast OfflineChangesQueued st in
      (st, Resolved)
  | Some _ =>
      let st := setStatus syncing st in
      let attempt :=
        match saveDataInternal_begin c collectionName (VArr data) st with
        | Normal st => saveDataInternal_end now commit st
        | Throw e => (st, Rejected e)
        end in
      match attempt with
      | (st, Resolved) => (st, Resolved)
      | (st, Rejected _) =>
          let st := enqueue uuid now op st in
          let st := setPendingOperations (fun prev => prev + 1) st in
          let st := toast SaveFailedQueued st in
          let st := setStatus offline st in
          (st, Resolved)
      end
  end.

(** *** processQueue

    A call runs until it reaches [await saveDataInternal(...)] with the
    request sent, or until it returns.  A suspended call is what its
    closure and locals hold. *)
Record Drain : Type := mkDrain {
  closure : Connection;               (* db and user of the callback *)
  position : nat;                     (* index of [current] in [operations] *)
  current : QueuedOperation;          (* [op], whose write is awaited *)
  rest : list QueuedOperation;        (* what the for-of has not visited *)
  successCount : Z
}.

Inductive Progress : Type :=
  | Finished
  | Suspended (d : Drain).

(** [op.type === "save" && op.collection]: the collection to write. *)
Definition replayTarget (op : QueuedOperation) : option string :=
  match type op, collection op with
  | save, Some name => if String.eqb name "" then None else Some name
  | _, _ => None
  end.

(** One iteration of the loop up to the await: [true] when the write of
    [op] has been sent and is awaited, [false] when the iteration is over. *)
Definition iteration_begin (c : Connection) (op : QueuedOperation)
    (st : SyncState) : SyncState * bool :=
  if negb (shouldRetry op) then (dequeue (id op) st, false)
  else
    match replayTarget op with
    | Some name =>
        match saveDataInternal_begin c name (ofJson (data op)) st with
        | Normal st => (st, true)
        | Throw _ => (bumpRetry (id op) st, false)
        end
    | None => (st, false)
    end.

(** The rest of the iteration, once the awaited write has settled. *)
Definition iteration_end (now : Z) (commit : Settled) (op : QueuedOperation)
    (successCount : Z) (st : SyncState) : SyncState * Z :=
  match saveDataInternal_end now commit st with
  | (st, Resolved) => (dequeue (id op) st, successCount + 1)
  | (st, Rejected _) => (bumpRetry (id op) st, successCount)
  end.

(** After the loop. *)
Definition drainEpilogue (successCount : Z) (st : SyncState) : SyncState :=
  let remaining := length (getQueuedOperations (localStorage st)) in
  let st := setPendingOperations (fun _ => Z.of_nat remaining) st in
  let st := setProcessing false st in
  if 0 <? successCount then toast (QueueSynced successCount) st else st.

(** The for-of loop from index [i] on, to the next suspension. *)
Fixpoint drainLoop (c : Connection) (i : nat)
    (operations : list QueuedOperation) (successCount : Z) (st : SyncState)
    : SyncState * Progress :=
  match operations with
  | [] => (drainEpilogue successCount st, Finished)
  | op :: operations' =>
      match iteration_begin c op st with
      | (st, true) => (st, Suspended (mkDrain c i op operations' successCount))
      | (st, false) => drainLoop c (S i) operations' successCount st
      end
  end.

Definition processQueue (c : Connection) (st : SyncState)
    : SyncState * Progress :=
  match connected c with
  | None => (st, Finished)
  | Some _ =>
      if isProcessingQueue st then (st, Finished)
      else
        let operations := getQueuedOperations (localStorage st) in
        if bool_decide (length operations = 0%nat) then (st, Finished)
        else drainLoop c 0 operations 0 (setProcessing true st)
  end.

(** A suspended call goes on when its write has settled. *)
Definition processQueue_resume (now : Z) (commit : Settled) (d : Drain)
    (st : SyncState) : SyncState * Progress :=
  match iteration_end now commit (current d) (successCount d) st with
  | (st, n) => drainLoop (closure d) (S (position d)) (rest d) n st
  end.

(** One whole iteration, the awaited write settling as [commit] at time
    [now]. *)
Definition iteration (c : Connection) (now : Z) (commit : Settled)
    (op : QueuedOperation) (successCount : Z) (st : SyncState)
    : SyncState * Z :=
  match iteration_begin c op st with
  | (st, true) => iteration_end now commit op successCount st
  | (st, false) => (st, successCount)
  end.

(** One drain with nothing else running in between: the write sent at
    index [i] settles as [remote i], at time [clock i]. *)
Fixpoint drainAll (c : Connection) (remote : nat -> Settled)
    (clock : nat -> Z) (i : nat) (operations : list QueuedOperation)
    (successCount : Z) (st : SyncState) : SyncState :=
  match operations with
  | [] => drainEpilogue successCount st
  | op :: operations' =>
      match iteration c (clock i) (remote i) op successCount st with
      | (st, n) => drainAll c remote clock (S i) operations' n st
      end
  end.

Definition processQueue_run (c : Connection) (remote : nat -> Settled)
    (clock : nat -> Z) (st : SyncState) : SyncState :=
  match connected c with
  | None => st
  | Some _ =>
      if isProcessingQueue st then st
      else
        let operations := getQueuedOperations (localStorage st) in
        if bool_decide (length operations = 0%nat) then st
        else drainAll c remote clock 0 operations 0 (setProcessing true st)
  end.

(** *** sync *)

(** The body of the loop over [Object.entries(STORAGE_KEYS)]: the writes
    put in the batch, or the exception of [JSON.parse]. *)
Fixpoint collectBatch (ls : LocalStorage) (entries : list (string * string))
    (writes : list (string * Json)) : Completion (list (string * Json)) :=
  match entries with
  | [] => Normal writes
  | (key, storageKey) :: entries' =>
      match dataItems ls !! storageKey with
      | Some localData =>
          if nonempty localData then
            match JSON_parse localData with
            | Normal parsed =>
                let items :=
                  if Array_isArray parsed then parsed else JArr [parsed] in
                collectBatch ls entries' (writes ++ [(key, items)])
            | Throw e => Throw e
            end
          else collectBatch ls entries' writes
      | None => collectBatch ls entries' writes
      end
  end.

Definition sync (c : Connection) (now : Z) (commit : Settled)
    (st : SyncState) : SyncState * Settled :=
  match connected c with
  | None =>
      let st := setStatus offline st in
      let st := toast SyncNoConnection st in
      (st, Resolved)
  | Some uid =>
      let st := setStatus syncing st in
      let handler (st : SyncState) :=
        (toast SyncFailed (setStatus offline st), Resolved) in
      match collectBatch (localStorage st) STORAGE_KEYS_entries [] with
      | Throw _ => handler st
      | Normal writes =>
          let st := request (BatchCommit uid writes) st in
          match commit with
          | Rejected _ => handler st
          | Resolved =>
              let st := setLastSynced (Some now) st in
              let st := setStatus synced st in
              let st := toast SyncComplete st in
              (st, Resolved)
          end
      end
  end.

(** *** restore *)

(** The callback of [snapshot.forEach] on one document. *)
Definition restoreDoc (docSnapshot : DocSnapshot) (ls : LocalStorage)
    : Completion LocalStorage :=
  match STORAGE_KEYS (doc_id docSnapshot) with
  | Some storageKey =>
      match doc_data docSnapshot !! "items" with
      | Some items =>
          if truthy items then setItem quota storageKey (JSON_stringify items) ls
          else Normal ls
      | None => Normal ls
      end
  | None => Normal ls
  end.

(** [snapshot.forEach]: stops at the first exception, with the writes made
    so far in place. *)
Fixpoint restoreDocs (docs : list DocSnapshot) (ls : LocalStorage)
    : LocalStorage * option Error :=
  match docs with
  | [] => (ls, None)
  | docSnapshot :: docs' =>
      match restoreDoc docSnapshot ls with
      | Normal ls => restoreDocs docs' ls
      | Throw e => (ls, Some e)
      end
  end.

Definition restore (c : Connection) (now : Z)
    (snapshot : Completion (list DocSnapshot)) (st : SyncState)
    : SyncState * Settled :=
  match connected c with
  | None => (setStatus offline st, Rejected (PlainError "Not connected to cloud"))
  | Some uid =>
      let st := setStatus syncing st in
      let handler (e : Error) (st : SyncState) :=
        (toast RestoreFailed (setStatus offline st), Rejected e) in
      let st := request (GetDocs uid) st in
      match snapshot with
      | Throw e => handler e st
      | Normal docs =>
          match restoreDocs docs (localStorage st) with
          | (ls, Some e) => handler e (setStorage ls st)
          | (ls, None) =>
              let st := setStorage ls st in
              let st := setLastSynced (Some now) st in
              let st := setStatus synced st in
              let st := toast RestoreComplete st in
              (reload st, Resolved)
          end
      end
  end.

(** *** resetAllData *)

(** [Promise.all]: rejected as soon as one promise is; the first rejection
    in list order stands for it. *)
Fixpoint Promise_all (results : list Settled) : Settled :=
  match results with
  | [] => Resolved
  | Resolved :: results' => Promise_all results'
  | Rejected e :: _ => Rejected e
  end.

Definition resetAllData (c : Connection)
    (snapshot : Completion (list DocSnapshot))
    (deleted : string -> Settled) (st : SyncState) : SyncState * Settled :=
  match connected c with
  | None =>
      (st, Rejected (PlainError "Cannot reset: No database connection or user"))
  | Some uid =>
      let st := setStatus syncing st in
      let handler (e : Error) (st : SyncState) :=
        (setStatus offline st, Rejected e) in
      let st := request (GetDocs uid) st in
      match snapshot with
      | Throw e => handler e st
      | Normal docs =>
          let st :=
            fold_left (fun st d => request (DeleteDoc uid (doc_id d)) st)
                      docs st in
          match Promise_all (List.map (fun d => deleted (doc_id d)) docs) with
          | Rejected e => handler e st
          | Resolved => (setLastSynced None (setStatus synced st), Resolved)
          end
      end
  end.

(** *** The event loop

    The provider's state, and the calls of [processQueue] that are
    suspended at their await. *)
Record System : Type := mkSystem {
  shared : SyncState;
  inflight : list Drain
}.

Definition awaiting (p : Progress) : list Drain :=
  match p with
  | Finished => []
  | Suspended d => [d]
  end.

(** One turn of the event loop: [processQueue] is called, the write a
    suspended call awaits settles, or other code runs; nothing but
    [processQueue] assigns [isProcessingQueue.current]. *)
Inductive turn : System -> System -> Prop :=
  | turn_call (s : System) (c : Connection) st p :
      processQueue c (shared s) = (st, p) ->
      turn s (mkSystem st (inflight s ++ awaiting p))
  | turn_settle (s : System) before d after now commit st p :
      inflight s = before ++ d :: after ->
      processQueue_resume now commit d (shared s) = (st, p) ->
      turn s (mkSystem st (before ++ awaiting p ++ after))
  | turn_other (s : System) st :
      isProcessingQueue st = isProcessingQueue (shared s) ->
      turn s (mkSystem st (inflight s)).

(** The states the provider can be in: it starts with the ref false and no
    call suspended. *)
Inductive reachable : System -> Prop :=
  | reachable_mount st :
      isProcessingQueue st = false -> reachable (mkSystem st [])
  | reachable_turn s s' : reachable s -> turn s s' -> reachable s'.

(** An uninterrupted drain: every suspension is followed at once by the
    settling of its write. *)
Inductive settles (remote : nat -> Settled) (clock : nat -> Z)
    : SyncState * Progress -> SyncState -> Prop :=
  | settles_finished st : settles remote clock (st, Finished) st
  | settles_resume st d st' :
      settles remote clock
        (processQueue_resume (clock (position d)) (remote (position d)) d st)
        st' ->
      settles remote clock (st, Suspended d) st'.
End SyncProvider.

(** ** offlineQueue.ts and saveData on any text under the queue key

    The entry under [appConfig.offlineQueueKey] is declared to hold a
    [QueuedOperation[]], the application writes nothing else there, and the
    definitions above read it so.  [JSON.parse] checks nothing: when the
    text is that of another JSON value, [getQueuedOperations] returns that
    value.  Here the functions of [offlineQueue.ts] and [saveData] are taken
    again from the source, on a storage whose queue entry holds any text. *)

Definition Stored_map {A B} (f : A -> B) (s : Stored A) : Stored B :=
  match s with
  | Blank => Blank
  | Corrupt => Corrupt
  | Valid a => Valid (f a)
  end.

Module Untyped.

(** A JSON value that is not an array. *)
Inductive NotArray : Type :=
  | ONull
  | OBool (b : bool)
  | ONum (n : Z)
  | OStr (s : string)
  | OObj (fields : list (string * Json)).

(** What [JSON.parse] gives for the text of the queue entry: an array, its
    elements read as [QueuedOperation]s, or another value. *)
Inductive Parsed : Type :=
  | Operations (operations : list QueuedOperation)
  | Other (v : NotArray).

Record Storage : Type := mkAny {
  queueText : option (Stored Parsed);
    (* the entry under appConfig.offlineQueueKey *)
  otherItems : gmap string (Stored Json)
    (* the entries under every other key *)
}.

Section Browser.
Variable quota : Storage -> bool.

Definition setQueueItem (v : Stored Parsed) (s : Storage)
    : Completion Storage :=
  let s' := mkAny (Some v) (otherItems s) in
  if quota s' then Normal s' else Throw QuotaExceededError.

(** [try { localStorage.setItem(offlineQueueKey, JSON.stringify(operations)) }
     catch (error) { console.error(...) }] *)
Definition persistQueue (operations : list QueuedOperation) (s : Storage)
    : Storage :=
  match setQueueItem (JSON_stringify (Operations operations)) s with
  | Normal s' => s'
  | Throw _ => s
  end.
End Browser.

(** The body of the [try] of [getQueuedOperations]. *)
Definition readQueue (s : Storage) : Completion Parsed :=
  match queueText s with
  | Some stored =>
      if nonempty stored then JSON_parse stored else Normal (Operations [])
  | None => Normal (Operations [])
  end.

Definition getQueuedOperations (s : Storage) : Parsed :=
  match readQueue s with
  | Normal operations => operations
  | Throw _ => Operations []
  end.

Section Queue.
Variable quota : Storage -> bool.

(** On a value that is not an array, [operations.length] throws when the
    value is [null], and otherwise [operations.shift] or [operations.push]
    is not a function: a string and a number have no such method, and a
    property of a parsed object is never a function.  All this is before
    the [try]. *)
Definition queueOperation (uuid : string) (now : Z) (op : OperationInput)
    (s : Storage) : Completion Storage :=
  match getQueuedOperations s with
  | Other _ => Throw TypeError
  | Operations operations =>
      let operations :=
        if bool_decide (appConfig.maxQueueSize <= length operations)%nat
        then shift operations else operations in
      let operations := operations ++ [newEntry uuid now op] in
      Normal (persistQueue quota operations s)
  end.

(** [getQueuedOperations().filter(...)], before the [try]. *)
Definition removeFromQueue (i : string) (s : Storage) : Completion Storage :=
  match getQueuedOperations s with
  | Other _ => Throw TypeError
  | Operations operations =>
      Normal (persistQueue quota
                (List.filter (fun op => negb (String.eqb (id op) i))
                             operations) s)
  end.

(** [getQueuedOperations().map(...)], before the [try]. *)
Definition incrementRetryCount (i : string) (s : Storage)
    : Completion Storage :=
  match getQueuedOperations s with
  | Other _ => Throw TypeError
  | Operations operations =>
      Normal (persistQueue quota
                (List.map (fun op => if String.eqb (id op) i then retried op
                                     else op) operations) s)
  end.
End Queue.

Section SyncProvider.
Variable quota : Storage -> bool.

Definition enqueue (uuid : string) (now : Z) (op : OperationInput)
    (st : SyncState_ Storage) : Completion (SyncState_ Storage) :=
  match queueOperation quota uuid now op (localStorage st) with
  | Normal s => Normal (setStorage s st)
  | Throw e => Throw e
  end.

(** [saveData]: an exception of [queueOperation] is raised outside the
    [try], in the first branch, and inside the [catch], in the second; it
    rejects the promise of the call in both. *)
Definition saveData (c : Connection) (uuid : string) (now : Z)
    (commit : Settled) (collectionName : string) (data : list Value)
    (st : SyncState_ Storage) : SyncState_ Storage * Settled :=
  let op := {| in_type := save; in_collection := Some collectionName;
               in_data := JSON_array data |} in
  match connected c with
  | None =>
      match enqueue uuid now op st with
      | Throw e => (st, Rejected e)
      | Normal st =>
          let st := setPendingOperations (fun prev => prev + 1) st in
          let st := toast OfflineChangesQueued st in
          (st, Resolved)
      end
  | Some _ =>
      let st := setStatus syncing st in
      let attempt :=
        match saveDataInternal_begin c collectionName (VArr data) st with
        | Normal st => saveDataInternal_end now commit st
        | Throw e => (st, Rejected e)
        end in
      match attempt with
      | (st, Resolved) => (st, Resolved)
      | (st, Rejected _) =>
          match enqueue uuid now op st with
          | Throw e => (st, Rejected e)
          | Normal st =>
              let st := setPendingOperations (fun prev => prev + 1) st in
              let st := toast SaveFailedQueued st in
              let st := setStatus offline st in
              (st, Resolved)
          end
      end
  end.
End SyncProvider.

(** The queue [operations] is accepted in place of the stored text. *)
Definition fits (quota : Storage -> bool)
    (operations : list QueuedOperation) (s : Storage) : Prop :=
  quota (mkAny (Some (JSON_stringify (Operations operations))) (otherItems s))
  = true.
End Untyped.

(** A storage whose queue entry is as declared, among all storages, and
    the provider on it. *)
Definition declared (ls : LocalStorage) : Untyped.Storage :=
  Untyped.mkAny (Stored_map Untyped.Operations <$> queueItem ls)
                (dataItems ls).

Definition declaredState (st : SyncState) : SyncState_ Untyped.Storage :=
  setStorage (declared (localStorage st)) st.

(** ** What the specification says a drain does to one operation

    What is left in the queue of an operation visited by a drain, given how
    its replay settles: nothing when its retry budget is spent, nothing when
    its replay succeeds, the operation with one more retry when its replay
    fails; an operation that is not replayed stays as it is. *)
Definition fate (commit : Settled) (op : QueuedOperation)
    : list QueuedOperation :=
  if retryCount op <? appConfig.maxRetries then
    match replayTarget op with
    | Some _ =>
        match commit with
        | Resolved => []
        | Rejected _ => [retried op]
        end
    | None => [op]
    end
  else [].

(** Is the operation replayed by a drain, and does its replay succeed? *)
Definition replayed (op : QueuedOperation) : bool :=
  shouldRetry op && bool_decide (is_Some (replayTarget op)).

Definition succeeded (remote : nat -> Settled) (i : nat)
    (op : QueuedOperation) : bool :=
  replayed op
  && match remote i with Resolved => true | Rejected _ => false end.

(** The request a replay of [op] sends. *)
Definition replayRequest (uid : string) (op : QueuedOperation) : RemoteCall :=
  BatchCommit uid [(default "" (replayTarget op), data op)].

(** What a drain leaves of the operations it visits from index [i] on, and
    how many replays succeed. *)
Fixpoint afterDrain (remote : nat -> Settled) (i : nat)
    (operations : list QueuedOperation) : list QueuedOperation :=
  match operations with
  | [] => []
  | op :: operations' =>
      fate (remote i) op ++ afterDrain remote (S i) operations'
  end.

Fixpoint successes (remote : nat -> Settled) (i : nat)
    (operations : list QueuedOperation) : Z :=
  match operations with
  | [] => 0
  | op :: operations' =>
      (if succeeded remote i op then 1 else 0)
      + successes remote (S i) operations'
  end.

(** The entry a call of [queueOperation] appends. *)
Definition entryOf (call : string * Z * OperationInput) : QueuedOperation :=
  newEntry call.1.1 call.1.2 call.2.

(** What the [forEach] callback of [restore] writes for a document: the
    storage key and the items, when the id is a property of [STORAGE_KEYS]
    and [data.items] is truthy. *)
Definition restoreTarget (d : DocSnapshot) : option (string * Json) :=
  match STORAGE_KEYS (doc_id d), doc_data d !! "items" with
  | Some storageKey, Some items =>
      if truthy items then Some (storageKey, items) else None
  | _, _ => None
  end.

(** What a call has done to the ref when it stops: cleared it when it
    returned, left it set when it is suspended. *)
Definition flagAfter (r : SyncState * Progress) : Prop :=
  match r.2 with
  | Finished => isProcessingQueue r.1 = false
  | Suspended _ => isProcessingQueue r.1 = true
  end.

(** The ref is set exactly when a call is suspended, and then only one is. *)
Definition exclusive (s : System) : Prop :=
  match inflight s with
  | [] => isProcessingQueue (shared s) = false
  | [_] => isProcessingQueue (shared s) = true
  | _ => False
  end.

(** ** Sample data *)

Definition sampleOp (i : string) (n : Z) : QueuedOperation :=
  {| id := i; type := save; collection := Some "products";
     data := JArr []; timestamp := 0; retryCount := n |}.

Definition sampleSync (i : string) : QueuedOperation :=
  {| id := i; type := sync_type; collection := None;
     data := JNull; timestamp := 0; retryCount := 0 |}.

(** Calls with ids "", "x", "xx", ... *)
Fixpoint sampleId (n : nat) : string :=
  match n with
  | O => ""
  | S n => String.append "x" (sampleId n)
  end.

Definition sampleCalls (n : nat) : list (string * Z * OperationInput) :=
  List.map (fun k => (sampleId k, Z.of_nat k,
                      mkInput save (Some "products") (JArr [])))
           (seq 0 n).

(** A queue of [n] operations with the ids "", "x", "xx", ... *)
Definition sampleQueue (n : nat) : list QueuedOperation :=
  List.map (fun k => sampleOp (sampleId k) 0) (seq 0 n).

Definition sampleState (ls : LocalStorage) : SyncState :=
  mkState ls offline None 0 false [] [] 0.

Definition sampleDoc (name : string) (items : Json) : DocSnapshot :=
  mkDoc name {[ "items" := items ]}.

(** ** Repeated drains

    Drains that follow one another, each with nothing else running in
    between, the writes of each settling as [remote] says. *)
Section Drains.
Variable quota : LocalStorage -> bool.

Fixpoint drainTimes (c : Connection) (remote : nat -> Settled)
    (clock : nat -> Z) (n : nat) (st : SyncState) : SyncState :=
  match n with
  | O => st
  | S n => drainTimes c remote clock n (processQueue_run quota c remote clock st)
  end.
End Drains.

(** A remote store that rejects every write. *)
Definition alwaysRejected : nat -> Settled := fun _ => Rejected FirebaseError.

(** [op] after [k] failed replays. *)
Definition retriedBy (k : nat) (op : QueuedOperation) : QueuedOperation :=
  {| id := id op; type := type op; collection := collection op;
     data := data op; timestamp := timestamp op;
     retryCount := retryCount op + Z.of_nat k |}.

(** What [n] drains leave of an operation when every replay fails. *)
Fixpoint wornOut (n : nat) (op : QueuedOperation) : list QueuedOperation :=
  match n with
  | O => [op]
  | S n => flat_map (wornOut n) (fate (Rejected FirebaseError) op)
  end.

(** How many writes [n] such drains send for it. *)
Definition attempts (n : nat) (op : QueuedOperation) : nat :=
  if replayed op
  then Nat.min n (Z.to_nat (appConfig.maxRetries - retryCount op))
  else 0%nat.

(** A retry count that adding one moves, when it is below [maxRetries]:
    every count from -2^53 on. *)
Definition countable (op : QueuedOperation) : Prop :=
  - 9007199254740992 <= retryCount op.

(** ** SyncContext.tsx, the rest *)

(** *** fetchData

    The loop over [snapshot.docs]: [data.items || null] of the first
    document of that id, [null] when there is none. *)
Fixpoint findItems (docs : list DocSnapshot) (collectionName : string)
    : option Json :=
  match docs with
  | [] => None
  | docSnapshot :: docs' =>
      if String.eqb (doc_id docSnapshot) collectionName then
        match doc_data docSnapshot !! "items" with
        | Some items => if truthy items then Some items else None
        | None => None
        end
      else findItems docs' collectionName
  end.

(** What a call of [fetchData] gives: the value returned ([None] is
    [null]), and whether the "Fetch failed" notification was raised. *)
Record Fetched : Type := mkFetched {
  fetched : option Json;
  fetchFailed : bool
}.

Definition fetchData (c : Connection)
    (snapshot : Completion (list DocSnapshot)) (collectionName : string)
    (st : SyncState) : SyncState * Fetched :=
  match connected c with
  | None => (st, mkFetched None false)
  | Some uid =>
      let st := request (GetDocs uid) st in
      match snapshot with
      | Normal docs => (st, mkFetched (findItems docs collectionName) false)
      | Throw _ => (st, mkFetched None true)
      end
  end.

(** The effect that runs when the provider mounts. *)
Definition mountPending (st : SyncState) : SyncState :=
  setPendingOperations
    (fun _ => Z.of_nat (length (getQueuedOperations (localStorage st)))) st.

(** The document a committed [batch.set(doc(.., name), {items, updatedAt})]
    leaves in [users/<uid>/data], and the documents of a committed batch. *)
Definition writtenDoc (updatedAt : Json) (write : string * Json)
    : DocSnapshot :=
  mkDoc write.1 (<[ "items" := write.2 ]> {[ "updatedAt" := updatedAt ]}).

Definition written (updatedAt : Json) (writes : list (string * Json))
    : list DocSnapshot :=
  List.map (writtenDoc updatedAt) writes.

(** [Array.isArray(parsed) ? parsed : [parsed]]. *)
Definition asArray (parsed : Json) : Json :=
  if Array_isArray parsed then parsed else JArr [parsed].

(** The write [sync] puts in its batch for one entry of [STORAGE_KEYS]. *)
Definition batchWrite (ls : LocalStorage) (entry : string * string)
    : option (string * Json) :=
  match dataItems ls !! entry.2 with
  | Some (Valid parsed) => Some (entry.1, asArray parsed)
  | _ => None
  end.

(** The pending count is at least the length of the listed queue. *)
Definition covered (st : SyncState) : Prop :=
  Z.of_nat (length (getQueuedOperations (localStorage st)))
  <= pendingOperations st.

Section Effects.
Variable quota : LocalStorage -> bool.

(** The effect on [isConnected], [pendingOperations] and [processQueue]:
    [if (isConnected && pendingOperations > 0) processQueue()]. *)
Definition reconnectEffect (isConnected : bool) (c : Connection)
    (st : SyncState) : SyncState * Progress :=
  if isConnected && (0 <? pendingOperations st)
  then processQueue quota c st
  else (st, Finished).
End Effects.

(** ** pages/Settings.tsx *)

Definition BANK_ACCOUNTS_KEY : string := "wyrd-ledger-bank-accounts".

(** What the account dialog holds. *)
Record AccountForm : Type := mkForm {
  formNickname : string;
  formHolderName : string;
  formAccountNumber : string;
  formBank : string;
  formBankCode : string;
  formBranch : string;
  formBranchCode : string;
  formSwiftCode : string
}.

Record BankAccount : Type := mkAccount {
  accountId : string;          (* id *)
  accountForm : AccountForm;   (* nickname ... swiftCode *)
  isDefault : bool
}.

(** [JSON.stringify] of an account, field by field. *)
Definition accountJson (a : BankAccount) : Json :=
  JObj [ ("id", JStr (accountId a));
         ("nickname", JStr (formNickname (accountForm a)));
         ("holderName", JStr (formHolderName (accountForm a)));
         ("accountNumber", JStr (formAccountNumber (accountForm a)));
         ("bank", JStr (formBank (accountForm a)));
         ("bankCode", JStr (formBankCode (accountForm a)));
         ("branch", JStr (formBranch (accountForm a)));
         ("branchCode", JStr (formBranchCode (accountForm a)));
         ("swiftCode", JStr (formSwiftCode (accountForm a)));
         ("isDefault", JBool (isDefault a)) ].

(** The notifications the page raises. *)
Inductive PageToast : Type :=
  | AccountSaved (updated : bool)   (* "Account updated" / "Account added" *)
  | AccountDeleted
  | PageSyncComplete                (* "Sync complete" *)
  | PageSyncFailed                  (* destructive, "Sync failed" *)
  | DataRestored                    (* "Data restored" *)
  | PageRestoreFailed               (* destructive, "Restore failed" *)
  | DataResetComplete (cloud : bool)  (* "Data reset complete" *)
  | ResetFailed.                    (* destructive, "Reset failed" *)

Record SettingsPage : Type := mkSettings {
  provider : SyncState;             (* the provider and the browser *)
  pageToasts : list PageToast;      (* oldest first *)
  isSyncing : bool;
  isRestoring : bool;
  isResetting : bool;
  bankAccounts : list BankAccount;
  isAccountDialogOpen : bool;
  isResetDialogOpen : bool
}.

Definition setApp (st : SyncState) (p : SettingsPage) : SettingsPage :=
  mkSettings st (pageToasts p) (isSyncing p) (isRestoring p) (isResetting p)
             (bankAccounts p) (isAccountDialogOpen p) (isResetDialogOpen p).

Definition pageToast (t : PageToast) (p : SettingsPage) : SettingsPage :=
  mkSettings (provider p) (pageToasts p ++ [t]) (isSyncing p) (isRestoring p)
             (isResetting p) (bankAccounts p) (isAccountDialogOpen p)
             (isResetDialogOpen p).

Definition setIsSyncing (b : bool) (p : SettingsPage) : SettingsPage :=
  mkSettings (provider p) (pageToasts p) b (isRestoring p) (isResetting p)
             (bankAccounts p) (isAccountDialogOpen p) (isResetDialogOpen p).

Definition setIsRestoring (b : bool) (p : SettingsPage) : SettingsPage :=
  mkSettings (provider p) (pageToasts p) (isSyncing p) b (isResetting p)
             (bankAccounts p) (isAccountDialogOpen p) (isResetDialogOpen p).

Definition setIsResetting (b : bool) (p : SettingsPage) : SettingsPage :=
  mkSettings (provider p) (pageToasts p) (isSyncing p) (isRestoring p) b
             (bankAccounts p) (isAccountDialogOpen p) (isResetDialogOpen p).

Definition setBankAccounts (accounts : list BankAccount) (p : SettingsPage)
    : SettingsPage :=
  mkSettings (provider p) (pageToasts p) (isSyncing p) (isRestoring p)
             (isResetting p) accounts (isAccountDialogOpen p)
             (isResetDialogOpen p).

Definition setIsAccountDialogOpen (b : bool) (p : SettingsPage)
    : SettingsPage :=
  mkSettings (provider p) (pageToasts p) (isSyncing p) (isRestoring p)
             (isResetting p) (bankAccounts p) b (isResetDialogOpen p).

Definition setIsResetDialogOpen (b : bool) (p : SettingsPage)
    : SettingsPage :=
  mkSettings (provider p) (pageToasts p) (isSyncing p) (isRestoring p)
             (isResetting p) (bankAccounts p) (isAccountDialogOpen p) b.

(** [localStorage.removeItem] of a key other than the queue key, and of the
    queue key. *)
Definition removeItem (key : string) (ls : LocalStorage) : LocalStorage :=
  mkStorage (queueItem ls) (delete key (dataItems ls)).

Definition removeQueueItem (ls : LocalStorage) : LocalStorage :=
  mkStorage None (dataItems ls).

(** The account list after [handleSaveAccount]; [stamp] is
    [Date.now().toString()]. *)
Definition savedAccounts (stamp : string) (form : AccountForm)
    (editingAccount : option BankAccount) (accounts : list BankAccount)
    : list BankAccount :=
  let newId :=
    match editingAccount with
    | Some a => if String.eqb (accountId a) "" then stamp else accountId a
    | None => stamp
    end in
  let newAccount :=
    {| accountId := newId; accountForm := form;
       isDefault := bool_decide (length accounts = 0%nat) |} in
  match editingAccount with
  | Some editing =>
      List.map (fun a => if String.eqb (accountId a) (accountId editing)
                         then newAccount else a) accounts
  | None => accounts ++ [newAccount]
  end.

(** The account list after [handleDeleteAccount] and [handleSetDefault]. *)
Definition accountsWithout (account : BankAccount)
    (accounts : list BankAccount) : list BankAccount :=
  List.filter (fun a => negb (String.eqb (accountId a) (accountId account)))
              accounts.

Definition accountsWithDefault (account : BankAccount)
    (accounts : list BankAccount) : list BankAccount :=
  List.map (fun a => {| accountId := accountId a;
                        accountForm := accountForm a;
                        isDefault := String.eqb (accountId a)
                                                (accountId account) |})
           accounts.

Section Settings.
Variable quota : LocalStorage -> bool.

(** [saveBankAccountsWithSync(accounts, sync)]: the write of the accounts is
    not guarded, the rejection of [sync] is. *)
Definition saveBankAccountsWithSync (c : Connection) (now : Z)
    (commit : Settled) (accounts : list BankAccount) (st : SyncState)
    : SyncState * Settled :=
  match setItem quota BANK_ACCOUNTS_KEY
                (JSON_stringify (JArr (List.map accountJson accounts)))
                (localStorage st) with
  | Throw e => (st, Rejected e)
  | Normal ls =>
      match sync c now commit (setStorage ls st) with
      | (st, _) => (st, Resolved)
      end
  end.

(** The three handlers that change the accounts: the page holds the new
    list, the list is saved and synced, the notification is raised. *)
Definition handleSaveAccount (c : Connection) (now : Z) (commit : Settled)
    (stamp : string) (form : AccountForm)
    (editingAccount : option BankAccount) (p : SettingsPage) : SettingsPage :=
  let updatedAccounts :=
    savedAccounts stamp form editingAccount (bankAccounts p) in
  let p := setBankAccounts updatedAccounts p in
  let p := setApp (saveBankAccountsWithSync c now commit updatedAccounts
                                            (provider p)).1 p in
  let p := pageToast (AccountSaved (bool_decide (is_Some editingAccount))) p in
  setIsAccountDialogOpen false p.

Definition handleDeleteAccount (c : Connection) (now : Z) (commit : Settled)
    (account : BankAccount) (p : SettingsPage) : SettingsPage :=
  let updatedAccounts := accountsWithout account (bankAccounts p) in
  let p := setBankAccounts updatedAccounts p in
  let p := setApp (saveBankAccountsWithSync c now commit updatedAccounts
                                            (provider p)).1 p in
  pageToast AccountDeleted p.

Definition handleSetDefault (c : Connection) (now : Z) (commit : Settled)
    (account : BankAccount) (p : SettingsPage) : SettingsPage :=
  let updatedAccounts := accountsWithDefault account (bankAccounts p) in
  let p := setBankAccounts updatedAccounts p in
  setApp (saveBankAccountsWithSync c now commit updatedAccounts (provider p)).1 p.

Definition handleSync (c : Connection) (now : Z) (commit : Settled)
    (p : SettingsPage) : SettingsPage :=
  let p := setIsSyncing true p in
  let p :=
    match sync c now commit (provider p) with
    | (st, Resolved) => pageToast PageSyncComplete (setApp st p)
    | (st, Rejected _) => pageToast PageSyncFailed (setApp st p)
    end in
  setIsSyncing false p.

Definition handleRestore (c : Connection) (now : Z)
    (snapshot : Completion (list DocSnapshot)) (p : SettingsPage)
    : SettingsPage :=
  let p := setIsRestoring true p in
  let p :=
    match restore quota c now snapshot (provider p) with
    | (st, Resolved) => pageToast DataRestored (setApp st p)
    | (st, Rejected _) => pageToast PageRestoreFailed (setApp st p)
    end in
  setIsRestoring false p.

Definition handleReset (isConnected : bool) (c : Connection)
    (snapshot : Completion (list DocSnapshot)) (deleted : string -> Settled)
    (p : SettingsPage) : SettingsPage :=
  let p := setIsResetting true p in
  let cloud :=
    if isConnected then resetAllData c snapshot deleted (provider p)
    else (provider p, Resolved) in
  let p :=
    match cloud with
    | (st, Rejected _) => pageToast ResetFailed (setApp st p)
    | (st, Resolved) =>
        let ls := localStorage st in
        let ls := removeItem "wyrd-ledger-products" ls in
        let ls := removeItem "wyrd-ledger-customers" ls in
        let ls := removeItem "wyrd-ledger-settings" ls in
        let ls := removeItem BANK_ACCOUNTS_KEY ls in
        let ls := removeQueueItem ls in
        let p := setApp (setStorage ls st) p in
        let p := setBankAccounts [] p in
        let p := pageToast (DataResetComplete isConnected) p in
        let p := setIsResetDialogOpen false p in
        setApp (reload (provider p)) p
    end in
  setIsResetting false p.
End Settings.

(** At most one account of the list is the default one. *)
Definition oneDefault (accounts : list BankAccount) : Prop :=
  (length (List.filter isDefault accounts) <= 1)%nat.

(** ** pages/Products.tsx *)

Definition PRODUCTS_STORAGE_KEY : string := "wyrd-ledger-products".

(** An optional property [name?: string] of an object in memory: the
    object has no such property, as one that [JSON.parse] built without it;
    it has the property with the value [undefined], as one built by
    [{ name: s || undefined }]; or it has it with a string. *)
Inductive Optional : Type :=
  | Absent
  | Undefined
  | Present (s : string).

Record Product : Type := mkProduct {
  productId : string;                  (* id *)
  productName : string;                (* name *)
  colors : list string;
  sizes : list string;
  stock : Z;
  cargoTrackingLink : Optional;
  cargoCarrier : Optional;
  createdAt : string;
  updatedAt : string
}.

(** An optional property in the object in memory. *)
Definition optionalProperty (name : string) (v : Optional)
    : list (string * Value) :=
  match v with
  | Absent => []
  | Undefined => [(name, VUndefined)]
  | Present s => [(name, VStr s)]
  end.

(** A product as the page holds it, with its properties in the order in
    which [handleSave] writes them. *)
Definition productValue (p : Product) : Value :=
  VObj ([ ("id", VStr (productId p));
          ("name", VStr (productName p));
          ("colors", VArr (List.map VStr (colors p)));
          ("sizes", VArr (List.map VStr (sizes p)));
          ("stock", VNum (stock p)) ]
        ++ optionalProperty "cargoCarrier" (cargoCarrier p)
        ++ optionalProperty "cargoTrackingLink" (cargoTrackingLink p)
        ++ [ ("createdAt", VStr (createdAt p));
             ("updatedAt", VStr (updatedAt p)) ]).

(** An optional property in the text [JSON.stringify] gives: left out when
    absent and when [undefined]. *)
Definition optionalField (name : string) (v : Optional)
    : list (string * Json) :=
  match v with
  | Present s => [(name, JStr s)]
  | _ => []
  end.

(** [JSON.stringify] of a product. *)
Definition productJson (p : Product) : Json :=
  JObj ([ ("id", JStr (productId p));
          ("name", JStr (productName p));
          ("colors", JArr (List.map JStr (colors p)));
          ("sizes", JArr (List.map JStr (sizes p)));
          ("stock", JNum (stock p)) ]
        ++ optionalField "cargoCarrier" (cargoCarrier p)
        ++ optionalField "cargoTrackingLink" (cargoTrackingLink p)
        ++ [ ("createdAt", JStr (createdAt p));
             ("updatedAt", JStr (updatedAt p)) ]).




Section ProductsPage.
(** The string functions of the JavaScript library that the page uses:
    [s.trim()], [s.split(",")] and [parseInt(s)] ([None] is [NaN]). *)
Variable trim : string -> string.
Variable splitCommas : string -> list string.
Variable parseInt : string -> option Z.




End ProductsPage.


Section ProductsEffect.
Variable quota : LocalStorage -> bool.

(** The effect on [products]: [saveProductsToLocal(products)], whose write
    is not guarded, then [saveData("products", products)] unless the list
    is empty.  The text written is that of the products; [saveData] is
    handed the products themselves, as the page holds them. *)
Definition productsEffect (c : Connection) (uuid : string) (now : Z)
    (commit : Settled) (list : list Product) (st : SyncState)
    : Completion SyncState :=
  match setItem quota PRODUCTS_STORAGE_KEY
                (JSON_stringify (JArr (List.map productJson list)))
                (localStorage st) with
  | Throw e => Throw e
  | Normal ls =>
      let st := setStorage ls st in
      if bool_decide (0 < length list)%nat
      then Normal (saveData quota c uuid now commit "products"
                            (List.map productValue list) st).1
      else Normal st
  end.
End ProductsEffect.

(** ** pages/NewOrder.tsx: the stock of the ordered products

    [handleSubmit] ends by taking one unit of stock from every product of
    the order.  The stored product list is read at its declared type, as
    the queue is; stock counts are whole numbers (the Products page stores
    [parseInt(...) || 0]). *)










(** The steps of the order form: [steps], [handleNext], [handleBack];
    the card title is [steps[currentStep - 1].title]. *)
Definition steps : list (Z * string) :=
  [(1, "Customer Details"); (2, "Products"); (3, "Payment"); (4, "Review")].

Definition handleNext (currentStep : Z) : Z :=
  if currentStep <? 4 then currentStep + 1 else currentStep.

Definition handleBack (currentStep : Z) : Z :=
  if currentStep >? 1 then currentStep - 1 else currentStep.

Inductive StepButton : Type := PressNext | PressBack.

Definition press (currentStep : Z) (b : StepButton) : Z :=
  match b with
  | PressNext => handleNext currentStep
  | PressBack => handleBack currentStep
  end.

(** ** More sample data *)

Definition sampleAccount (i : string) (d : bool) : BankAccount :=
  mkAccount i (mkForm "n" "h" "1" "b" "c" "br" "bc" "s") d.


(** * Properties *)

(** ** Numbers and values *)

(** Up to 2^53 in absolute value, adding one is exact. *)
Lemma plusOne_exact (n : Z) :
  - 9007199254740993 <= n <= 9007199254740991 -> plusOne n = n + 1.
Proof.
  intros Hn. unfold plusOne, roundNumber.
  rewrite (proj2 (Z.leb_le _ _)); [done | lia].
Qed.

(** At 2^53 it is not: the sum is rounded back. *)
Lemma plusOne_stuck : plusOne 9007199254740992 = 9007199254740992.
Proof. vm_compute. reflexivity. Qed.

Lemma Json_induction (P : Json -> Prop) :
  P JNull -> (forall b, P (JBool b)) -> (forall n, P (JNum n)) ->
  (forall s, P (JStr s)) ->
  (forall xs, Forall P xs -> P (JArr xs)) ->
  (forall fields, Forall (fun kv => P kv.2) fields -> P (JObj fields)) ->
  forall j, P j.
Proof.
  intros Hnull Hbool Hnum Hstr Harr Hobj.
  fix IH 1. intros [ |b|n|s|xs|fields].
  - exact Hnull.
  - apply Hbool.
  - apply Hnum.
  - apply Hstr.
  - apply Harr. induction xs as [|x xs IHxs]; constructor; [apply IH | exact IHxs].
  - apply Hobj. induction fields as [|[k v] fields IHfields]; constructor;
      [apply IH | exact IHfields].
Qed.

(** A value that [JSON.parse] gave holds no [undefined] and has itself as
    its text, so Firestore takes it. *)
Lemma ofJson_defined (j : Json) : defined (ofJson j) = true.
Proof.
  induction j as [ | | | |xs IH|fields IH] using Json_induction; try done.
  - simpl. induction IH as [|x xs Hx _ IHxs]; [done|].
    simpl. by rewrite Hx, IHxs.
  - simpl. induction IH as [|[k v] fields Hv _ IHfields]; [done|].
    simpl in *. by rewrite Hv, IHfields.
Qed.

Lemma ofJson_image (j : Json) : JSON_image (ofJson j) = Some j.
Proof.
  induction j as [ | | | |xs IH|fields IH] using Json_induction; try done.
  - simpl. do 2 f_equal. induction IH as [|x xs Hx _ IHxs]; [done|].
    simpl. by rewrite Hx, IHxs.
  - simpl. do 2 f_equal. induction IH as [|[k v] fields Hv _ IHfields]; [done|].
    simpl in *. by rewrite Hv, IHfields.
Qed.

Lemma firestoreValue_ofJson (j : Json) : firestoreValue (ofJson j) = Some j.
Proof. unfold firestoreValue. by rewrite ofJson_defined, ofJson_image. Qed.

Lemma firestoreValue_array (xs : list Value) :
  firestoreValue (VArr xs)
  = if forallb defined xs then Some (JSON_array xs) else None.
Proof. reflexivity. Qed.

(** The replay of a queued operation passes [batch.set]: its data were
    read from text. *)
Lemma saveDataInternal_begin_parsed {S} c name (j : Json) (st : SyncState_ S) :
  saveDataInternal_begin c name (ofJson j) st
  = match connected c with
    | None => Throw (PlainError "Cannot save: No database connection or user")
    | Some uid => Normal (request (BatchCommit uid [(name, j)]) st)
    end.
Proof. unfold saveDataInternal_begin. by rewrite firestoreValue_ofJson. Qed.

(** ** The stored queue *)

Section QueueFacts.
Variable quota : LocalStorage -> bool.

Lemma getQueuedOperations_stored operations items :
  getQueuedOperations (mkStorage (Some (Valid operations)) items)
  = operations.
Proof. reflexivity. Qed.

(** The write of the queue either is refused and leaves the storage as it
    was, or replaces the queue entry and nothing else. *)
Lemma persistQueue_cases operations ls :
  (fits quota operations ls
   /\ persistQueue quota operations ls
      = mkStorage (Some (Valid operations)) (dataItems ls))
  \/ (~ fits quota operations ls /\ persistQueue quota operations ls = ls).
Proof.
  unfold fits, persistQueue, setQueueItem, JSON_stringify.
  destruct (quota _); [left | right]; split; congruence.
Qed.

Lemma persistQueue_fits operations ls :
  fits quota operations ls ->
  getQueuedOperations (persistQueue quota operations ls) = operations.
Proof.
  intros Hfit. destruct (persistQueue_cases operations ls) as [[_ ->]|[Hno _]].
  - apply getQueuedOperations_stored.
  - contradiction.
Qed.

Lemma persistQueue_queue operations ls :
  getQueuedOperations (persistQueue quota operations ls) = operations
  \/ getQueuedOperations (persistQueue quota operations ls)
     = getQueuedOperations ls.
Proof.
  destruct (persistQueue_cases operations ls) as [[_ ->]|[_ ->]]; auto.
Qed.

Lemma persistQueue_dataItems operations ls :
  dataItems (persistQueue quota operations ls) = dataItems ls.
Proof.
  destruct (persistQueue_cases operations ls) as [[_ ->]|[_ ->]]; auto.
Qed.

(** Writing the queue that is already stored changes nothing. *)
Lemma persistQueue_same operations ls :
  queueItem ls = Some (Valid operations) ->
  persistQueue quota operations ls = ls.
Proof.
  intros Hq. destruct (persistQueue_cases operations ls) as [[_ ->]|[_ ->]];
    [|done].
  destruct ls as [q d]; simpl in *. by rewrite Hq.
Qed.

Lemma filter_id_absent (i : string) (operations : list QueuedOperation) :
  (forall op, In op operations -> id op <> i) ->
  List.filter (fun op => negb (String.eqb (id op) i)) operations
  = operations.
Proof.
  induction operations as [|op operations IH]; intros Habs; [done|].
  simpl. destruct (String.eqb_spec (id op) i) as [Heq|Hne]; simpl.
  - exfalso. apply (Habs op); [by left | done].
  - f_equal. apply IH. intros op' Hin. apply Habs. by right.
Qed.

Lemma filter_id_gone (i : string) (operations : list QueuedOperation) op :
  In op (List.filter (fun op => negb (String.eqb (id op) i)) operations) ->
  id op <> i.
Proof.
  intros Hin. apply filter_In in Hin as [_ Hne].
  destruct (String.eqb_spec (id op) i); [done | done].
Qed.

Lemma filter_id_twice (i : string) (operations : list QueuedOperation) :
  let keep := fun op => negb (String.eqb (id op) i) in
  List.filter keep (List.filter keep operations) = List.filter keep operations.
Proof.
  intros keep. apply filter_id_absent. intros op Hin.
  by apply filter_id_gone in Hin.
Qed.
End QueueFacts.

(** C6. [shouldRetry(op)] is true exactly when [op.retryCount] is below
    [maxRetries], which the configuration sets to 3. *)
Theorem shouldRetry_iff_below_maxRetries (op : QueuedOperation) :
  appConfig.maxRetries = 3
  /\ (shouldRetry op = true <-> retryCount op < appConfig.maxRetries).
Proof.
  split; [reflexivity|]. unfold shouldRetry. apply Z.ltb_lt.
Qed.

(** ** The queue entry as declared, among all texts *)

Section Declared.
Variable quota : Untyped.Storage -> bool.

Lemma declared_getQueuedOperations ls :
  Untyped.getQueuedOperations (declared ls)
  = Untyped.Operations (getQueuedOperations ls).
Proof. by destruct ls as [[[| |operations]|] items]. Qed.

Lemma declared_persistQueue operations ls :
  Untyped.persistQueue quota operations (declared ls)
  = declared (persistQueue (fun ls => quota (declared ls)) operations ls).
Proof.
  unfold Untyped.persistQueue, Untyped.setQueueItem, persistQueue,
    setQueueItem, declared. simpl.
  by destruct (quota _).
Qed.

(** On a storage whose queue entry is as declared, the functions that
    write the queue do not throw and do what the declared reading says. *)
Lemma declared_queueOperation uuid now op ls :
  Untyped.queueOperation quota uuid now op (declared ls)
  = Normal (declared (queueOperation (fun ls => quota (declared ls))
                                     uuid now op ls)).
Proof.
  unfold Untyped.queueOperation, queueOperation.
  by rewrite declared_getQueuedOperations, declared_persistQueue.
Qed.

Lemma declared_removeFromQueue i ls :
  Untyped.removeFromQueue quota i (declared ls)
  = Normal (declared (removeFromQueue (fun ls => quota (declared ls)) i ls)).
Proof.
  unfold Untyped.removeFromQueue, removeFromQueue.
  by rewrite declared_getQueuedOperations, declared_persistQueue.
Qed.

Lemma declared_incrementRetryCount i ls :
  Untyped.incrementRetryCount quota i (declared ls)
  = Normal (declared (incrementRetryCount (fun ls => quota (declared ls))
                                          i ls)).
Proof.
  unfold Untyped.incrementRetryCount, incrementRetryCount.
  by rewrite declared_getQueuedOperations, declared_persistQueue.
Qed.

(** On any other storage they throw before they write. *)
Lemma undeclared_throws uuid now op i s v :
  Untyped.getQueuedOperations s = Untyped.Other v ->
  Untyped.queueOperation quota uuid now op s = Throw TypeError
  /\ Untyped.removeFromQueue quota i s = Throw TypeError
  /\ Untyped.incrementRetryCount quota i s = Throw TypeError.
Proof.
  intros Hother.
  unfold Untyped.queueOperation, Untyped.removeFromQueue,
    Untyped.incrementRetryCount.
  by rewrite Hother.
Qed.

(** Every storage is one or the other. *)
Lemma declared_or_not s :
  (exists ls, s = declared ls)
  \/ (exists v, Untyped.queueText s = Some (Valid (Untyped.Other v))).
Proof.
  destruct s as [[[| |[operations|v]]|] items].
  - left. by exists (mkStorage (Some Blank) items).
  - left. by exists (mkStorage (Some Corrupt) items).
  - left. by exists (mkStorage (Some (Valid operations)) items).
  - right. by exists v.
  - left. by exists (mkStorage None items).
Qed.
End Declared.

(** C9, as the code has it.  [getQueuedOperations] never throws, whatever
    the text under the queue key: it returns the empty list when nothing is
    stored, when the text is empty and when [JSON.parse] rejects it (the
    exception raised inside the [try] is caught), and otherwise the value
    the text denotes.  That value is a list exactly when the text is that
    of an array; the text of another JSON value gives that value, not a
    list.  On a storage whose entry is as declared it returns the list that
    the declared reading gives. *)
Theorem getQueuedOperations_total (s : Untyped.Storage) :
  (Untyped.queueText s = None ->
   Untyped.getQueuedOperations s = Untyped.Operations [])
  /\ (Untyped.queueText s = Some Blank ->
      Untyped.getQueuedOperations s = Untyped.Operations [])
  /\ (Untyped.queueText s = Some Corrupt ->
      Untyped.readQueue s = Throw SyntaxError
      /\ Untyped.getQueuedOperations s = Untyped.Operations [])
  /\ (forall operations,
        Untyped.queueText s = Some (Valid (Untyped.Operations operations)) ->
        Untyped.getQueuedOperations s = Untyped.Operations operations)
  /\ (forall v,
        Untyped.queueText s = Some (Valid (Untyped.Other v)) ->
        Untyped.getQueuedOperations s = Untyped.Other v)
  /\ ((exists operations,
         Untyped.getQueuedOperations s = Untyped.Operations operations)
      <-> forall v, Untyped.queueText s <> Some (Valid (Untyped.Other v)))
  /\ (forall ls, s = declared ls ->
        Untyped.getQueuedOperations s
        = Untyped.Operations (getQueuedOperations ls)).
Proof.
  unfold Untyped.getQueuedOperations, Untyped.readQueue.
  split; [by intros ->|]. split; [by intros ->|].
  split; [by intros ->|]. split; [by intros operations ->|].
  split; [by intros v ->|]. split.
  - destruct (Untyped.queueText s) as [[| |[operations|v]]|]; simpl.
    + split; [done | eauto].
    + split; [done | eauto].
    + split; [done | eauto].
    + split; [by intros [operations ?] | intros Hnot; by destruct (Hnot v)].
    + split; [done | eauto].
  - intros ls ->. apply declared_getQueuedOperations.
Qed.

Lemma getQueuedOperations_total_witness :
  Untyped.getQueuedOperations (Untyped.mkAny (Some Corrupt) ∅)
  = Untyped.Operations []
  /\ Untyped.getQueuedOperations (Untyped.mkAny None ∅)
     = Untyped.Operations [].
Proof.
  pose proof (getQueuedOperations_total (Untyped.mkAny (Some Corrupt) ∅))
    as (_ & _ & Hcorrupt & _).
  pose proof (getQueuedOperations_total (Untyped.mkAny None ∅))
    as (Habsent & _).
  split; [apply Hcorrupt | apply Habsent]; reflexivity.
Defined.

(** C9 as it is worded fails when the text under the queue key is that of a
    JSON value that is not an array: [null], say.  [JSON.parse] accepts it,
    nothing is thrown, and [getQueuedOperations] returns [null], which is
    no list. *)
Lemma getQueuedOperations_returns_null :
  let s := Untyped.mkAny (Some (Valid (Untyped.Other Untyped.ONull))) ∅ in
  Untyped.readQueue s = Normal (Untyped.Other Untyped.ONull)
  /\ Untyped.getQueuedOperations s = Untyped.Other Untyped.ONull
  /\ forall operations,
       Untyped.getQueuedOperations s <> Untyped.Operations operations.
Proof. repeat split. intros operations. discriminate. Qed.

Section Removal.
Variable quota : LocalStorage -> bool.

Lemma filter_sublist (keep : QueuedOperation -> bool) operations :
  List.filter keep operations `sublist_of` operations.
Proof.
  induction operations as [|op operations IH]; simpl; [constructor|].
  destruct (keep op); by constructor.
Qed.

Lemma removeFromQueue_again (i : string) (ls : LocalStorage) :
  removeFromQueue quota i (removeFromQueue quota i ls)
  = removeFromQueue quota i ls.
Proof.
  unfold removeFromQueue at 2 3.
  destruct (persistQueue_cases quota
              (List.filter (fun op => negb (String.eqb (id op) i))
                           (getQueuedOperations ls)) ls)
    as [[_ Heq]|[_ Heq]]; rewrite Heq; [|exact Heq].
  unfold removeFromQueue. rewrite getQueuedOperations_stored.
  rewrite filter_id_twice. by apply persistQueue_same.
Qed.

(** C7. [removeFromQueue] is idempotent.  Once the browser has accepted
    the write, the listed queue is the old one without the operations of
    that id, the others in their old order, so no listed operation has the
    id; an id that is not queued leaves the listed queue as it was; a
    second removal of the same id changes nothing; and in every case what
    is listed afterwards is the old queue with some entries left out,
    order kept. *)
Theorem removeFromQueue_idempotent (i : string) (ls : LocalStorage) :
  let keep := fun op => negb (String.eqb (id op) i) in
  let ls' := removeFromQueue quota i ls in
  (fits quota (List.filter keep (getQueuedOperations ls)) ls ->
     getQueuedOperations ls' = List.filter keep (getQueuedOperations ls)
     /\ forall op, In op (getQueuedOperations ls') -> id op <> i)
  /\ ((forall op, In op (getQueuedOperations ls) -> id op <> i) ->
      getQueuedOperations ls' = getQueuedOperations ls)
  /\ removeFromQueue quota i ls' = ls'
  /\ getQueuedOperations ls' `sublist_of` getQueuedOperations ls.
Proof.
  intros keep ls'.
  assert (Hls' : ls' = persistQueue quota
                         (List.filter keep (getQueuedOperations ls)) ls)
    by reflexivity.
  split; [|split; [|split]]; [rewrite Hls' .. | | rewrite Hls'].
  - intros Hfit. rewrite (persistQueue_fits quota _ _ Hfit). split; [done|].
    intros op. apply filter_id_gone.
  - intros Habs.
    destruct (persistQueue_queue quota (List.filter keep
                (getQueuedOperations ls)) ls) as [-> | ->]; [|done].
    by apply filter_id_absent.
  - apply removeFromQueue_again.
  - destruct (persistQueue_queue quota (List.filter keep
                (getQueuedOperations ls)) ls) as [-> | ->]; [|done].
    apply filter_sublist.
Qed.
End Removal.

Lemma removeFromQueue_idempotent_witness :
  let ls := mkStorage (Some (Valid [sampleOp "a" 0; sampleOp "b" 0;
                                    sampleOp "c" 1])) ∅ in
  getQueuedOperations (removeFromQueue (fun _ => true) "b" ls)
  = [sampleOp "a" 0; sampleOp "c" 1]
  /\ getQueuedOperations (removeFromQueue (fun _ => true) "z" ls)
     = getQueuedOperations ls.
Proof.
  intros ls.
  pose proof (removeFromQueue_idempotent (fun _ => true) "b" ls) as (Hrem & _).
  pose proof (removeFromQueue_idempotent (fun _ => true) "z" ls)
    as (_ & Habs & _).
  split.
  - apply Hrem. reflexivity.
  - apply Habs. intros op [<-|[<-|[<-|[]]]]; discriminate.
Defined.

Section Enqueue.
Variable quota : LocalStorage -> bool.

Lemma queueOperation_length uuid now op ls :
  (length (getQueuedOperations ls) <= appConfig.maxQueueSize)%nat ->
  (length (getQueuedOperations (queueOperation quota uuid now op ls))
   <= appConfig.maxQueueSize)%nat.
Proof.
  intros Hlen. unfold queueOperation.
  match goal with |- context [persistQueue quota ?ops ls] =>
    destruct (persistQueue_queue quota ops ls) as [-> | ->]; [|done]
  end.
  rewrite length_app. simpl. case_bool_decide as Hfull.
  - unfold shift, appConfig.maxQueueSize in *.
    destruct (getQueuedOperations ls); simpl in *; lia.
  - lia.
Qed.

Lemma enqueueAll_length calls : forall ls,
  (length (getQueuedOperations ls) <= appConfig.maxQueueSize)%nat ->
  (length (getQueuedOperations (enqueueAll quota calls ls))
   <= appConfig.maxQueueSize)%nat.
Proof.
  induction calls as [|[[uuid now] op] calls IH]; intros ls Hlen; [done|].
  simpl. apply IH. by apply queueOperation_length.
Qed.

Lemma queueOperation_queue uuid now op ls :
  let operations := getQueuedOperations ls in
  let kept :=
    if bool_decide (appConfig.maxQueueSize <= length operations)%nat
    then tail operations else operations in
  fits quota (kept ++ [newEntry uuid now op]) ls ->
  getQueuedOperations (queueOperation quota uuid now op ls)
  = kept ++ [newEntry uuid now op].
Proof. intros operations kept Hfit. by apply persistQueue_fits. Qed.

Hypothesis never_refused : forall ls, quota ls = true.

(** With no write refused, the queue after a run of calls is the last
    [maxQueueSize] entries of the old queue followed by the new entries. *)
Lemma enqueueAll_window calls : forall ls,
  (length (getQueuedOperations ls) <= appConfig.maxQueueSize)%nat ->
  let all := getQueuedOperations ls ++ List.map entryOf calls in
  getQueuedOperations (enqueueAll quota calls ls)
  = drop (length all - appConfig.maxQueueSize) all.
Proof.
  induction calls as [|[[uuid now] op] calls IH]; intros ls Hlen all.
  - subst all. simpl. rewrite app_nil_r.
    replace (_ - _)%nat with 0%nat by lia. done.
  - simpl enqueueAll.
    pose proof (queueOperation_length uuid now op ls Hlen) as Hlen'.
    rewrite (IH _ Hlen'). clear IH.
    rewrite queueOperation_queue by apply never_refused.
    subst all. simpl List.map.
    change (entryOf (uuid, now, op)) with (newEntry uuid now op).
    generalize (newEntry uuid now op) as e.
    generalize (List.map entryOf calls) as new. intros new e.
    remember appConfig.maxQueueSize as n eqn:Hn.
    case_bool_decide as Hfull.
    + destruct (getQueuedOperations ls) as [|x q];
        [simpl in Hfull; unfold appConfig.maxQueueSize in Hn; lia|].
      cbn [tail tl]. rewrite <- !app_assoc. cbn [app].
      assert (Hall : length (q ++ e :: new) = (length q + S (length new))%nat)
        by (rewrite length_app; reflexivity).
      cbn [length] in *. rewrite Hall.
      replace (S (length q + S (length new)) - n)%nat
        with (S (length q + S (length new) - n)) by lia.
      done.
    + rewrite <- app_assoc. done.
Qed.
End Enqueue.

(** C1, as the code has it.  The queue never grows beyond [maxQueueSize]
    (50): enqueueing keeps a queue of at most 50 entries at most 50 entries
    long, whatever the sequence of calls and whether or not the browser
    accepts the writes.  An enqueue on a full queue drops the oldest entry
    and appends the new one, which is the operation given with the id and
    the time drawn and no retry, at the tail, if the browser accepts the
    write of the queue; if the browser refuses it, the exception is
    swallowed and the storage is left as it was, the oldest entry still
    there and the new one lost.  Hence 51 enqueues on an empty queue, all
    written, leave exactly the 50 entries of the last 50 calls in call
    order, and the entry enqueued first is not among them. *)
Theorem queueOperation_bounded_fifo_eviction (quota : LocalStorage -> bool) :
  appConfig.maxQueueSize = 50%nat
  /\ (forall calls ls,
        (length (getQueuedOperations ls) <= appConfig.maxQueueSize)%nat ->
        (length (getQueuedOperations (enqueueAll quota calls ls))
         <= appConfig.maxQueueSize)%nat)
  /\ (forall uuid now op ls,
        length (getQueuedOperations ls) = appConfig.maxQueueSize ->
        let entry :=
          {| id := uuid; type := in_type op; collection := in_collection op;
             data := in_data op; timestamp := now; retryCount := 0 |} in
        let evicted := tail (getQueuedOperations ls) ++ [entry] in
        (fits quota evicted ls ->
         getQueuedOperations (queueOperation quota uuid now op ls) = evicted)
        /\ (~ fits quota evicted ls ->
            queueOperation quota uuid now op ls = ls))
  /\ (forall calls ls,
        (forall ls', quota ls' = true) ->
        getQueuedOperations ls = [] ->
        length calls = S appConfig.maxQueueSize ->
        let queue := getQueuedOperations (enqueueAll quota calls ls) in
        length queue = appConfig.maxQueueSize
        /\ queue
           = List.map (fun call : string * Z * OperationInput =>
                         {| id := call.1.1; type := in_type call.2;
                            collection := in_collection call.2;
                            data := in_data call.2; timestamp := call.1.2;
                            retryCount := 0 |})
                      (tail calls)
        /\ (NoDup (List.map (fun call => call.1.1) calls) ->
            forall first, head calls = Some first ->
            ~ In first.1.1 (List.map id queue))).
Proof.
  split; [reflexivity|]. split; [|split].
  - intros calls ls. apply enqueueAll_length.
  - intros uuid now op ls Hfull entry evicted.
    assert (Hcall : queueOperation quota uuid now op ls
                    = persistQueue quota evicted ls).
    { unfold queueOperation. by rewrite bool_decide_eq_true_2 by lia. }
    rewrite Hcall. split.
    + intros Hfit. by apply persistQueue_fits.
    + intros Hno.
      by destruct (persistQueue_cases quota evicted ls) as [[? _]|[_ ->]].
  - intros calls ls Hquota Hempty Hlen queue.
    assert (Hqueue : queue = List.map entryOf (tail calls)).
    { subst queue. rewrite enqueueAll_window; [|done|rewrite Hempty; simpl; lia].
      rewrite Hempty. simpl. rewrite length_map, Hlen.
      replace (S appConfig.maxQueueSize - appConfig.maxQueueSize)%nat
        with 1%nat by lia.
      destruct calls; done. }
    split; [|split; [done|]].
    + rewrite Hqueue, length_map. destruct calls; simpl in *; lia.
    + intros Hnodup first Hfirst. rewrite Hqueue.
      destruct calls as [|call calls]; simplify_eq/=.
      rewrite map_map. simpl.
      apply NoDup_cons in Hnodup as [Hnotin _].
      intros Hin. apply Hnotin. by apply list_elem_of_In.
Qed.

Lemma queueOperation_bounded_fifo_eviction_witness :
  let queue :=
    getQueuedOperations
      (enqueueAll (fun _ => true) (sampleCalls 51) (mkStorage None ∅)) in
  length queue = 50%nat /\ ~ In (sampleId 0) (List.map id queue).
Proof.
  intros queue.
  pose proof (queueOperation_bounded_fifo_eviction (fun _ => true))
    as (_ & _ & _ & Hscenario).
  destruct (Hscenario (sampleCalls 51) (mkStorage None ∅))
    as (Hlen & _ & Habsent); [done | reflexivity | reflexivity |].
  split; [exact Hlen|].
  assert (Hids : NoDup (List.map (fun call => call.1.1) (sampleCalls 51))).
  { apply (bool_decide_unpack _). vm_compute. reflexivity. }
  apply (Habsent Hids
                 (sampleId 0, 0, mkInput save (Some "products") (JArr []))).
  reflexivity.
Defined.

(** C1 as it is worded fails when the browser refuses the write of the
    queue: on a queue of 50 entries the call returns normally, the oldest
    entry is not evicted and the new operation is not appended. *)
Lemma queueOperation_refused_keeps_oldest :
  let ls := mkStorage (Some (Valid (sampleQueue 50))) ∅ in
  let ls' := queueOperation (fun _ => false) "new" 7
                            (mkInput save (Some "products") (JArr [])) ls in
  length (getQueuedOperations ls) = appConfig.maxQueueSize
  /\ ls' = ls
  /\ head (getQueuedOperations ls') = head (getQueuedOperations ls)
  /\ ~ In "new" (List.map id (getQueuedOperations ls')).
Proof.
  split; [reflexivity|]. split; [reflexivity|]. split; [reflexivity|].
  apply (bool_decide_unpack _). vm_compute. reflexivity.
Qed.

Section SaveData.
Variable quota : Untyped.Storage -> bool.

Lemma untyped_persistQueue_cases operations s :
  (Untyped.fits quota operations s
   /\ Untyped.persistQueue quota operations s
      = Untyped.mkAny (Some (Valid (Untyped.Operations operations)))
                      (Untyped.otherItems s))
  \/ (~ Untyped.fits quota operations s
      /\ Untyped.persistQueue quota operations s = s).
Proof.
  unfold Untyped.fits, Untyped.persistQueue, Untyped.setQueueItem,
    JSON_stringify.
  destruct (quota _); [left | right]; split; congruence.
Qed.

(** What the call of [queueOperation] in [saveData] does. *)
Lemma untyped_enqueue uuid now op (st : SyncState_ Untyped.Storage) :
  match Untyped.getQueuedOperations (localStorage st) with
  | Untyped.Other _ => Untyped.enqueue quota uuid now op st = Throw TypeError
  | Untyped.Operations queue =>
      let kept :=
        if bool_decide (appConfig.maxQueueSize <= length queue)%nat
        then tail queue else queue in
      exists s,
        Untyped.enqueue quota uuid now op st = Normal (setStorage s st)
        /\ (Untyped.fits quota (kept ++ [newEntry uuid now op])
                         (localStorage st) ->
            Untyped.getQueuedOperations s
            = Untyped.Operations (kept ++ [newEntry uuid now op]))
        /\ (~ Untyped.fits quota (kept ++ [newEntry uuid now op])
                           (localStorage st) ->
            s = localStorage st)
  end.
Proof.
  unfold Untyped.enqueue, Untyped.queueOperation.
  destruct (Untyped.getQueuedOperations (localStorage st)) as [queue|v];
    [|done].
  cbv zeta. eexists. split; [reflexivity|].
  match goal with |- context [Untyped.persistQueue quota ?ops ?s] =>
    destruct (untyped_persistQueue_cases ops s) as [[Hfit ->]|[Hno ->]]
  end; split; done.
Qed.

(** The declared reading of [saveData] is [saveData] on the storages whose
    queue entry is as declared. *)
Lemma declared_saveData c uuid now commit collectionName records st :
  Untyped.saveData quota c uuid now commit collectionName records
                   (declaredState st)
  = (declaredState
       (saveData (fun ls => quota (declared ls)) c uuid now commit
                 collectionName records st).1,
     (saveData (fun ls => quota (declared ls)) c uuid now commit
               collectionName records st).2).
Proof.
  unfold Untyped.saveData, saveData, Untyped.enqueue, enqueue,
    saveDataInternal_begin, saveDataInternal_end, declaredState.
  destruct (connected c) as [uid|]; cbn [localStorage setStorage setStatus].
  - destruct (firestoreValue (VArr records)) as [items|];
      [destruct commit as [|e]|]; cbn;
      rewrite ?declared_queueOperation; reflexivity.
  - rewrite declared_queueOperation. reflexivity.
Qed.

(** C3, as the code has it.  [saveData] makes at most one write attempt,
    and none without a connection or a user, nor when a record holds
    [undefined], which [batch.set] refuses by throwing.  When the write is
    sent and succeeds, the call resolves and leaves the storage, the
    pending count and the notifications alone.  In every other case it
    calls [queueOperation] once.  If the text under the queue key is that
    of an array, or is missing or unreadable, the call then resolves, adds
    one to the pending count and raises one "queued" notification; the
    operation, with that collection name and those records, is appended to
    the queue (the oldest entry of a full queue dropped first) if the
    browser accepts the write of the queue, and nothing at all is stored if
    it refuses.  If the text is that of another JSON value,
    [queueOperation] throws and the call rejects: nothing is stored, counted
    or notified. *)
Theorem saveData_never_rejects (c : Connection) (uuid : string) (now : Z)
    (commit : Settled) (collectionName : string) (records : list Value)
    (st : SyncState_ Untyped.Storage) :
  let result :=
    Untyped.saveData quota c uuid now commit collectionName records st in
  let st' := result.1 in
  let entry :=
    {| id := uuid; type := save; collection := Some collectionName;
       data := JSON_array records; timestamp := now; retryCount := 0 |} in
  let queued :=
    connected c = None \/ forallb defined records = false
    \/ exists e, commit = Rejected e in
  (remoteCalls st' = remoteCalls st
   \/ exists uid,
        remoteCalls st'
        = remoteCalls st
          ++ [BatchCommit uid [(collectionName, JSON_array records)]])
  /\ (connected c = None \/ forallb defined records = false ->
      remoteCalls st' = remoteCalls st)
  /\ (~ queued ->
      result.2 = Resolved
      /\ localStorage st' = localStorage st /\ toasts st' = toasts st
      /\ pendingOperations st' = pendingOperations st)
  /\ (forall queue,
        Untyped.getQueuedOperations (localStorage st)
        = Untyped.Operations queue ->
        queued ->
        let kept :=
          if bool_decide (appConfig.maxQueueSize <= length queue)%nat
          then tail queue else queue in
        result.2 = Resolved
        /\ (exists t, toasts st' = toasts st ++ [t]
                      /\ (t = OfflineChangesQueued \/ t = SaveFailedQueued))
        /\ pendingOperations st' = pendingOperations st + 1
        /\ (Untyped.fits quota (kept ++ [entry]) (localStorage st) ->
            Untyped.getQueuedOperations (localStorage st')
            = Untyped.Operations (kept ++ [entry]))
        /\ (~ Untyped.fits quota (kept ++ [entry]) (localStorage st) ->
            localStorage st' = localStorage st))
  /\ (forall v,
        Untyped.getQueuedOperations (localStorage st) = Untyped.Other v ->
        queued ->
        result.2 = Rejected TypeError
        /\ localStorage st' = localStorage st /\ toasts st' = toasts st
        /\ pendingOperations st' = pendingOperations st).
Proof.
  intros result st' entry queued. subst result st' queued.
  set (op := mkInput save (Some collectionName) (JSON_array records)).
  unfold Untyped.saveData. fold op.
  unfold saveDataInternal_begin, saveDataInternal_end.
  rewrite firestoreValue_array.
  destruct (connected c) as [uid|] eqn:Hc.
  - destruct (forallb defined records) eqn:Hdef; [destruct commit as [|e]|].
    + (* sent, and written *)
      cbn. split; [right; by exists uid|]. split; [by intros [?|?]|].
      split; [done|]. split.
      * intros queue _ [?|[?|[e ?]]]; done.
      * intros v _ [?|[?|[e ?]]]; done.
    + (* sent, and failed *)
      pose proof (untyped_enqueue uuid now op
                    (request (BatchCommit uid
                                [(collectionName, JSON_array records)])
                             (setStatus syncing st))) as Henq.
      cbn [localStorage request setStatus] in Henq. cbn -[Untyped.enqueue].
      destruct (Untyped.getQueuedOperations (localStorage st))
        as [queue|v].
      * destruct Henq as (s & -> & Hfit & Hno). cbn.
        split; [right; by exists uid|]. split; [by intros [?|?]|].
        split; [intros Hnot; exfalso; apply Hnot; eauto|]. split.
        -- intros queue' [= <-] _. cbv zeta.
           split; [done|]. split; [eauto|]. split; [done|]. done.
        -- intros v ?. done.
      * rewrite Henq. cbn.
        split; [right; by exists uid|]. split; [by intros [?|?]|].
        split; [intros Hnot; exfalso; apply Hnot; eauto|]. split.
        -- intros queue ?. done.
        -- intros v' _ _. done.
    + (* refused by batch.set *)
      pose proof (untyped_enqueue uuid now op (setStatus syncing st)) as Henq.
      cbn [localStorage setStatus] in Henq. cbn -[Untyped.enqueue].
      destruct (Untyped.getQueuedOperations (localStorage st))
        as [queue|v].
      * destruct Henq as (s & -> & Hfit & Hno). cbn.
        split; [by left|]. split; [done|].
        split; [intros Hnot; exfalso; apply Hnot; eauto|]. split.
        -- intros queue' [= <-] _. cbv zeta.
           split; [done|]. split; [eauto|]. split; [done|]. done.
        -- intros v ?. done.
      * rewrite Henq. cbn.
        split; [by left|]. split; [done|].
        split; [intros Hnot; exfalso; apply Hnot; eauto|]. split.
        -- intros queue ?. done.
        -- intros v' _ _. done.
  - pose proof (untyped_enqueue uuid now op st) as Henq.
    destruct (Untyped.getQueuedOperations (localStorage st)) as [queue|v].
    + destruct Henq as (s & -> & Hfit & Hno). cbn.
      split; [by left|]. split; [done|].
      split; [intros Hnot; exfalso; apply Hnot; eauto|]. split.
      * intros queue' [= <-] _. cbv zeta.
        split; [done|]. split; [eauto|]. split; [done|]. done.
      * intros v ?. done.
    + rewrite Henq. cbn.
      split; [by left|]. split; [done|].
      split; [intros Hnot; exfalso; apply Hnot; eauto|]. split.
      * intros queue ?. done.
      * intros v' _ _. done.
Qed.
End SaveData.

Lemma saveData_never_rejects_witness :
  let st := declaredState (sampleState (mkStorage None ∅)) in
  let st' := (Untyped.saveData (fun _ => true) (mkConn false None) "id-1" 7
                               (Rejected FirebaseError) "products" [VNum 1]
                               st).1 in
  Untyped.getQueuedOperations (localStorage st')
  = Untyped.Operations
      [ {| id := "id-1"; type := save; collection := Some "products";
           data := JArr [JNum 1]; timestamp := 7; retryCount := 0 |} ]
  /\ remoteCalls st' = [].
Proof.
  intros st st'.
  pose proof (saveData_never_rejects (fun _ => true) (mkConn false None)
                "id-1" 7 (Rejected FirebaseError) "products" [VNum 1] st)
    as (_ & Hnone & _ & Hqueued & _).
  destruct (Hqueued [] eq_refl) as (_ & _ & _ & Hentry & _); [by left|].
  split; [apply Hentry; reflexivity | apply Hnone; by left].
Defined.

(** C3 as it is worded fails in two ways.  When the browser refuses the
    write of the queue, the call resolves, tells the user that the change
    was queued and counts it as pending, and no operation is enqueued.  When
    the text under the queue key is that of a JSON value that is not an
    array, [null] say, [queueOperation] throws outside its [try] and the
    call rejects. *)
Lemma saveData_queues_nothing_or_rejects :
  let c := mkConn false None in
  let empty := declaredState (sampleState (mkStorage None ∅)) in
  let refused :=
    Untyped.saveData (fun _ => false) c "id-1" 7 Resolved "products"
                     [VNum 1] empty in
  let null :=
    setStorage (Untyped.mkAny (Some (Valid (Untyped.Other Untyped.ONull))) ∅)
               empty in
  let thrown :=
    Untyped.saveData (fun _ => true) c "id-1" 7 Resolved "products"
                     [VNum 1] null in
  (refused.2 = Resolved
   /\ toasts refused.1 = [OfflineChangesQueued]
   /\ pendingOperations refused.1 = 1
   /\ Untyped.getQueuedOperations (localStorage refused.1)
      = Untyped.Operations [])
  /\ thrown.2 = Rejected TypeError.
Proof. repeat split. Qed.

(** ** The explicit actions *)

(** C2. [sync] does not report its failures to its caller: without a
    connection or a user, when a stored collection does not parse and when
    the batch commit is rejected it raises a notification, sets the status
    to offline and resolves.  The claim asks for a rejected promise there;
    [restore] and [resetAllData] below give one. *)
Theorem sync_resolves_on_failure (c : Connection) (now : Z) (commit : Settled)
    (st : SyncState) :
  (sync c now commit st).2 = Resolved
  /\ (sync (mkConn false None) now commit st).2 = Resolved
  /\ (sync (mkConn true (Some "uid")) now (Rejected FirebaseError) st).2
     = Resolved
  /\ status (sync (mkConn true (Some "uid")) now (Rejected FirebaseError) st).1
     = offline.
Proof.
  split; [|split; [done|split]].
  - unfold sync. destruct (connected c); [|done].
    destruct (collectBatch _ _ _); [|done]. by destruct commit.
  - unfold sync. simpl connected. cbv zeta.
    by destruct (collectBatch _ _ _).
  - unfold sync. simpl connected. cbv zeta.
    by destruct (collectBatch _ _ _).
Qed.

Section Siblings.
Variable quota : LocalStorage -> bool.

(** [restore] rejects without a connection, when the read fails and when
    a local write fails. *)
Lemma restore_rejects_on_failure c now snapshot st :
  (connected c = None ->
   exists e, (restore quota c now snapshot st).2 = Rejected e)
  /\ (forall e, snapshot = Throw e ->
      is_Some (connected c) ->
      (restore quota c now snapshot st).2 = Rejected e)
  /\ (forall docs ls e, snapshot = Normal docs ->
      is_Some (connected c) ->
      restoreDocs quota docs (localStorage st) = (ls, Some e) ->
      (restore quota c now snapshot st).2 = Rejected e).
Proof.
  unfold restore. split; [|split].
  - intros ->. eauto.
  - intros e -> [uid ->]. done.
  - intros docs ls e -> [uid ->] Hdocs. simpl. by rewrite Hdocs.
Qed.

Lemma Promise_all_rejected results e :
  In (Rejected e) results -> exists e', Promise_all results = Rejected e'.
Proof.
  induction results as [|[|e0] results IH]; intros Hin; [done| |].
  - destruct Hin as [?|Hin]; [done|]. simpl. auto.
  - simpl. eauto.
Qed.

(** [resetAllData] rejects without a connection, when the read fails and
    when a deletion fails. *)
Lemma resetAllData_rejects_on_failure c snapshot deleted st :
  (connected c = None ->
   exists e, (resetAllData c snapshot deleted st).2 = Rejected e)
  /\ (forall e, snapshot = Throw e ->
      is_Some (connected c) ->
      (resetAllData c snapshot deleted st).2 = Rejected e)
  /\ (forall docs d e, snapshot = Normal docs ->
      is_Some (connected c) ->
      In d docs -> deleted (doc_id d) = Rejected e ->
      exists e', (resetAllData c snapshot deleted st).2 = Rejected e').
Proof.
  unfold resetAllData. split; [|split].
  - intros ->. eauto.
  - intros e -> [uid ->]. done.
  - intros docs d e -> [uid ->] Hin Hdel. simpl.
    destruct (Promise_all_rejected
                (List.map (fun d => deleted (doc_id d)) docs) e)
      as [e' ->]; [|eauto].
    rewrite <- Hdel. by apply (in_map (fun d => deleted (doc_id d))).
Qed.
End Siblings.

(** ** The properties of [STORAGE_KEYS] *)

Lemma snd_unique {A B} (l : list (A * B)) a1 a2 b :
  NoDup (List.map snd l) -> In (a1, b) l -> In (a2, b) l -> a1 = a2.
Proof.
  induction l as [|[a b'] l IH]; [done|]. simpl. intros Hnd H1 H2.
  apply NoDup_cons in Hnd as [Hfresh Hnd].
  rewrite list_elem_of_In in Hfresh.
  destruct H1 as [H1|H1], H2 as [H2|H2]; simplify_eq.
  - done.
  - exfalso. apply Hfresh. by apply (in_map snd _ (a2, b)).
  - exfalso. apply Hfresh. by apply (in_map snd _ (a1, b)).
  - by apply IH.
Qed.

(** A name has the key that [STORAGE_KEYS] or [Object.prototype] lists for
    it, and no two names have the same key. *)
Lemma STORAGE_KEYS_lookup name storageKey :
  STORAGE_KEYS name = Some storageKey <->
  In (name, storageKey) (STORAGE_KEYS_entries ++ Object_prototype).
Proof.
  assert (Hall : STORAGE_KEYS name
                 = (list_to_map (STORAGE_KEYS_entries ++ Object_prototype)
                    : gmap string string) !! name).
  { unfold STORAGE_KEYS. rewrite list_to_map_app, lookup_union.
    by destruct (_ !! name), (_ !! name). }
  rewrite Hall, <- list_elem_of_In, <- elem_of_list_to_map; [done|].
  apply (bool_decide_unpack _). vm_compute. reflexivity.
Qed.

Lemma STORAGE_KEYS_own name storageKey :
  In (name, storageKey) STORAGE_KEYS_entries ->
  STORAGE_KEYS name = Some storageKey.
Proof. intros Hin. apply STORAGE_KEYS_lookup, in_app_iff. by left. Qed.

Lemma STORAGE_KEYS_injective name1 name2 storageKey :
  STORAGE_KEYS name1 = Some storageKey ->
  STORAGE_KEYS name2 = Some storageKey ->
  name1 = name2.
Proof.
  rewrite !STORAGE_KEYS_lookup. apply snd_unique.
  apply (bool_decide_unpack _). vm_compute. reflexivity.
Qed.


Section Restore.
Variable quota : LocalStorage -> bool.

Lemma restoreDoc_target d ls :
  restoreDoc quota d ls
  = match restoreTarget d with
    | Some (storageKey, items) => setItem quota storageKey (Valid items) ls
    | None => Normal ls
    end.
Proof.
  unfold restoreDoc, restoreTarget.
  destruct (STORAGE_KEYS (doc_id d)); [|done].
  destruct (doc_data d !! "items") as [items|]; [|done].
  by destruct (truthy items).
Qed.

Lemma restoreDoc_lookup d ls ls' key :
  restoreDoc quota d ls = Normal ls' ->
  queueItem ls' = queueItem ls
  /\ dataItems ls' !! key
     = match restoreTarget d with
       | Some (storageKey, items) =>
           if decide (storageKey = key) then Some (Valid items)
           else dataItems ls !! key
       | None => dataItems ls !! key
       end.
Proof.
  rewrite restoreDoc_target.
  destruct (restoreTarget d) as [[storageKey items]|]; [|by intros [= ->]].
  unfold setItem. destruct (quota _); [|done]. intros [= <-]. simpl.
  split; [done|]. by rewrite lookup_insert.
Qed.

(** Whether it ends well or not, the loop leaves alone the queue and every
    key that no document targets. *)
Lemma restoreDocs_frame docs : forall ls ls' failure key,
  restoreDocs quota docs ls = (ls', failure) ->
  (forall d items, In d docs -> restoreTarget d <> Some (key, items)) ->
  queueItem ls' = queueItem ls /\ dataItems ls' !! key = dataItems ls !! key.
Proof.
  induction docs as [|d docs IH]; intros ls ls' failure key Hrun Hnone.
  - by simplify_eq/=.
  - simpl in Hrun. destruct (restoreDoc quota d ls) as [ls1|e] eqn:Hd;
      [|by simplify_eq].
    destruct (restoreDoc_lookup d ls ls1 key Hd) as [Hq1 Hk1].
    destruct (IH ls1 ls' failure key Hrun) as [Hq Hk].
    { intros d' items Hin. apply Hnone. by right. }
    rewrite Hq, Hk, Hq1, Hk1. split; [done|].
    destruct (restoreTarget d) as [[storageKey items]|] eqn:Ht; [|done].
    case_decide as Hkey; [|done]. subst storageKey.
    exfalso. apply (Hnone d items); [by left | done].
Qed.




(** When the loop ends well, a key targeted by exactly one document holds
    that document's items. *)
Lemma restoreDocs_written docs : forall ls ls' d key items,
  restoreDocs quota docs ls = (ls', None) ->
  In d docs ->
  restoreTarget d = Some (key, items) ->
  NoDup (List.map doc_id docs) ->
  dataItems ls' !! key = Some (Valid items).
Proof.
  induction docs as [|d0 docs IH]; intros ls ls' d key items Hrun Hin Ht Hnd;
    [done|].
  simpl in Hrun. destruct (restoreDoc quota d0 ls) as [ls1|e] eqn:Hd;
    [|by simplify_eq].
  apply NoDup_cons in Hnd as [Hfresh Hnd].
  destruct Hin as [->|Hin].
  - destruct (restoreDocs_frame docs ls1 ls' None key Hrun) as [_ ->].
    + intros d' items' Hin' Ht'. apply Hfresh.
      assert (doc_id d' = doc_id d) as <-.
      { unfold restoreTarget in Ht, Ht'.
        destruct (STORAGE_KEYS (doc_id d)) as [k|] eqn:Hk; [|done].
        destruct (STORAGE_KEYS (doc_id d')) as [k'|] eqn:Hk'; [|done].
        destruct (doc_data d !! "items") as [v|]; [|done].
        destruct (doc_data d' !! "items") as [v'|]; [|done].
        destruct (truthy v), (truthy v'); simplify_eq.
        by apply (STORAGE_KEYS_injective _ _ key). }
      apply list_elem_of_In. by apply (in_map doc_id).
    + destruct (restoreDoc_lookup d ls ls1 key Hd) as [_ ->].
      rewrite Ht. by rewrite decide_True.
  - by apply (IH ls1 ls' d key items).
Qed.
End Restore.




(** Nor is every document ignored whose id is none of the four collection
    names: one named [constructor] finds the function that [STORAGE_KEYS]
    inherits under that name, and its items are stored under the text of
    that function. *)
Lemma restore_writes_inherited_name :
  let d := sampleDoc "constructor" (JArr [JNum 1]) in
  let st := sampleState (mkStorage None ∅) in
  let result :=
    restore (fun _ => true) (mkConn true (Some "uid")) 0 (Normal [d]) st in
  ~ In (doc_id d) (List.map fst STORAGE_KEYS_entries)
  /\ result.2 = Resolved
  /\ dataItems (localStorage result.1)
       !! "function Object() { [native code] }"
     = Some (Valid (JArr [JNum 1])).
Proof.
  split; [|split; vm_compute; reflexivity].
  simpl. intros [?|[?|[?|[?|[]]]]]; discriminate.
Qed.

(** ** One drain of the queue *)

Section UniqueIds.
(** Removal and retry count of a queue whose ids are distinct. *)

Lemma ids_apart (before after : list QueuedOperation) op :
  NoDup (List.map id (before ++ op :: after)) ->
  (forall o, In o before -> id o <> id op)
  /\ (forall o, In o after -> id o <> id op).
Proof.
  rewrite map_app. simpl. intros Hnd.
  apply NoDup_app in Hnd as (_ & Hcross & Hnd).
  apply NoDup_cons in Hnd as [Hfresh _]. split.
  - intros o Hin Heq. apply (Hcross (id o)).
    + apply list_elem_of_In. by apply in_map.
    + rewrite Heq. by left.
  - intros o Hin Heq. apply Hfresh. rewrite <- Heq.
    apply list_elem_of_In. by apply in_map.
Qed.

Lemma map_id_absent (i : string) (operations : list QueuedOperation) :
  (forall op, In op operations -> id op <> i) ->
  List.map (fun op => if String.eqb (id op) i then retried op else op)
           operations
  = operations.
Proof.
  induction operations as [|op operations IH]; intros Habs; [done|].
  simpl. destruct (String.eqb_spec (id op) i) as [Heq|Hne].
  - exfalso. apply (Habs op); [by left | done].
  - f_equal. apply IH. intros op' Hin. apply Habs. by right.
Qed.

Lemma filter_unique (before after : list QueuedOperation) op :
  NoDup (List.map id (before ++ op :: after)) ->
  List.filter (fun o => negb (String.eqb (id o) (id op)))
              (before ++ op :: after)
  = before ++ after.
Proof.
  intros Hnd. destruct (ids_apart _ _ _ Hnd) as [Hb Ha].
  rewrite List.filter_app. simpl. rewrite String.eqb_refl. simpl.
  by rewrite !filter_id_absent.
Qed.

Lemma map_unique (before after : list QueuedOperation) op :
  NoDup (List.map id (before ++ op :: after)) ->
  List.map (fun o => if String.eqb (id o) (id op) then retried o else o)
           (before ++ op :: after)
  = before ++ retried op :: after.
Proof.
  intros Hnd. destruct (ids_apart _ _ _ Hnd) as [Hb Ha].
  rewrite map_app. simpl. rewrite String.eqb_refl.
  by rewrite !map_id_absent.
Qed.

Lemma fate_ids commit op :
  List.map id (fate commit op) `sublist_of` [id op].
Proof.
  unfold fate. destruct (_ <? _); [|by apply sublist_nil_l].
  destruct (replayTarget op); [destruct commit|]; simpl;
    by repeat constructor.
Qed.

Lemma fate_keeps_ids_distinct (before after : list QueuedOperation) op commit :
  NoDup (List.map id (before ++ op :: after)) ->
  NoDup (List.map id ((before ++ fate commit op) ++ after)).
Proof.
  intros Hnd. eapply sublist_NoDup; [exact Hnd|].
  rewrite <- app_assoc, !map_app. apply sublist_app; [done|].
  change (List.map id (op :: after)) with ([id op] ++ List.map id after).
  apply sublist_app; [apply fate_ids | done].
Qed.
End UniqueIds.

Section Drain.
Variable quota : LocalStorage -> bool.
Variable c : Connection.
Variable uid : string.
Hypothesis signed_in : connected c = Some uid.

(** The writes a drain sends do not depend on what the browser stores. *)
Lemma iteration_requests now commit op n st :
  let st' := (iteration quota c now commit op n st).1 in
  remoteCalls st'
  = remoteCalls st ++ (if replayed op then [replayRequest uid op] else [])
  /\ toasts st' = toasts st
  /\ isProcessingQueue st' = isProcessingQueue st.
Proof.
  unfold iteration, iteration_begin, iteration_end, saveDataInternal_begin,
    saveDataInternal_end, replayed, replayRequest.
  rewrite ?firestoreValue_ofJson.
  rewrite signed_in.
  destruct (shouldRetry op); simpl; [|by rewrite app_nil_r].
  destruct (replayTarget op) as [name|]; simpl; [|by rewrite app_nil_r].
  by destruct commit.
Qed.

Lemma drainEpilogue_requests n st :
  remoteCalls (drainEpilogue n st) = remoteCalls st.
Proof. unfold drainEpilogue. by destruct (0 <? n). Qed.

Lemma drainAll_requests remote clock operations : forall i n st,
  remoteCalls (drainAll quota c remote clock i operations n st)
  = remoteCalls st
    ++ List.map (replayRequest uid) (List.filter replayed operations).
Proof.
  induction operations as [|op operations IH]; intros i n st; simpl.
  - by rewrite drainEpilogue_requests, app_nil_r.
  - destruct (iteration quota c (clock i) (remote i) op n st) as [st1 n1]
      eqn:Hit.
    rewrite IH.
    pose proof (iteration_requests (clock i) (remote i) op n st) as (Hr & _).
    rewrite Hit in Hr. simpl in Hr. rewrite Hr.
    destruct (replayed op); simpl; by rewrite <- app_assoc.
Qed.

Hypothesis never_refused : forall ls, quota ls = true.

Lemma dequeue_queue i st :
  getQueuedOperations (localStorage (dequeue quota i st))
  = List.filter (fun op => negb (String.eqb (id op) i))
                (getQueuedOperations (localStorage st)).
Proof. apply persistQueue_fits, never_refused. Qed.

Lemma bumpRetry_queue i st :
  getQueuedOperations (localStorage (bumpRetry quota i st))
  = List.map (fun op => if String.eqb (id op) i then retried op else op)
             (getQueuedOperations (localStorage st)).
Proof. apply persistQueue_fits, never_refused. Qed.

(** One iteration on a queue of distinct ids does to the visited operation
    what [fate] says, and to it alone. *)
Lemma iteration_queue remote clock i op n st before after :
  getQueuedOperations (localStorage st) = before ++ op :: after ->
  NoDup (List.map id (before ++ op :: after)) ->
  let result := iteration quota c (clock i) (remote i) op n st in
  getQueuedOperations (localStorage result.1)
  = (before ++ fate (remote i) op) ++ after
  /\ result.2 = n + (if succeeded remote i op then 1 else 0).
Proof.
  intros Hq Hnd.
  unfold iteration, iteration_begin, iteration_end, saveDataInternal_begin,
    saveDataInternal_end, fate, succeeded, replayed, shouldRetry.
  rewrite ?firestoreValue_ofJson.
  rewrite signed_in.
  destruct (retryCount op <? appConfig.maxRetries); cbn -[dequeue bumpRetry].
  - destruct (replayTarget op) as [name|]; cbn -[dequeue bumpRetry].
    + rewrite ?bool_decide_eq_true_2 by eauto.
      destruct (remote i) as [|e]; cbn -[dequeue bumpRetry].
      * rewrite dequeue_queue. cbn. rewrite Hq, filter_unique by done.
        by rewrite app_nil_r.
      * rewrite bumpRetry_queue. cbn. rewrite Hq, map_unique by done.
        rewrite <- app_assoc. split; [done | lia].
    + rewrite Hq, <- app_assoc. split; [done | lia].
  - rewrite dequeue_queue, Hq, filter_unique by done.
    rewrite app_nil_r. split; [done | lia].
Qed.

Lemma drainAll_queue remote clock operations : forall i n st before,
  getQueuedOperations (localStorage st) = before ++ operations ->
  NoDup (List.map id (before ++ operations)) ->
  let st' := drainAll quota c remote clock i operations n st in
  let won := n + successes remote i operations in
  getQueuedOperations (localStorage st')
  = before ++ afterDrain remote i operations
  /\ toasts st' = toasts st ++ (if 0 <? won then [QueueSynced won] else [])
  /\ isProcessingQueue st' = false
  /\ pendingOperations st'
     = Z.of_nat (length (before ++ afterDrain remote i operations)).
Proof.
  induction operations as [|op operations IH]; intros i n st before Hq Hnd.
  - simpl. unfold drainEpilogue. rewrite Hq, Z.add_0_r.
    destruct (0 <? n); simpl; rewrite ?Hq, ?app_nil_r; done.
  - simpl drainAll.
    destruct (iteration quota c (clock i) (remote i) op n st) as [st1 n1]
      eqn:Hit.
    pose proof (iteration_queue remote clock i op n st before operations
                  Hq Hnd) as [Hq1 Hn1].
    pose proof (iteration_requests (clock i) (remote i) op n st)
      as (_ & Ht1 & _).
    rewrite Hit in Hq1, Hn1, Ht1. simpl in Hq1, Hn1, Ht1.
    destruct (IH (S i) n1 st1 (before ++ fate (remote i) op) Hq1)
      as (Hqueue & Htoasts & Hflag & Hpending).
    { by apply fate_keeps_ids_distinct. }
    simpl afterDrain. simpl successes. cbv zeta in *.
    rewrite Hqueue, Htoasts, Hflag, Hpending, Ht1, Hn1.
    rewrite <- !app_assoc, Z.add_assoc. done.
Qed.
End Drain.

Section AfterDrain.
Variable remote : nat -> Settled.

Lemma fate_id commit op o : In o (fate commit op) -> id o = id op.
Proof.
  unfold fate. destruct (_ <? _); [|done].
  destruct (replayTarget op); [destruct commit|]; simpl;
    intros Hin; try (destruct Hin as [<-|Hin]); done.
Qed.

Lemma afterDrain_ids operations : forall i o,
  In o (afterDrain remote i operations) ->
  In (id o) (List.map id operations).
Proof.
  induction operations as [|op operations IH]; intros i o; simpl; [done|].
  rewrite in_app_iff. intros [Hin|Hin].
  - left. symmetry. by apply (fate_id (remote i)).
  - right. by apply (IH (S i)).
Qed.

(** In a queue of distinct ids, what the drained queue holds under the id of
    the operation at index [k] is what [fate] leaves of that operation. *)
Lemma afterDrain_at operations : forall i k op o,
  NoDup (List.map id operations) ->
  operations !! k = Some op ->
  (In o (afterDrain remote i operations) /\ id o = id op)
  <-> In o (fate (remote (i + k)%nat) op).
Proof.
  induction operations as [|op0 operations IH]; intros i k op o Hnd Hk;
    [done|].
  simpl in Hnd. apply NoDup_cons in Hnd as [Hfresh Hnd].
  simpl. rewrite in_app_iff. destruct k as [|k]; simpl in Hk.
  - injection Hk as ->. rewrite Nat.add_0_r. split.
    + intros [[Hin|Hin] Hid]; [done|]. exfalso. apply Hfresh.
      rewrite <- Hid. apply list_elem_of_In. by apply (afterDrain_ids _ (S i)).
    + intros Hin. split; [by left | by apply (fate_id (remote i))].
  - replace (i + S k)%nat with (S i + k)%nat by lia.
    rewrite <- (IH (S i) k op o Hnd Hk). split.
    + intros [[Hin|Hin] Hid]; [|done]. exfalso. apply Hfresh.
      apply fate_id in Hin. rewrite <- Hin, Hid.
      apply list_elem_of_In, (in_map id). apply list_elem_of_In.
      by apply list_elem_of_lookup_2 with k.
    + intros [Hin Hid]. split; [by right | done].
Qed.
Lemma afterDrain_ids_sublist operations : forall i,
  List.map id (afterDrain remote i operations)
  `sublist_of` List.map id operations.
Proof.
  induction operations as [|op operations IH]; intros i; simpl; [done|].
  rewrite map_app.
  change (id op :: List.map id operations)
    with ([id op] ++ List.map id operations).
  apply sublist_app; [apply fate_ids | apply IH].
Qed.

End AfterDrain.

Section Replayed.
(** What decides the fate of an operation, in terms of its fields. *)

Lemma replayTarget_Some op name :
  replayTarget op = Some name
  <-> type op = save /\ collection op = Some name /\ name <> "".
Proof.
  unfold replayTarget. destruct (type op), (collection op) as [n|];
    try (split; [done | by intros (? & ? & ?)]).
  destruct (String.eqb_spec n "") as [->|Hne].
  - split; [done|]. intros (_ & [= <-] & ?). done.
  - split; [by intros [= <-] | by intros (_ & [= <-] & _)].
Qed.

Lemma replayTarget_None op :
  replayTarget op = None
  <-> type op <> save \/ collection op = None \/ collection op = Some "".
Proof.
  unfold replayTarget. destruct (type op), (collection op) as [n|].
  - destruct (String.eqb_spec n "") as [->|Hne].
    + split; auto.
    + split; [done|]. intros [?|[?|[= ?]]]; done.
  - split; auto.
  - split; [left; done | done].
  - split; [left; done | done].
Qed.

Lemma replayed_fields op :
  replayed op
  = match type op, collection op with
    | save, Some name =>
        negb (String.eqb name "") && (retryCount op <? appConfig.maxRetries)
    | _, _ => false
    end.
Proof.
  unfold replayed, shouldRetry, replayTarget.
  destruct (type op), (collection op) as [n|]; rewrite ?andb_false_r; try done.
  destruct (String.eqb n ""); simpl; rewrite ?andb_false_r, ?andb_true_r; done.
Qed.

Lemma replayRequest_fields uid op name :
  collection op = Some name -> replayed op = true ->
  replayRequest uid op = BatchCommit uid [(name, data op)].
Proof.
  intros Hname Hrep. unfold replayRequest, replayed in *.
  apply andb_true_iff in Hrep as [_ Htarget].
  apply bool_decide_eq_true in Htarget as [n Htarget]. rewrite Htarget.
  apply replayTarget_Some in Htarget as (_ & Hn & _). by simplify_eq.
Qed.

Lemma successes_count remote operations : forall i,
  successes remote i operations
  = Z.of_nat
      (length
         (List.filter
            (fun visit : nat * QueuedOperation =>
               replayed visit.2
               && match remote visit.1 with
                  | Resolved => true
                  | Rejected _ => false
                  end)
            (combine (seq i (length operations)) operations))).
Proof.
  induction operations as [|op operations IH]; intros i; [done|].
  cbn [successes length seq combine List.filter fst snd]. rewrite IH.
  unfold succeeded. destruct (_ && _); cbn [length]; lia.
Qed.
End Replayed.

(** C4. One drain, with nothing else running and every write to the browser
    accepted, on a queue of distinct ids.  The operations are visited in
    queue order: the replay writes are sent in that order, one, with its
    collection and its data, for each operation of type [save] with a
    collection whose retry count is below [maxRetries], and none for any
    other; and what is left of the queue is in the old order.  An operation
    whose retry count has reached [maxRetries] is removed without a write.
    An operation whose write succeeds is removed, and the successes are
    counted and reported in one notification.  An operation whose write
    fails stays in the queue with its retry count one higher and nothing
    else changed.  (The count is a JavaScript number: below -2^53, which no
    count written by the application is, adding one would not move it.) *)
Theorem processQueue_drains_in_fifo_order (quota : LocalStorage -> bool)
    (c : Connection) (uid : string) (remote : nat -> Settled)
    (clock : nat -> Z) (st : SyncState) :
  connected c = Some uid ->
  isProcessingQueue st = false ->
  (forall ls, quota ls = true) ->
  NoDup (List.map id (getQueuedOperations (localStorage st))) ->
  let operations := getQueuedOperations (localStorage st) in
  let st' := processQueue_run quota c remote clock st in
  let queue' := getQueuedOperations (localStorage st') in
  let replayable := fun op : QueuedOperation =>
    match type op, collection op with
    | save, Some name =>
        negb (String.eqb name "") && (retryCount op <? appConfig.maxRetries)
    | _, _ => false
    end in
  let writeOf := fun op : QueuedOperation =>
    match collection op with
    | Some name =>
        if replayable op then [BatchCommit uid [(name, data op)]] else []
    | None => []
    end in
  let won :=
    Z.of_nat
      (length
         (List.filter
            (fun visit : nat * QueuedOperation =>
               replayable visit.2
               && match remote visit.1 with
                  | Resolved => true
                  | Rejected _ => false
                  end)
            (combine (seq 0 (length operations)) operations))) in
  remoteCalls st' = remoteCalls st ++ flat_map writeOf operations
  /\ List.map id queue' `sublist_of` List.map id operations
  /\ toasts st' = toasts st ++ (if 0 <? won then [QueueSynced won] else [])
  /\ forall i op, operations !! i = Some op ->
       (appConfig.maxRetries <= retryCount op ->
          writeOf op = [] /\ forall o, In o queue' -> id o <> id op)
       /\ (forall name,
             type op = save -> collection op = Some name -> name <> "" ->
             retryCount op < appConfig.maxRetries ->
             writeOf op = [BatchCommit uid [(name, data op)]]
             /\ (remote i = Resolved ->
                 forall o, In o queue' -> id o <> id op)
             /\ (forall e, remote i = Rejected e ->
                 - 9007199254740992 <= retryCount op ->
                 let again :=
                   {| id := id op; type := type op;
                      collection := collection op; data := data op;
                      timestamp := timestamp op;
                      retryCount := retryCount op + 1 |} in
                 In again queue'
                 /\ forall o, In o queue' -> id o = id op -> o = again)).
Proof.
  intros Hc Hidle Hquota Hnd operations st' queue' replayable writeOf won.
  assert (Hreplayable : forall op, replayable op = replayed op).
  { intros op. subst replayable. cbv beta. by rewrite replayed_fields. }
  assert (Hwon : won = successes remote 0 operations).
  { subst won. rewrite successes_count. do 2 f_equal.
    apply filter_ext. intros [i op]. cbn [fst snd].
    by rewrite Hreplayable. }
  assert (Hwrites : forall l, flat_map writeOf l
                               = List.map (replayRequest uid)
                                          (List.filter replayed l)).
  { induction l as [|op l IH]; [done|].
    cbn [flat_map List.filter]. rewrite IH. clear IH.
    assert (Hop : writeOf op
                  = if replayed op then [replayRequest uid op] else []).
    { unfold writeOf. rewrite Hreplayable.
      destruct (replayed op) eqn:Hrep.
      - destruct (collection op) as [name|] eqn:Hname.
        + by rewrite (replayRequest_fields uid op name Hname Hrep).
        + rewrite replayed_fields, Hname in Hrep. by destruct (type op).
      - by destruct (collection op). }
    rewrite Hop. by destruct (replayed op). }
  assert (Hrun : st' = if bool_decide (length operations = 0%nat) then st
                       else drainAll quota c remote clock 0 operations 0
                                     (setProcessing true st)).
  { subst st'. unfold processQueue_run. by rewrite Hc, Hidle. }
  assert (Hqueue : queue' = afterDrain remote 0 operations
                   /\ toasts st'
                      = toasts st ++ (if 0 <? won then [QueueSynced won]
                                      else [])
                   /\ remoteCalls st'
                      = remoteCalls st
                        ++ List.map (replayRequest uid)
                                    (List.filter replayed operations)).
  { subst queue'. rewrite Hrun, Hwon. case_bool_decide as Hempty.
    - apply length_zero_iff_nil in Hempty. fold operations.
      rewrite Hempty. simpl. by rewrite !app_nil_r.
    - rewrite (drainAll_requests quota c uid Hc).
      destruct (drainAll_queue quota c uid Hc Hquota remote clock operations
                  0%nat 0 (setProcessing true st) []) as (Hq & Ht & _);
        [done | done |].
      split; [exact Hq|]. split; [|done]. rewrite Ht. by rewrite Z.add_0_l. }
  destruct Hqueue as (Hqueue & Htoasts & Hcalls).
  split; [by rewrite Hwrites|].
  split; [rewrite Hqueue; apply afterDrain_ids_sublist|].
  split; [done|].
  intros i op Hop.
  pose proof (fun o => afterDrain_at remote operations 0 i op o Hnd Hop)
    as Hat. simpl in Hat. rewrite <- Hqueue in Hat.
  unfold fate in Hat.
  split.
  - intros Hspent. rewrite (proj2 (Z.ltb_ge _ _) Hspent) in Hat.
    split.
    + unfold writeOf. rewrite Hreplayable.
      unfold replayed, shouldRetry.
      rewrite (proj2 (Z.ltb_ge _ _) Hspent). by destruct (collection op).
    + intros o Hin Hid. by apply (Hat o).
  - intros name Htype Hname Hnonempty Hbudget.
    assert (Htarget : replayTarget op = Some name)
      by by apply replayTarget_Some.
    rewrite (proj2 (Z.ltb_lt _ _) Hbudget), Htarget in Hat.
    split; [|split].
    + unfold writeOf. rewrite Hname, Hreplayable.
      unfold replayed, shouldRetry.
      rewrite (proj2 (Z.ltb_lt _ _) Hbudget), Htarget.
      by rewrite bool_decide_eq_true_2 by eauto.
    + intros Hok o Hin Hid. rewrite Hok in Hat. by apply (Hat o).
    + intros e Hfail Hlow again. rewrite Hfail in Hat.
      assert (Hagain : retried op = again).
      { subst again. unfold retried. f_equal. apply plusOne_exact.
        unfold appConfig.maxRetries in Hbudget. lia. }
      rewrite Hagain in Hat. split.
      * apply (Hat again). by left.
      * intros o Hin Hid. destruct (proj1 (Hat o)) as [<-|[]]; done.
Qed.

Lemma processQueue_drains_in_fifo_order_witness :
  let st :=
    sampleState (mkStorage (Some (Valid [sampleOp "a" 3; sampleOp "b" 0;
                                         sampleOp "c" 1; sampleSync "d"]))
                           ∅) in
  let remote := fun i => if Nat.eqb i 2 then Rejected FirebaseError
                         else Resolved in
  let st' := processQueue_run (fun _ => true) (mkConn true (Some "uid"))
                              remote (fun _ => 0) st in
  In (sampleOp "c" 2) (getQueuedOperations (localStorage st'))
  /\ remoteCalls st' = [BatchCommit "uid" [("products", JArr [])];
                        BatchCommit "uid" [("products", JArr [])]]
  /\ toasts st' = [QueueSynced 1].
Proof.
  intros st remote st'.
  destruct (processQueue_drains_in_fifo_order (fun _ => true)
              (mkConn true (Some "uid")) "uid" remote (fun _ => 0) st)
    as (Hcalls & _ & Htoasts & Heach).
  - reflexivity.
  - reflexivity.
  - reflexivity.
  - apply (bool_decide_unpack _). vm_compute. reflexivity.
  - split; [|split].
    + destruct (Heach 2%nat (sampleOp "c" 1) eq_refl) as (_ & Hreplay).
      destruct (Hreplay "products") as (_ & _ & Hfail); try done.
      destruct (Hfail FirebaseError eq_refl) as [Hin _]; [simpl; lia|].
      exact Hin.
    + etransitivity; [exact Hcalls | reflexivity].
    + etransitivity; [exact Htoasts | reflexivity].
Defined.

Section Untouched.
Variable quota : LocalStorage -> bool.
Variable c : Connection.

Lemma persistQueue_keeps operations ls op :
  In op (getQueuedOperations ls) -> In op operations ->
  In op (getQueuedOperations (persistQueue quota operations ls)).
Proof.
  intros Hold Hnew.
  by destruct (persistQueue_queue quota operations ls) as [-> | ->].
Qed.

Lemma dequeue_keeps i st op :
  In op (getQueuedOperations (localStorage st)) -> id op <> i ->
  In op (getQueuedOperations (localStorage (dequeue quota i st))).
Proof.
  intros Hin Hne. apply persistQueue_keeps; [done|].
  apply filter_In. split; [done|].
  by destruct (String.eqb_spec (id op) i).
Qed.

Lemma bumpRetry_keeps i st op :
  In op (getQueuedOperations (localStorage st)) -> id op <> i ->
  In op (getQueuedOperations (localStorage (bumpRetry quota i st))).
Proof.
  intros Hin Hne. apply persistQueue_keeps; [done|].
  apply in_map_iff. exists op. split; [|done].
  by destruct (String.eqb_spec (id op) i).
Qed.

Lemma iteration_keeps now commit visited n st op :
  In op (getQueuedOperations (localStorage st)) ->
  id visited <> id op
  \/ (shouldRetry visited = true /\ replayTarget visited = None) ->
  In op (getQueuedOperations
           (localStorage (iteration quota c now commit visited n st).1)).
Proof.
  intros Hin Hother.
  unfold iteration, iteration_begin, iteration_end, saveDataInternal_begin,
    saveDataInternal_end.
  rewrite ?firestoreValue_ofJson.
  destruct (shouldRetry visited) eqn:Hretry; cbn -[dequeue bumpRetry].
  - destruct (replayTarget visited) as [name|] eqn:Htarget;
      cbn -[dequeue bumpRetry]; [|done].
    destruct Hother as [Hne|[_ ?]]; [|done].
    destruct (connected c); cbn -[dequeue bumpRetry];
      [destruct commit; cbn -[dequeue bumpRetry]|];
      first [by apply dequeue_keeps | by apply bumpRetry_keeps].
  - destruct Hother as [Hne|[? _]]; [|done]. by apply dequeue_keeps.
Qed.

Lemma drainAll_keeps remote clock operations : forall i n st op,
  In op (getQueuedOperations (localStorage st)) ->
  (forall visited, In visited operations -> id visited = id op ->
     shouldRetry visited = true /\ replayTarget visited = None) ->
  In op (getQueuedOperations
           (localStorage (drainAll quota c remote clock i operations n st))).
Proof.
  induction operations as [|visited operations IH]; intros i n st op Hin Hsame.
  - simpl. unfold drainEpilogue. by destruct (0 <? n).
  - simpl.
    destruct (iteration quota c (clock i) (remote i) visited n st)
      as [st1 n1] eqn:Hit.
    apply IH.
    + change st1 with (st1, n1).1. rewrite <- Hit. apply iteration_keeps; [done|].
      destruct (decide (id visited = id op)) as [Heq|Hne]; [right|by left].
      apply Hsame; [by left | done].
    + intros visited' Hin'. apply Hsame. by right.
Qed.

(** C10. A drain leaves alone a queued operation that is not of type
    [save] or has no collection, if its retry count is below [maxRetries]
    and no other queued operation bears its id: the operation is still in
    the queue, as it was, after the drain; it is not among the replayed
    operations; and the writes the drain sends are those of the replayed
    operations, so none is sent for it.  This holds whether or not the
    browser accepts the writes of the queue. *)
Theorem processQueue_leaves_unreplayable (remote : nat -> Settled)
    (clock : nat -> Z) (st : SyncState) (op : QueuedOperation) :
  let operations := getQueuedOperations (localStorage st) in
  let st' := processQueue_run quota c remote clock st in
  In op operations ->
  retryCount op < appConfig.maxRetries ->
  type op <> save \/ collection op = None ->
  (forall o, In o operations -> id o = id op -> o = op) ->
  In op (getQueuedOperations (localStorage st'))
  /\ replayed op = false
  /\ ~ In op (List.filter replayed operations)
  /\ (remoteCalls st' = remoteCalls st
      \/ exists uid,
           remoteCalls st'
           = remoteCalls st
             ++ List.map (replayRequest uid)
                         (List.filter replayed operations)).
Proof.
  intros operations st' Hin Hbudget Hkind Hunique.
  assert (Htarget : replayTarget op = None).
  { unfold replayTarget. destruct Hkind as [Hkind| ->].
    - by destruct (type op).
    - by destruct (type op). }
  assert (Hretry : shouldRetry op = true) by by apply Z.ltb_lt.
  assert (Hnot : replayed op = false).
  { unfold replayed. by rewrite Htarget, andb_false_r. }
  split; [|split; [done|split]].
  - subst st'. unfold processQueue_run.
    destruct (connected c); [|done].
    destruct (isProcessingQueue st); [done|].
    case_bool_decide; [done|].
    apply drainAll_keeps; [done|].
    intros visited Hvisited Hid. by rewrite (Hunique visited Hvisited Hid).
  - intros Hf. apply filter_In in Hf as [_ Hf]. congruence.
  - subst st'. unfold processQueue_run.
    destruct (connected c) as [uid|] eqn:Hc; [|by left].
    destruct (isProcessingQueue st); [by left|].
    case_bool_decide; [by left|]. right. exists uid.
    by rewrite (drainAll_requests quota c uid Hc).
Qed.
End Untouched.

Lemma processQueue_leaves_unreplayable_witness :
  let st :=
    sampleState (mkStorage (Some (Valid [sampleOp "a" 3; sampleOp "b" 0;
                                         sampleOp "c" 1; sampleSync "d"]))
                           ∅) in
  In (sampleSync "d")
     (getQueuedOperations
        (localStorage
           (processQueue_run (fun _ => true) (mkConn true (Some "uid"))
                             (fun _ => Resolved) (fun _ => 0) st))).
Proof.
  intros st.
  apply (processQueue_leaves_unreplayable (fun _ => true)
           (mkConn true (Some "uid")) (fun _ => Resolved) (fun _ => 0) st
           (sampleSync "d")).
  - simpl. auto.
  - reflexivity.
  - left. discriminate.
  - intros o [<-|[<-|[<-|[<-|[]]]]]; simpl; intros Hid.
    all: first [reflexivity | by inversion Hid].
Defined.

(** ** At most one drain at a time *)

Section MutualExclusion.
Variable quota : LocalStorage -> bool.

Lemma iteration_begin_flag c op st :
  isProcessingQueue (iteration_begin quota c op st).1 = isProcessingQueue st.
Proof.
  unfold iteration_begin, saveDataInternal_begin.
  rewrite ?firestoreValue_ofJson.
  destruct (negb (shouldRetry op)); [done|].
  destruct (replayTarget op); [|done]. by destruct (connected c).
Qed.

Lemma iteration_end_flag now commit op n st :
  isProcessingQueue (iteration_end quota now commit op n st).1
  = isProcessingQueue st.
Proof. unfold iteration_end, saveDataInternal_end. by destruct commit. Qed.

Lemma drainLoop_flag c operations : forall i n st,
  isProcessingQueue st = true ->
  flagAfter (drainLoop quota c i operations n st).
Proof.
  induction operations as [|op operations IH]; intros i n st Hbusy.
  - unfold flagAfter. cbn [drainLoop fst snd]. unfold drainEpilogue.
    by destruct (0 <? n).
  - simpl. pose proof (iteration_begin_flag c op st) as Hflag.
    destruct (iteration_begin quota c op st) as [st1 [|]]; simpl in Hflag.
    + unfold flagAfter. simpl. congruence.
    + apply IH. congruence.
Qed.

(** A call made while the ref is set does nothing at all. *)
Lemma processQueue_busy c st :
  isProcessingQueue st = true -> processQueue quota c st = (st, Finished).
Proof.
  intros Hbusy. unfold processQueue. rewrite Hbusy. by destruct (connected c).
Qed.

(** Nor does a call without a connection, without a user, or on an empty
    queue. *)
Lemma processQueue_nothing_to_do c st :
  db c = false \/ user c = None
  \/ getQueuedOperations (localStorage st) = [] ->
  processQueue quota c st = (st, Finished).
Proof.
  unfold processQueue, connected.
  intros [-> | [Huser | Hempty]]; [done| |].
  - rewrite Huser. by destruct (db c).
  - rewrite Hempty. simpl. destruct (if db c then user c else None); [|done].
    by destruct (isProcessingQueue st).
Qed.

Lemma processQueue_flag c st :
  isProcessingQueue st = false -> flagAfter (processQueue quota c st).
Proof.
  intros Hidle. unfold processQueue.
  destruct (connected c); [|done]. rewrite Hidle.
  case_bool_decide; [done|]. by apply drainLoop_flag.
Qed.

Lemma processQueue_resume_flag now commit d st :
  isProcessingQueue st = true ->
  flagAfter (processQueue_resume quota now commit d st).
Proof.
  intros Hbusy. unfold processQueue_resume.
  pose proof (iteration_end_flag now commit (current d) (successCount d) st)
    as Hflag.
  destruct (iteration_end quota now commit (current d) (successCount d) st)
    as [st1 n]. simpl in Hflag. apply drainLoop_flag. congruence.
Qed.

Lemma turn_exclusive s s' : exclusive s -> turn quota s s' -> exclusive s'.
Proof.
  intros Hex Hturn. destruct Hturn as
    [s c st p Hcall | s before d after now commit st p Hin Hres | s st Hflag];
    unfold exclusive in *; simpl.
  - destruct (inflight s) as [|d [|d' ds]]; [| |done].
    + pose proof (processQueue_flag c (shared s) Hex) as Hafter.
      rewrite Hcall in Hafter. by destruct p.
    + rewrite (processQueue_busy c (shared s) Hex) in Hcall.
      by simplify_eq.
  - rewrite Hin in Hex.
    destruct before as [|d0 before]; simpl in Hex.
    + destruct after; [|done].
      pose proof (processQueue_resume_flag now commit d (shared s) Hex)
        as Hafter.
      rewrite Hres in Hafter. by destruct p.
    + by destruct before.
  - destruct (inflight s) as [|d [|d' ds]]; congruence.
Qed.

Lemma reachable_exclusive s : reachable quota s -> exclusive s.
Proof.
  induction 1 as [st Hidle | s s' _ IH Hturn]; [done|].
  by apply (turn_exclusive s).
Qed.

(** C5. At most one drain runs at a time.  In every state the provider can
    reach, whatever the interleaving of calls, settled writes and other
    code, at most one call of [processQueue] is suspended, and while one is
    a new call returns at once with the state as it was: no write is sent
    and the queue is not touched.  So does a call made while the ref is set,
    and a call made without a connection, without a user or on an empty
    queue. *)
Theorem processQueue_mutual_exclusion :
  (forall s, reachable quota s ->
     (length (inflight s) <= 1)%nat
     /\ forall c, inflight s <> [] ->
          processQueue quota c (shared s) = (shared s, Finished))
  /\ (forall c st, isProcessingQueue st = true ->
        processQueue quota c st = (st, Finished))
  /\ (forall c st,
        db c = false \/ user c = None
        \/ getQueuedOperations (localStorage st) = [] ->
        processQueue quota c st = (st, Finished)).
Proof.
  split; [|split].
  - intros s Hreach. apply reachable_exclusive in Hreach.
    unfold exclusive in Hreach.
    destruct (inflight s) as [|d [|d' ds]]; [| |done].
    + split; [simpl; lia | done].
    + split; [simpl; lia|]. intros c _. by apply processQueue_busy.
  - apply processQueue_busy.
  - apply processQueue_nothing_to_do.
Qed.
End MutualExclusion.

Lemma processQueue_mutual_exclusion_witness :
  let st := sampleState (mkStorage (Some (Valid [sampleOp "b" 0])) ∅) in
  let c := mkConn true (Some "uid") in
  let r := processQueue (fun _ => true) c st in
  awaiting r.2 <> []
  /\ processQueue (fun _ => true) c r.1 = (r.1, Finished).
Proof.
  intros st c r.
  destruct (processQueue_mutual_exclusion (fun _ => true)) as (Hreach & _).
  destruct (Hreach (mkSystem r.1 (awaiting r.2))) as [_ Hnoop].
  - apply (reachable_turn _ (mkSystem st [])).
    + by constructor.
    + apply (turn_call _ (mkSystem st []) c r.1 r.2). reflexivity.
  - split; [discriminate|]. apply Hnoop. discriminate.
Defined.

(** ** The drain as a whole and the drain in steps *)

Section Uninterrupted.
Variable quota : LocalStorage -> bool.
Variable c : Connection.
Variable remote : nat -> Settled.
Variable clock : nat -> Z.

Lemma drainLoop_settles operations : forall i n st,
  settles quota remote clock (drainLoop quota c i operations n st)
          (drainAll quota c remote clock i operations n st).
Proof.
  induction operations as [|op operations IH]; intros i n st; simpl.
  - constructor.
  - unfold iteration.
    destruct (iteration_begin quota c op st) as [st1 [|]].
    + apply settles_resume. unfold processQueue_resume. simpl.
      destruct (iteration_end quota (clock i) (remote i) op n st1)
        as [st2 n2].
      apply IH.
    + apply IH.
Qed.

(** Settling each awaited write as soon as the call suspends, the calls
    [processQueue] and [processQueue_resume] end in the state that
    [processQueue_run] computes. *)
Lemma processQueue_run_uninterrupted st :
  settles quota remote clock (processQueue quota c st)
          (processQueue_run quota c remote clock st).
Proof.
  unfold processQueue, processQueue_run.
  destruct (connected c); [|constructor].
  destruct (isProcessingQueue st); [constructor|].
  case_bool_decide; [constructor|]. apply drainLoop_settles.
Qed.
End Uninterrupted.

(** ** Standing assumptions, justified

    The ids of the queue are distinct as long as [crypto.randomUUID()]
    returns ids that are not in the queue, and only [processQueue] assigns
    [isProcessingQueue.current]. *)

Section Standing.
Variable quota : LocalStorage -> bool.

Lemma sublist_ids (l k : list QueuedOperation) :
  l `sublist_of` k -> List.map id l `sublist_of` List.map id k.
Proof. induction 1; simpl; by constructor. Qed.

Lemma queueOperation_ids_distinct uuid now op ls :
  NoDup (List.map id (getQueuedOperations ls)) ->
  ~ In uuid (List.map id (getQueuedOperations ls)) ->
  NoDup (List.map id
           (getQueuedOperations (queueOperation quota uuid now op ls))).
Proof.
  intros Hnd Hfresh. unfold queueOperation.
  match goal with |- context [persistQueue quota ?ops ls] =>
    destruct (persistQueue_queue quota ops ls) as [-> | ->]; [|done]
  end.
  set (kept := if bool_decide _ then _ else _).
  assert (Hsub : kept `sublist_of` getQueuedOperations ls).
  { subst kept. case_bool_decide; [|done]. unfold shift.
    destruct (getQueuedOperations ls); [done|]. by apply sublist_cons. }
  apply sublist_ids in Hsub.
  rewrite map_app. apply NoDup_app. split; [|split].
  - by apply (sublist_NoDup _ _ Hnd).
  - intros i Hin Hnew. apply list_elem_of_In in Hnew.
    simpl in Hnew. destruct Hnew as [<-|[]].
    apply Hfresh, list_elem_of_In. by eapply elem_of_sublist.
  - simpl. apply NoDup_singleton.
Qed.

Lemma removeFromQueue_ids_distinct i ls :
  NoDup (List.map id (getQueuedOperations ls)) ->
  NoDup (List.map id (getQueuedOperations (removeFromQueue quota i ls))).
Proof.
  intros Hnd. apply (sublist_NoDup _ _ Hnd), sublist_ids.
  unfold removeFromQueue.
  match goal with |- context [persistQueue quota ?ops ls] =>
    destruct (persistQueue_queue quota ops ls) as [-> | ->]; [|done]
  end.
  apply filter_sublist.
Qed.

Lemma incrementRetryCount_ids_distinct i ls :
  NoDup (List.map id (getQueuedOperations ls)) ->
  NoDup (List.map id (getQueuedOperations (incrementRetryCount quota i ls))).
Proof.
  intros Hnd. unfold incrementRetryCount.
  match goal with |- context [persistQueue quota ?ops ls] =>
    destruct (persistQueue_queue quota ops ls) as [-> | ->]; [|done]
  end.
  rewrite map_map.
  erewrite map_ext; [exact Hnd|].
  intros o. simpl. by destruct (String.eqb (id o) i).
Qed.

Lemma saveData_keeps_ref c uuid now commit name records st :
  isProcessingQueue (saveData quota c uuid now commit name records st).1
  = isProcessingQueue st.
Proof.
  unfold saveData, saveDataInternal_begin, saveDataInternal_end.
  destruct (connected c); [|done].
  destruct (firestoreValue (VArr records)); [|done]. by destruct commit.
Qed.

Lemma sync_keeps_ref c now commit st :
  isProcessingQueue (sync c now commit st).1 = isProcessingQueue st.
Proof.
  unfold sync. destruct (connected c); [|done]. cbv zeta.
  destruct (collectBatch (localStorage (setStatus syncing st))
                         STORAGE_KEYS_entries []); [|done].
  by destruct commit.
Qed.

Lemma restore_keeps_ref c now snapshot st :
  isProcessingQueue (restore quota c now snapshot st).1
  = isProcessingQueue st.
Proof.
  unfold restore. destruct (connected c); [|done]. simpl.
  destruct snapshot as [docs|e]; [|done].
  by destruct (restoreDocs quota docs (localStorage st)) as [ls [e|]].
Qed.

Lemma requests_keep_ref uid (docs : list DocSnapshot) :
  forall st : SyncState,
  isProcessingQueue
    (fold_left (fun st d => request (DeleteDoc uid (doc_id d)) st) docs st)
  = isProcessingQueue st.
Proof.
  induction docs as [|d docs IH]; intros st; [done|]. simpl. by rewrite IH.
Qed.

Lemma resetAllData_keeps_ref c snapshot deleted st :
  isProcessingQueue (resetAllData c snapshot deleted st).1
  = isProcessingQueue st.
Proof.
  unfold resetAllData. destruct (connected c) as [uid|]; [|done]. simpl.
  destruct snapshot as [docs|e]; [|done].
  destruct (Promise_all _); simpl; by rewrite requests_keep_ref.
Qed.
End Standing.

(** * Further properties of the code *)

(** ** offlineQueue.ts *)

Section RetryCount.
Variable quota : LocalStorage -> bool.

Lemma Forall2_same {A} (R : A -> A -> Prop) (l : list A) :
  (forall x, R x x) -> Forall2 R l l.
Proof. intros Hrefl. induction l; by constructor. Qed.

Lemma Forall2_map_r {A} (R : A -> A -> Prop) (f : A -> A) (l : list A) :
  (forall x, R x (f x)) -> Forall2 R l (List.map f l).
Proof. intros Hf. induction l; simpl; by constructor. Qed.

(** X1. [incrementRetryCount] changes nothing but retry counts, and those
    of the entries of the given id only: entry by entry, in the same order,
    the listed queue afterwards has the ids, types, collections, data and
    timestamps of the old one, and an entry of another id is as it was.
    When the browser accepts the write, every entry of that id has its
    count one higher, as long as the count is within 2^53 of zero; a count
    of 2^53 stays 2^53, since the sum is a JavaScript number.  An id that is
    not queued leaves the listed queue as it was. *)
Theorem incrementRetryCount_only_counts (i : string) (ls : LocalStorage) :
  let old := getQueuedOperations ls in
  let new := getQueuedOperations (incrementRetryCount quota i ls) in
  let same := fun o n : QueuedOperation =>
    id n = id o /\ type n = type o /\ collection n = collection o
    /\ data n = data o /\ timestamp n = timestamp o in
  let bump := fun op : QueuedOperation =>
    if String.eqb (id op) i
    then {| id := id op; type := type op; collection := collection op;
            data := data op; timestamp := timestamp op;
            retryCount := plusOne (retryCount op) |}
    else op in
  Forall2 (fun o n => same o n /\ (id o <> i -> n = o)) old new
  /\ (fits quota (List.map bump old) ls ->
      Forall2 (fun o n =>
                 id o = i ->
                 (- 9007199254740993 <= retryCount o <= 9007199254740991 ->
                  retryCount n = retryCount o + 1)
                 /\ (retryCount o = 9007199254740992 ->
                     retryCount n = 9007199254740992))
              old new)
  /\ ((forall op, In op old -> id op <> i) -> new = old).
Proof.
  intros old new same bump.
  assert (Hcases : new = List.map bump old \/ new = old)
    by apply persistQueue_queue.
  split; [|split].
  - destruct Hcases as [-> | ->].
    + apply Forall2_map_r. intros op. unfold bump, same.
      destruct (String.eqb_spec (id op) i); simpl; split; done.
    + apply Forall2_same. intros op. unfold same. done.
  - intros Hfit.
    assert (Hnew : new = List.map bump old) by by apply persistQueue_fits.
    rewrite Hnew. apply Forall2_map_r. intros op Hid. unfold bump.
    rewrite (proj2 (String.eqb_eq _ _) Hid). simpl. split.
    + apply plusOne_exact.
    + intros ->. apply plusOne_stuck.
  - intros Habs. destruct Hcases as [-> | ->]; [|done].
    by apply map_id_absent.
Qed.
End RetryCount.

Lemma incrementRetryCount_only_counts_witness :
  let ls := mkStorage (Some (Valid [sampleOp "a" 0; sampleOp "b" 1])) ∅ in
  Forall2 (fun o n : QueuedOperation =>
             id o = "b" ->
             (- 9007199254740993 <= retryCount o <= 9007199254740991 ->
              retryCount n = retryCount o + 1)
             /\ (retryCount o = 9007199254740992 ->
                 retryCount n = 9007199254740992))
          (getQueuedOperations ls)
          (getQueuedOperations (incrementRetryCount (fun _ => true) "b" ls))
  /\ getQueuedOperations (incrementRetryCount (fun _ => true) "z" ls)
     = [sampleOp "a" 0; sampleOp "b" 1].
Proof.
  intros ls.
  pose proof (incrementRetryCount_only_counts (fun _ => true) "b" ls)
    as (_ & Hbump & _).
  pose proof (incrementRetryCount_only_counts (fun _ => true) "z" ls)
    as (_ & _ & Habs).
  split.
  - apply Hbump. reflexivity.
  - apply Habs. intros op [<-|[<-|[]]]; discriminate.
Defined.

Section RoundTrip.
Variable quota : LocalStorage -> bool.
Hypothesis never_refused : forall ls, quota ls = true.

Lemma persistQueue_written operations ls :
  persistQueue quota operations ls
  = mkStorage (Some (Valid operations)) (dataItems ls).
Proof.
  destruct (persistQueue_cases quota operations ls) as [[_ ->]|[Hno _]];
    [done|]. exfalso. apply Hno, never_refused.
Qed.

(** X2. Enqueueing an operation under an id that is not queued and removing
    that id again gives back the listed queue, the writes being accepted:
    unchanged when the queue was below [maxQueueSize], without its oldest
    entry when it was full. *)
Theorem queueOperation_then_removeFromQueue uuid now op ls :
  let old := getQueuedOperations ls in
  ~ In uuid (List.map id old) ->
  getQueuedOperations
    (removeFromQueue quota uuid (queueOperation quota uuid now op ls))
  = if bool_decide (appConfig.maxQueueSize <= length old)%nat
    then tail old else old.
Proof.
  intros old Hfresh. unfold removeFromQueue.
  rewrite persistQueue_fits by apply never_refused.
  rewrite queueOperation_queue by apply never_refused.
  fold old. set (kept := if bool_decide _ then _ else _).
  rewrite List.filter_app. simpl. rewrite String.eqb_refl. simpl.
  rewrite app_nil_r. apply filter_id_absent.
  intros o Hin Hid. apply Hfresh. rewrite <- Hid. apply in_map.
  subst kept. case_bool_decide; [|done].
  destruct old; [done|]. by right.
Qed.

(** X3. A stored queue that cannot be read is overwritten by the first
    function that writes the queue: with nothing, with the empty string or
    with text that [JSON.parse] rejects under the queue key,
    [queueOperation] stores a queue of the new entry alone, and
    [removeFromQueue] and [incrementRetryCount] store the empty queue; the
    other entries of the storage stay as they are. *)
Theorem unreadable_queue_is_overwritten uuid now op i ls :
  queueItem ls = None \/ queueItem ls = Some Blank
  \/ queueItem ls = Some Corrupt ->
  queueOperation quota uuid now op ls
  = mkStorage (Some (Valid [newEntry uuid now op])) (dataItems ls)
  /\ removeFromQueue quota i ls = mkStorage (Some (Valid [])) (dataItems ls)
  /\ incrementRetryCount quota i ls
     = mkStorage (Some (Valid [])) (dataItems ls).
Proof.
  intros Hunreadable.
  assert (Hempty : getQueuedOperations ls = []).
  { unfold getQueuedOperations, readQueue.
    by destruct Hunreadable as [-> | [-> | ->]]. }
  unfold queueOperation, removeFromQueue, incrementRetryCount.
  rewrite Hempty. simpl. by rewrite !persistQueue_written.
Qed.
End RoundTrip.

Lemma queueOperation_then_removeFromQueue_witness :
  let ls := mkStorage (Some (Valid [sampleOp "a" 0; sampleOp "b" 1])) ∅ in
  getQueuedOperations
    (removeFromQueue (fun _ => true) "c"
       (queueOperation (fun _ => true) "c" 5
          (mkInput save (Some "customers") (JArr [])) ls))
  = [sampleOp "a" 0; sampleOp "b" 1].
Proof.
  intros ls.
  apply (queueOperation_then_removeFromQueue (fun _ => true)
           (fun _ => eq_refl) "c" 5 (mkInput save (Some "customers") (JArr []))
           ls).
  intros [H|[H|[]]]; discriminate H.
Defined.

Lemma unreadable_queue_is_overwritten_witness :
  queueItem (removeFromQueue (fun _ => true) "a" (mkStorage (Some Corrupt) ∅))
  = Some (Valid []).
Proof.
  destruct (unreadable_queue_is_overwritten (fun _ => true)
              (fun _ => eq_refl) "u" 0 (mkInput save None JNull) "a"
              (mkStorage (Some Corrupt) ∅)) as (_ & Hremove & _).
  - right. right. reflexivity.
  - rewrite Hremove. reflexivity.
Defined.

Section Budget.
Variable quota : LocalStorage -> bool.
Variable c : Connection.
Variable uid : string.
Hypothesis signed_in : connected c = Some uid.
Hypothesis never_refused : forall ls, quota ls = true.

(** One uninterrupted drain of a queue of distinct ids, all told. *)
Lemma processQueue_run_effect remote clock st :
  isProcessingQueue st = false ->
  NoDup (List.map id (getQueuedOperations (localStorage st))) ->
  let operations := getQueuedOperations (localStorage st) in
  let st' := processQueue_run quota c remote clock st in
  getQueuedOperations (localStorage st') = afterDrain remote 0 operations
  /\ remoteCalls st'
     = remoteCalls st
       ++ List.map (replayRequest uid) (List.filter replayed operations)
  /\ isProcessingQueue st' = false
  /\ NoDup (List.map id (getQueuedOperations (localStorage st'))).
Proof.
  intros Hidle Hnd operations st'.
  assert (Hq : getQueuedOperations (localStorage st')
               = afterDrain remote 0 operations
               /\ remoteCalls st'
                  = remoteCalls st
                    ++ List.map (replayRequest uid)
                                (List.filter replayed operations)
               /\ isProcessingQueue st' = false).
  { subst st'. unfold processQueue_run. rewrite signed_in, Hidle.
    fold operations. case_bool_decide as Hempty.
    - apply length_zero_iff_nil in Hempty. rewrite Hempty. simpl.
      by rewrite app_nil_r.
    - rewrite (drainAll_requests quota c uid signed_in).
      destruct (drainAll_queue quota c uid signed_in never_refused remote
                  clock operations 0%nat 0 (setProcessing true st) [])
        as (Hq & _ & Hflag & _); done. }
  destruct Hq as (Hq & Hcalls & Hflag). repeat split; try done.
  rewrite Hq. eapply sublist_NoDup; [exact Hnd|].
  apply afterDrain_ids_sublist.
Qed.

Lemma afterDrain_alwaysRejected operations : forall i,
  afterDrain alwaysRejected i operations
  = flat_map (fate (Rejected FirebaseError)) operations.
Proof.
  induction operations as [|op operations IH]; intros i; simpl; [done|].
  by rewrite IH.
Qed.

Lemma flat_map_twice {A} (f g : A -> list A) (l : list A) :
  flat_map g (flat_map f l) = flat_map (fun x => flat_map g (f x)) l.
Proof.
  induction l as [|x l IH]; simpl; [done|].
  by rewrite flat_map_app, IH.
Qed.

Lemma sum_flat_map {A} (f : A -> nat) (g : A -> list A) (l : list A) :
  sum_list_with f (flat_map g l)
  = sum_list_with (fun x => sum_list_with f (g x)) l.
Proof.
  induction l as [|x l IH]; simpl; [done|].
  by rewrite sum_list_with_app, IH.
Qed.

Lemma count_replayed (operations : list QueuedOperation) :
  length (List.filter replayed operations)
  = sum_list_with (fun op => if replayed op then 1%nat else 0%nat) operations.
Proof.
  induction operations as [|op operations IH]; simpl; [done|].
  destruct (replayed op); simpl; by rewrite IH.
Qed.

Lemma retried_count op :
  countable op -> retryCount op < appConfig.maxRetries ->
  retryCount (retried op) = retryCount op + 1.
Proof.
  unfold countable, appConfig.maxRetries. intros Hlow Hhigh. simpl.
  apply plusOne_exact. lia.
Qed.

Lemma replayed_retried op :
  countable op -> replayed op = true ->
  replayed (retried op) = (retryCount op + 1 <? appConfig.maxRetries).
Proof.
  intros Hlow Hrep. unfold replayed, shouldRetry in *.
  apply andb_true_iff in Hrep as [Hretry%Z.ltb_lt Htarget].
  rewrite (retried_count op Hlow Hretry).
  change (replayTarget (retried op)) with (replayTarget op).
  by rewrite Htarget, andb_true_r.
Qed.

Lemma fate_countable commit op o :
  countable op -> In o (fate commit op) -> countable o.
Proof.
  intros Hlow. unfold fate.
  destruct (retryCount op <? appConfig.maxRetries) eqn:Hretry; [|done].
  apply Z.ltb_lt in Hretry.
  destruct (replayTarget op); [destruct commit|]; simpl;
    intros Hin; try done; destruct Hin as [<-|[]]; try done.
  unfold countable in *. rewrite retried_count by done. lia.
Qed.

(** The first of [S n] failing drains sends the write of a replayed
    operation, the others send what is due to what the first one leaves. *)
Lemma attempts_step n op :
  countable op ->
  attempts (S n) op
  = ((if replayed op then 1 else 0)
     + sum_list_with (attempts n) (fate (Rejected FirebaseError) op))%nat.
Proof.
  intros Hlow. unfold attempts at 1. unfold fate.
  destruct (replayed op) eqn:Hrep.
  - pose proof (replayed_retried op Hlow Hrep) as Hnext.
    unfold replayed, shouldRetry in Hrep.
    apply andb_true_iff in Hrep as [Hretry Htarget].
    apply bool_decide_eq_true in Htarget as [name Htarget].
    rewrite Hretry, Htarget. cbn [sum_list_with]. unfold attempts.
    rewrite Hnext. apply Z.ltb_lt in Hretry.
    rewrite (retried_count op Hlow Hretry).
    unfold appConfig.maxRetries in *.
    destruct (retryCount op + 1 <? 3) eqn:Hlt.
    + apply Z.ltb_lt in Hlt. lia.
    + apply Z.ltb_ge in Hlt. lia.
  - unfold replayed, shouldRetry in Hrep.
    destruct (retryCount op <? appConfig.maxRetries) eqn:Hretry;
      [|reflexivity].
    destruct (replayTarget op) eqn:Htarget.
    + rewrite bool_decide_eq_true_2 in Hrep by eauto. done.
    + cbn [sum_list_with]. unfold attempts, replayed, shouldRetry.
      rewrite Hretry, Htarget. reflexivity.
Qed.

Lemma wornOut_0 (operations : list QueuedOperation) :
  flat_map (wornOut 0) operations = operations.
Proof.
  induction operations as [|op l IH]; [done|].
  simpl. f_equal. exact IH.
Qed.

Lemma attempts_0 (operations : list QueuedOperation) :
  sum_list_with (attempts 0) operations = 0%nat.
Proof.
  induction operations as [|op l IH]; simpl; [done|].
  rewrite IH. unfold attempts. by destruct (replayed op).
Qed.

Lemma drainTimes_failing clock n : forall st,
  isProcessingQueue st = false ->
  NoDup (List.map id (getQueuedOperations (localStorage st))) ->
  Forall countable (getQueuedOperations (localStorage st)) ->
  let operations := getQueuedOperations (localStorage st) in
  let st' := drainTimes quota c alwaysRejected clock n st in
  getQueuedOperations (localStorage st') = flat_map (wornOut n) operations
  /\ length (remoteCalls st')
     = (length (remoteCalls st) + sum_list_with (attempts n) operations)%nat.
Proof.
  induction n as [|n IH]; intros st Hidle Hnd Hlow operations st'.
  - subst st' operations. simpl.
    rewrite wornOut_0, attempts_0. split; [done | lia].
  - subst st'. simpl drainTimes.
    destruct (processQueue_run_effect alwaysRejected clock st Hidle Hnd)
      as (Hq & Hcalls & Hidle' & Hnd').
    assert (Hlow' : Forall countable
                      (getQueuedOperations
                         (localStorage
                            (processQueue_run quota c alwaysRejected clock
                                              st)))).
    { rewrite Hq, afterDrain_alwaysRejected. apply Forall_forall.
      intros o Ho%list_elem_of_In. apply in_flat_map in Ho as (op & Hop & Ho).
      apply (fate_countable (Rejected FirebaseError) op); [|done].
      rewrite Forall_forall in Hlow. by apply Hlow, list_elem_of_In. }
    destruct (IH _ Hidle' Hnd' Hlow') as [Hq' Hcalls'].
    rewrite Hq', Hcalls', Hq, Hcalls. fold operations.
    rewrite afterDrain_alwaysRejected, flat_map_twice. split; [done|].
    rewrite length_app, length_map, count_replayed, sum_flat_map.
    rewrite <- Nat.add_assoc. f_equal.
    fold operations in Hlow. clear -Hlow.
    induction Hlow as [|op l Hop _ IHl]; simpl; [done|].
    rewrite (attempts_step n op Hop). lia.
Qed.
End Budget.

Section WornOut.

Lemma retriedBy_0 op : retriedBy 0 op = op.
Proof. destruct op. unfold retriedBy. simpl. f_equal. lia. Qed.

Lemma retriedBy_retried n op :
  countable op -> retryCount op < appConfig.maxRetries ->
  retriedBy n (retried op) = retriedBy (S n) op.
Proof.
  intros Hlow Hretry. unfold retriedBy.
  rewrite (retried_count op Hlow Hretry). simpl. f_equal. lia.
Qed.

Lemma wornOut_spent n op :
  shouldRetry op = false -> wornOut (S n) op = [].
Proof.
  unfold shouldRetry. intros Hspent. simpl. unfold fate. by rewrite Hspent.
Qed.

Lemma wornOut_unreplayable n : forall op,
  shouldRetry op = true -> replayTarget op = None -> wornOut n op = [op].
Proof.
  induction n as [|n IH]; intros op Hretry Htarget; [done|].
  unfold shouldRetry in Hretry. simpl. unfold fate.
  rewrite Hretry, Htarget. simpl. rewrite app_nil_r. by apply IH.
Qed.

Lemma wornOut_replayed n : forall op,
  countable op ->
  replayed op = true ->
  wornOut n op
  = if bool_decide (Z.of_nat n <= appConfig.maxRetries - retryCount op)
    then [retriedBy n op] else [].
Proof.
  induction n as [|n IH]; intros op Hlow Hrep.
  - pose proof Hrep as Hrep'. unfold replayed, shouldRetry in Hrep'.
    apply andb_true_iff in Hrep' as [Hretry%Z.ltb_lt _].
    rewrite bool_decide_eq_true_2 by lia. simpl. by rewrite retriedBy_0.
  - pose proof (replayed_retried op Hlow Hrep) as Hnext.
    pose proof Hrep as Hrep'. unfold replayed, shouldRetry in Hrep'.
    apply andb_true_iff in Hrep' as [Hretry Htarget].
    apply bool_decide_eq_true in Htarget as [name Htarget].
    simpl. unfold fate. rewrite Hretry, Htarget. simpl. rewrite app_nil_r.
    apply Z.ltb_lt in Hretry.
    pose proof (retried_count op Hlow Hretry) as Hcount.
    assert (Hlow' : countable (retried op))
      by (unfold countable in *; lia).
    destruct (retryCount op + 1 <? appConfig.maxRetries) eqn:Hlt.
    + rewrite (IH _ Hlow' Hnext). apply Z.ltb_lt in Hlt.
      rewrite Hcount, retriedBy_retried by done.
      repeat case_bool_decide; (done || lia).
    + apply Z.ltb_ge in Hlt.
      assert (Hspent : shouldRetry (retried op) = false).
      { unfold shouldRetry. apply Z.ltb_ge. lia. }
      destruct n as [|n].
      * rewrite bool_decide_eq_true_2 by lia. cbn [wornOut].
        by rewrite <- retriedBy_retried, retriedBy_0.
      * rewrite (wornOut_spent _ _ Hspent).
        rewrite bool_decide_eq_false_2 by lia. done.
Qed.

Lemma sum_list_with_same {A} (f g : A -> nat) (l : list A) :
  (forall x, f x = g x) -> sum_list_with f l = sum_list_with g l.
Proof. intros Hfg. induction l as [|x l IH]; simpl; [done|]. by rewrite Hfg, IH. Qed.

Lemma wornOut_id n : forall op o, In o (wornOut n op) -> id o = id op.
Proof.
  induction n as [|n IH]; intros op o; simpl.
  - by intros [<-|[]].
  - intros Hin. apply in_flat_map in Hin as (o1 & Ho1 & Ho).
    rewrite (IH _ _ Ho). by apply (fate_id (Rejected FirebaseError)).
Qed.

Lemma id_unique (l : list QueuedOperation) a b :
  NoDup (List.map id l) -> In a l -> In b l -> id a = id b -> a = b.
Proof.
  induction l as [|x l IH]; [done|]. simpl. intros Hnd Ha Hb Heq.
  apply NoDup_cons in Hnd as [Hx Hnd]. rewrite list_elem_of_In in Hx.
  destruct Ha as [<-|Ha], Hb as [<-|Hb]; [done| | |by apply IH].
  - exfalso. apply Hx. rewrite Heq. by apply in_map.
  - exfalso. apply Hx. rewrite <- Heq. by apply in_map.
Qed.

(** In a queue of distinct ids, what [n] failing drains leave under the id
    of an operation is what they leave of that operation. *)
Lemma wornOut_at n operations op o :
  NoDup (List.map id operations) -> In op operations ->
  (In o (flat_map (wornOut n) operations) /\ id o = id op)
  <-> In o (wornOut n op).
Proof.
  intros Hnd Hop. split.
  - intros [Hin Hid]. apply in_flat_map in Hin as (op' & Hop' & Ho).
    assert (op' = op) as ->; [|done].
    apply (id_unique operations); [done..|].
    by rewrite <- (wornOut_id n op' o Ho).
  - intros Ho. split; [|by apply (wornOut_id n)].
    apply in_flat_map. by exists op.
Qed.
End WornOut.

(** X4. The retry budget.  Let drains follow one another on a queue of
    distinct ids and of counts from -2^53 on, every write to the cloud
    rejected, every write to the browser accepted.  An operation of type
    [save] with a collection, its retry count below [maxRetries], is still
    queued after [n] drains, with [n] more retries and nothing else
    changed, as long as [n <= maxRetries - retryCount], and is gone after
    that.  An operation that is not of type [save] or has no collection,
    its count below [maxRetries], stays as it is.  An operation whose count
    has reached [maxRetries] is gone after the first drain.  The writes
    sent over the [n] drains are, for each operation of the first kind, [n]
    or [maxRetries - retryCount], whichever is less, and none for the
    others. *)
Theorem retry_budget (quota : LocalStorage -> bool) (c : Connection)
    (uid : string) (clock : nat -> Z) (st : SyncState) :
  connected c = Some uid ->
  (forall ls, quota ls = true) ->
  isProcessingQueue st = false ->
  NoDup (List.map id (getQueuedOperations (localStorage st))) ->
  (forall op, In op (getQueuedOperations (localStorage st)) ->
     - 9007199254740992 <= retryCount op) ->
  let operations := getQueuedOperations (localStorage st) in
  let replayable := fun op : QueuedOperation =>
    match type op, collection op with
    | save, Some name =>
        negb (String.eqb name "") && (retryCount op <? appConfig.maxRetries)
    | _, _ => false
    end in
  forall n,
    let st' := drainTimes quota c alwaysRejected clock n st in
    let queue' := getQueuedOperations (localStorage st') in
    length (remoteCalls st')
    = (length (remoteCalls st)
       + sum_list_with
           (fun op =>
              if replayable op
              then Nat.min n (Z.to_nat (appConfig.maxRetries - retryCount op))
              else 0%nat)
           operations)%nat
    /\ forall op, In op operations ->
         (forall name,
            type op = save -> collection op = Some name -> name <> "" ->
            retryCount op < appConfig.maxRetries ->
            (Z.of_nat n <= appConfig.maxRetries - retryCount op ->
             let later :=
               {| id := id op; type := type op; collection := collection op;
                  data := data op; timestamp := timestamp op;
                  retryCount := retryCount op + Z.of_nat n |} in
             In later queue'
             /\ forall o, In o queue' -> id o = id op -> o = later)
            /\ (appConfig.maxRetries - retryCount op < Z.of_nat n ->
                forall o, In o queue' -> id o <> id op))
         /\ (retryCount op < appConfig.maxRetries ->
             type op <> save \/ collection op = None
             \/ collection op = Some "" ->
             In op queue' /\ forall o, In o queue' -> id o = id op -> o = op)
         /\ (appConfig.maxRetries <= retryCount op -> (0 < n)%nat ->
             forall o, In o queue' -> id o <> id op).
Proof.
  intros Hc Hquota Hidle Hnd Hlow operations replayable n st' queue'.
  assert (Hall : Forall countable operations).
  { apply Forall_forall. intros op Hop%list_elem_of_In. by apply Hlow. }
  destruct (drainTimes_failing quota c uid Hc Hquota clock n st Hidle Hnd Hall)
    as [Hqueue Hcalls].
  fold operations st' queue' in Hqueue, Hcalls.
  split.
  - rewrite Hcalls. f_equal. apply sum_list_with_same.
    intros op. unfold attempts, replayable. by rewrite replayed_fields.
  - intros op Hop.
    pose proof (fun o => wornOut_at n operations op o Hnd Hop) as Hat.
    rewrite <- Hqueue in Hat.
    split; [|split].
    + intros name Htype Hname Hnonempty Hbudget.
      assert (Hrep : replayed op = true).
      { unfold replayed, shouldRetry.
        rewrite (proj2 (Z.ltb_lt _ _) Hbudget).
        rewrite bool_decide_eq_true_2; [done|].
        exists name. by apply replayTarget_Some. }
      rewrite (wornOut_replayed n op (Hlow op Hop) Hrep) in Hat.
      split.
      * intros Hn later. rewrite bool_decide_eq_true_2 in Hat by done.
        change later with (retriedBy n op). split.
        -- apply (Hat (retriedBy n op)). by left.
        -- intros o Hin Hid. destruct (proj1 (Hat o)) as [<-|[]]; done.
      * intros Hn o Hin Hid. rewrite bool_decide_eq_false_2 in Hat by lia.
        by apply (Hat o).
    + intros Hbudget Hkind.
      rewrite (wornOut_unreplayable n op) in Hat.
      * split; [apply (Hat op); by left|].
        intros o Hin Hid. destruct (proj1 (Hat o)) as [<-|[]]; done.
      * by apply Z.ltb_lt.
      * by apply replayTarget_None.
    + intros Hspent Hn o Hin Hid.
      destruct n as [|n]; [lia|].
      rewrite wornOut_spent in Hat; [by apply (Hat o)|].
      by apply Z.ltb_ge.
Qed.

Lemma retry_budget_witness :
  let st := sampleState (mkStorage (Some (Valid [sampleOp "b" 0;
                                               sampleSync "d"])) ∅) in
  let run := fun n => drainTimes (fun _ => true) (mkConn true (Some "uid"))
                                 alwaysRejected (fun _ => 0) n st in
  In (sampleOp "b" 3) (getQueuedOperations (localStorage (run 3%nat)))
  /\ ~ In (sampleOp "b" 3) (getQueuedOperations (localStorage (run 4%nat)))
  /\ length (remoteCalls (run 9%nat)) = 3%nat.
Proof.
  intros st run.
  assert (Hbudget : forall n,
            length (remoteCalls (run n))
            = (0 + (Nat.min n 3 + 0))%nat
            /\ ((Z.of_nat n <= 3 ->
                 In (sampleOp "b" (Z.of_nat n))
                    (getQueuedOperations (localStorage (run n))))
                /\ (3 < Z.of_nat n ->
                    forall o, In o (getQueuedOperations (localStorage (run n)))
                              -> id o <> "b"))).
  { intros n.
    destruct (retry_budget (fun _ => true) (mkConn true (Some "uid")) "uid"
                (fun _ => 0) st) with (n := n) as (Hsent & Heach).
    - reflexivity.
    - reflexivity.
    - reflexivity.
    - apply (bool_decide_unpack _). vm_compute. reflexivity.
    - intros op [<-|[<-|[]]]; simpl; lia.
    - split; [exact Hsent|].
      destruct (Heach (sampleOp "b" 0)) as (Hreplay & _); [by left|].
      destruct (Hreplay "products") as (Hstill & Hgone); try done.
      split.
      + intros Hn. by destruct (Hstill Hn) as [Hin _].
      + intros Hn. by apply Hgone. }
  split; [|split].
  - by apply (Hbudget 3%nat).
  - intros Hin. by apply (proj2 (proj2 (Hbudget 4%nat))) in Hin.
  - by destruct (Hbudget 9%nat) as [-> _].
Defined.

(** ** SyncContext.tsx: sync *)

Section SyncBatch.

Lemma collectBatch_corrupt ls entries : forall writes key storageKey,
  In (key, storageKey) entries ->
  dataItems ls !! storageKey = Some Corrupt ->
  collectBatch ls entries writes = Throw SyntaxError.
Proof.
  induction entries as [|[key0 storageKey0] entries IH];
    intros writes key storageKey Hin Hcorrupt; [done|].
  simpl. destruct Hin as [[= -> ->]|Hin].
  - by rewrite Hcorrupt.
  - destruct (dataItems ls !! storageKey0) as [[| |parsed]|]; simpl;
      first [done | by apply (IH _ key storageKey)].
Qed.

Lemma collectBatch_closed ls entries : forall writes,
  (forall key storageKey, In (key, storageKey) entries ->
     dataItems ls !! storageKey <> Some Corrupt) ->
  collectBatch ls entries writes
  = Normal (writes ++ omap (batchWrite ls) entries).
Proof.
  induction entries as [|[key storageKey] entries IH]; intros writes Hparse.
  - simpl. by rewrite app_nil_r.
  - assert (Hrest : forall k sk, In (k, sk) entries ->
                      dataItems ls !! sk <> Some Corrupt).
    { intros k sk Hin. apply (Hparse k sk). by right. }
    pose proof (Hparse key storageKey (or_introl eq_refl)) as Hhere.
    simpl. unfold batchWrite at 1. simpl.
    destruct (dataItems ls !! storageKey) as [[| |parsed]|]; simpl;
      [exact (IH _ Hrest) | done | | exact (IH _ Hrest)].
    rewrite (IH _ Hrest). by rewrite <- app_assoc.
Qed.

Lemma asArray_isArray parsed : Array_isArray (asArray parsed) = true.
Proof. unfold asArray. by destruct parsed. Qed.

Lemma asArray_truthy parsed : truthy (asArray parsed) = true.
Proof. unfold asArray. by destruct parsed. Qed.

(** X5. [sync] is all or nothing on the local data: if one of the four
    stored collections is non-empty text that [JSON.parse] rejects, no
    request at all is sent, not even for the collections that do parse, and
    the call ends with the status offline. *)
Theorem sync_blocked_by_unreadable_collection (c : Connection) (now : Z)
    (commit : Settled) (st : SyncState) (key storageKey : string) :
  In (key, storageKey) STORAGE_KEYS_entries ->
  dataItems (localStorage st) !! storageKey = Some Corrupt ->
  let st' := (sync c now commit st).1 in
  remoteCalls st' = remoteCalls st
  /\ status st' = offline
  /\ lastSynced st' = lastSynced st
  /\ (toasts st' = toasts st ++ [SyncFailed]
      \/ toasts st' = toasts st ++ [SyncNoConnection]).
Proof.
  intros Hin Hcorrupt. unfold sync.
  destruct (connected c) as [uid|]; [|simpl; auto].
  cbv zeta. change (localStorage (setStatus syncing st)) with (localStorage st).
  rewrite (collectBatch_corrupt _ _ [] key storageKey Hin Hcorrupt).
  simpl. auto.
Qed.

(** X6. What [sync] sends.  With a connection and a user, and every stored
    collection readable, [sync] sends exactly one request: a batch with one
    write for each of [products], [customers], [settings], [bankAccounts]
    that is stored and not empty, in this order, carrying the stored value
    itself when it is an array and the one-element array of it otherwise;
    so every [items] sent is an array. *)
Theorem sync_sends_stored_collections (c : Connection) (uid : string)
    (now : Z) (commit : Settled) (st : SyncState) :
  connected c = Some uid ->
  (forall key storageKey, In (key, storageKey) STORAGE_KEYS_entries ->
     dataItems (localStorage st) !! storageKey <> Some Corrupt) ->
  let writes := omap (batchWrite (localStorage st)) STORAGE_KEYS_entries in
  remoteCalls (sync c now commit st).1
  = remoteCalls st ++ [BatchCommit uid writes]
  /\ (forall key items, In (key, items) writes ->
        Array_isArray items = true
        /\ exists storageKey parsed,
             In (key, storageKey) STORAGE_KEYS_entries
             /\ dataItems (localStorage st) !! storageKey
                = Some (Valid parsed)
             /\ items = asArray parsed)
  /\ (forall key storageKey parsed,
        In (key, storageKey) STORAGE_KEYS_entries ->
        dataItems (localStorage st) !! storageKey = Some (Valid parsed) ->
        In (key, asArray parsed) writes).
Proof.
  intros Hc Hparse writes. split; [|split].
  - unfold sync. rewrite Hc. cbv zeta.
    change (localStorage (setStatus syncing st)) with (localStorage st).
    rewrite (collectBatch_closed _ _ [] Hparse). simpl.
    by destruct commit.
  - intros key items Hin. subst writes.
    apply list_elem_of_In, list_elem_of_omap in Hin
      as ([key' storageKey] & Hentry & Hwrite).
    unfold batchWrite in Hwrite. simpl in Hwrite.
    destruct (dataItems (localStorage st) !! storageKey)
      as [[| |parsed]|] eqn:Hstored; simplify_eq.
    split; [apply asArray_isArray|]. exists storageKey, parsed.
    split; [by apply list_elem_of_In | done].
  - intros key storageKey parsed Hin Hstored. subst writes.
    apply list_elem_of_In, list_elem_of_omap. exists (key, storageKey).
    split; [by apply list_elem_of_In|].
    unfold batchWrite. simpl. by rewrite Hstored.
Qed.
End SyncBatch.

Lemma sync_blocked_by_unreadable_collection_witness :
  let st :=
    sampleState (mkStorage None
                   {[ "wyrd-ledger-products" := Valid (JArr [JNum 1]);
                      "wyrd-ledger-settings" := Corrupt ]}) in
  remoteCalls (sync (mkConn true (Some "uid")) 0 Resolved st).1 = [].
Proof.
  intros st.
  apply (sync_blocked_by_unreadable_collection (mkConn true (Some "uid")) 0
           Resolved st "settings" "wyrd-ledger-settings").
  - simpl. auto.
  - reflexivity.
Defined.

Lemma sync_sends_stored_collections_witness :
  let st :=
    sampleState (mkStorage None
                   {[ "wyrd-ledger-products" := Valid (JArr [JNum 1]);
                      "wyrd-ledger-settings" := Valid (JObj []) ]}) in
  remoteCalls (sync (mkConn true (Some "uid")) 0 Resolved st).1
  = [BatchCommit "uid" [("products", JArr [JNum 1]);
                        ("settings", JArr [JObj []])]].
Proof.
  intros st.
  destruct (sync_sends_stored_collections (mkConn true (Some "uid")) "uid" 0
              Resolved st) as (Hcalls & _).
  - reflexivity.
  - intros key storageKey [[= <- <-]|[[= <- <-]|[[= <- <-]|[[= <- <-]|[]]]]];
      vm_compute; discriminate.
  - etransitivity; [exact Hcalls|]. vm_compute. reflexivity.
Defined.

Section SyncOutcome.

Lemma collectBatch_throws ls entries : forall writes e,
  collectBatch ls entries writes = Throw e ->
  exists key storageKey,
    In (key, storageKey) entries /\ dataItems ls !! storageKey = Some Corrupt.
Proof.
  induction entries as [|[key storageKey] entries IH]; intros writes e Hthrow;
    [done|].
  simpl in Hthrow.
  destruct (dataItems ls !! storageKey) as [[| |parsed]|] eqn:Hstored;
    simpl in Hthrow.
  - destruct (IH _ _ Hthrow) as (k & sk & Hin & Hc).
    exists k, sk. split; [by right | done].
  - exists key, storageKey. split; [by left | done].
  - destruct (IH _ _ Hthrow) as (k & sk & Hin & Hc).
    exists k, sk. split; [by right | done].
  - destruct (IH _ _ Hthrow) as (k & sk & Hin & Hc).
    exists k, sk. split; [by right | done].
Qed.

(** X7. How [sync] ends.  It never changes [localStorage], the pending
    count or the page, and raises exactly one notification.  It ends with
    the status synced exactly when there were a connection and a user, every
    stored collection was readable and the commit resolved; then the time of
    the last sync is the present one and the notification is the success
    one.  In every other case it ends with the status offline and leaves the
    time of the last sync alone. *)
Theorem sync_ends_synced_or_offline (c : Connection) (now : Z)
    (commit : Settled) (st : SyncState) :
  let st' := (sync c now commit st).1 in
  localStorage st' = localStorage st
  /\ pendingOperations st' = pendingOperations st
  /\ reloads st' = reloads st
  /\ (exists t, toasts st' = toasts st ++ [t])
  /\ (status st' = synced <->
      is_Some (connected c)
      /\ (forall key storageKey, In (key, storageKey) STORAGE_KEYS_entries ->
            dataItems (localStorage st) !! storageKey <> Some Corrupt)
      /\ commit = Resolved)
  /\ (status st' = synced ->
      lastSynced st' = Some now /\ toasts st' = toasts st ++ [SyncComplete])
  /\ (status st' <> synced ->
      status st' = offline /\ lastSynced st' = lastSynced st).
Proof.
  unfold sync. destruct (connected c) as [uid|] eqn:Hc; cbv zeta.
  - change (localStorage (setStatus syncing st)) with (localStorage st).
    destruct (collectBatch (localStorage st) STORAGE_KEYS_entries [])
      as [writes|e] eqn:Hbatch.
    + assert (Hparse : forall key storageKey,
                In (key, storageKey) STORAGE_KEYS_entries ->
                dataItems (localStorage st) !! storageKey <> Some Corrupt).
      { intros key storageKey Hin Hcorrupt.
        by rewrite (collectBatch_corrupt _ _ [] key storageKey Hin Hcorrupt)
          in Hbatch. }
      destruct commit as [|e]; simpl.
      * do 3 (split; [done|]). split; [eauto|].
        split; [split; [by eauto | done]|]. split; [done|]. done.
      * do 3 (split; [done|]). split; [eauto|].
        split; [split; [done | by intros (_ & _ & ?)]|].
        split; [done|]. done.
    + destruct (collectBatch_throws _ _ _ _ Hbatch) as (k & sk & Hin & Hcor).
      simpl. do 3 (split; [done|]). split; [eauto|].
      split; [split; [done|]|].
      * intros (_ & Hparse & _). by destruct (Hparse k sk Hin).
      * split; [done|]. done.
  - simpl. do 3 (split; [done|]). split; [eauto|].
    split; [split; [done | by intros ([? ?] & _)]|].
    split; [done|]. done.
Qed.
End SyncOutcome.

(** ** SyncContext.tsx: restore *)

Section RestoreMore.
Variable quota : LocalStorage -> bool.

Lemma writtenDoc_target updatedAt key storageKey parsed :
  In (key, storageKey) STORAGE_KEYS_entries ->
  restoreTarget (writtenDoc updatedAt (key, asArray parsed))
  = Some (storageKey, asArray parsed).
Proof.
  intros Hin. apply STORAGE_KEYS_own in Hin.
  unfold restoreTarget, writtenDoc. simpl. rewrite Hin.
  rewrite lookup_insert_eq. by rewrite asArray_truthy.
Qed.

Lemma batch_keys_sublist ls (entries : list (string * string)) :
  List.map fst (omap (batchWrite ls) entries) `sublist_of` List.map fst entries.
Proof.
  induction entries as [|[key storageKey] entries IH]; simpl; [done|].
  unfold batchWrite at 1. simpl.
  destruct (dataItems ls !! storageKey) as [[| |parsed]|]; simpl;
    by constructor.
Qed.

Lemma written_ids updatedAt writes :
  List.map doc_id (written updatedAt writes) = List.map fst writes.
Proof. unfold written. rewrite map_map. by apply map_ext. Qed.

(** Reading back the documents of the batch that [sync] builds from the
    storage [source]. *)
Lemma restore_written_batch (c : Connection) (now : Z) (updatedAt : Json)
    (source : LocalStorage) (st : SyncState) :
  let writes := omap (batchWrite source) STORAGE_KEYS_entries in
  let result := restore quota c now (Normal (written updatedAt writes)) st in
  result.2 = Resolved ->
  forall key storageKey,
    In (key, storageKey) STORAGE_KEYS_entries ->
    dataItems (localStorage result.1) !! storageKey
    = match dataItems source !! storageKey with
      | Some (Valid parsed) => Some (Valid (asArray parsed))
      | _ => dataItems (localStorage st) !! storageKey
      end.
Proof.
  intros writes result Hres key storageKey Hin.
  assert (Hwrites : writes = omap (batchWrite source) STORAGE_KEYS_entries)
    by reflexivity.
  clearbody writes.
  assert (Hnd : NoDup (List.map doc_id (written updatedAt writes))).
  { rewrite written_ids, Hwrites.
    eapply sublist_NoDup; [|apply batch_keys_sublist].
    apply (bool_decide_unpack _). vm_compute. reflexivity. }
  assert (Hdocs : forall d, In d (written updatedAt writes) ->
            exists k sk p, In (k, sk) STORAGE_KEYS_entries
                           /\ dataItems source !! sk = Some (Valid p)
                           /\ restoreTarget d = Some (sk, asArray p)).
  { intros d Hd. unfold written in Hd.
    apply in_map_iff in Hd as ([key' items'] & <- & Hw). rewrite Hwrites in Hw.
    apply list_elem_of_In, list_elem_of_omap in Hw
      as ([k sk] & Hentry%list_elem_of_In & Hwrite).
    unfold batchWrite in Hwrite. simpl in Hwrite.
    destruct (dataItems source !! sk) as [[| |p]|] eqn:Hsk; simplify_eq.
    exists key', sk, p. split; [done|]. split; [done|].
    by apply writtenDoc_target. }
  assert (Hkeep : (forall p, dataItems source !! storageKey <> Some (Valid p))
                  -> forall d items, In d (written updatedAt writes) ->
                     restoreTarget d <> Some (storageKey, items)).
  { intros Hnone d items Hd Ht.
    destruct (Hdocs d Hd) as (k & sk & p & _ & Hsk & Ht').
    rewrite Ht' in Ht. simplify_eq. by apply (Hnone p). }
  subst result. unfold restore in *.
  destruct (connected c) as [uid|]; [|done]. cbn [fst snd] in *.
  change (localStorage (request (GetDocs uid) (setStatus syncing st)))
    with (localStorage st) in *.
  destruct (restoreDocs quota (written updatedAt writes) (localStorage st))
    as [ls [e|]] eqn:Hrun; [done|]. cbn.
  destruct (dataItems source !! storageKey) as [[| |parsed]|] eqn:Hstored.
  - apply (restoreDocs_frame quota _ _ _ _ storageKey Hrun). by apply Hkeep.
  - apply (restoreDocs_frame quota _ _ _ _ storageKey Hrun). by apply Hkeep.
  - apply (restoreDocs_written quota _ _ _
             (writtenDoc updatedAt (key, asArray parsed)) storageKey
             (asArray parsed) Hrun); [| by apply writtenDoc_target | done].
    unfold written. apply in_map. rewrite Hwrites.
    apply list_elem_of_In, list_elem_of_omap.
    exists (key, storageKey). split; [by apply list_elem_of_In|].
    unfold batchWrite. simpl. by rewrite Hstored.
  - apply (restoreDocs_frame quota _ _ _ _ storageKey Hrun). by apply Hkeep.
Qed.

(** X8. Pushing with [sync] and pulling with [restore].  Let a call of
    [sync] end with the status synced: it has sent one batch, and every
    stored collection was readable.  Let [restore] then read back exactly
    the documents of that batch, and resolve.  Then, under each of the four
    storage keys, the storage holds what the storage of the [sync] held when
    that was an array, the one-element array of what it held when that was
    another value, and what it held before when the storage of the [sync]
    held nothing there or the empty string. *)
Theorem sync_then_restore (c : Connection) (now : Z) (commit : Settled)
    (source : SyncState) (later : Z) (updatedAt : Json) (st : SyncState) :
  status (sync c now commit source).1 = synced ->
  (forall key storageKey, In (key, storageKey) STORAGE_KEYS_entries ->
     dataItems (localStorage source) !! storageKey <> Some Corrupt)
  /\ exists uid writes,
       remoteCalls (sync c now commit source).1
       = remoteCalls source ++ [BatchCommit uid writes]
       /\ let result :=
            restore quota c later (Normal (written updatedAt writes)) st in
          result.2 = Resolved ->
          forall key storageKey,
            In (key, storageKey) STORAGE_KEYS_entries ->
            dataItems (localStorage result.1) !! storageKey
            = match dataItems (localStorage source) !! storageKey with
              | Some (Valid parsed) =>
                  Some (Valid (if Array_isArray parsed then parsed
                               else JArr [parsed]))
              | _ => dataItems (localStorage st) !! storageKey
              end.
Proof.
  intros Hsynced.
  assert (Hsent : exists uid,
            connected c = Some uid
            /\ collectBatch (localStorage source) STORAGE_KEYS_entries []
               = Normal (omap (batchWrite (localStorage source))
                              STORAGE_KEYS_entries)
            /\ (forall key storageKey,
                  In (key, storageKey) STORAGE_KEYS_entries ->
                  dataItems (localStorage source) !! storageKey
                  <> Some Corrupt)).
  { unfold sync in Hsynced.
    destruct (connected c) as [uid|]; [|done]. exists uid. cbv zeta in Hsynced.
    change (localStorage (setStatus syncing source))
      with (localStorage source) in Hsynced.
    assert (Hparse : forall key storageKey,
              In (key, storageKey) STORAGE_KEYS_entries ->
              dataItems (localStorage source) !! storageKey <> Some Corrupt).
    { intros key storageKey Hin Hcorrupt.
      by rewrite (collectBatch_corrupt _ _ [] key storageKey Hin Hcorrupt)
        in Hsynced. }
    split; [done|]. split; [|done].
    by rewrite (collectBatch_closed _ _ [] Hparse). }
  destruct Hsent as (uid & Hc & Hbatch & Hparse).
  split; [done|].
  exists uid, (omap (batchWrite (localStorage source)) STORAGE_KEYS_entries).
  split.
  - unfold sync in *. rewrite Hc in *. cbv zeta in *.
    change (localStorage (setStatus syncing source))
      with (localStorage source) in *.
    rewrite Hbatch in *. by destruct commit.
  - intros result Hres key storageKey Hin.
    by apply (restore_written_batch c later updatedAt (localStorage source)
                st Hres key storageKey Hin).
Qed.
End RestoreMore.

Lemma sync_ends_synced_or_offline_witness :
  let st :=
    sampleState (mkStorage None
                   {[ "wyrd-ledger-products" := Valid (JArr [JNum 1]) ]}) in
  status (sync (mkConn true (Some "uid")) 7 Resolved st).1 = synced
  /\ lastSynced (sync (mkConn true (Some "uid")) 7 Resolved st).1 = Some 7.
Proof.
  intros st.
  destruct (sync_ends_synced_or_offline (mkConn true (Some "uid")) 7 Resolved
              st) as (_ & _ & _ & _ & Hiff & Hsynced & _).
  assert (Hs : status (sync (mkConn true (Some "uid")) 7 Resolved st).1
               = synced).
  { apply Hiff. split; [by eexists|]. split; [|done].
    intros key storageKey [[= <- <-]|[[= <- <-]|[[= <- <-]|[[= <- <-]|[]]]]];
      vm_compute; discriminate. }
  split; [exact Hs | apply (Hsynced Hs)].
Defined.

Lemma sync_then_restore_witness :
  let source :=
    sampleState
      (mkStorage None {[ "wyrd-ledger-products" := Valid (JArr [JNum 1]);
                         "wyrd-ledger-settings" := Valid (JObj []) ]}) in
  let c := mkConn true (Some "uid") in
  exists writes,
    remoteCalls (sync c 0 Resolved source).1 = [BatchCommit "uid" writes]
    /\ dataItems
         (localStorage
            (restore (fun _ => true) c 1 (Normal (written JNull writes))
                     (sampleState (mkStorage None ∅))).1)
         !! "wyrd-ledger-settings"
       = Some (Valid (JArr [JObj []])).
Proof.
  intros source c.
  destruct (sync_then_restore (fun _ => true) c 0 Resolved source 1 JNull
              (sampleState (mkStorage None ∅)) eq_refl)
    as (_ & uid & writes & Hsent & Hback).
  exists writes. split.
  - vm_compute in Hsent. injection Hsent as <- <-. reflexivity.
  - assert (Hwrites : writes = [("products", JArr [JNum 1]);
                                ("settings", JArr [JObj []])]).
    { vm_compute in Hsent. by injection Hsent as _ <-. }
    etransitivity; [apply (Hback ltac:(by rewrite Hwrites) "settings");
                    simpl; auto|].
    reflexivity.
Defined.

Section RestoreEnds.
Variable quota : LocalStorage -> bool.

Lemma restoreDocs_stops docs : forall ls ls' e,
  restoreDocs quota docs ls = (ls', Some e) ->
  exists before d after,
    docs = before ++ d :: after
    /\ restoreDocs quota before ls = (ls', None)
    /\ restoreDoc quota d ls' = Throw e.
Proof.
  induction docs as [|d docs IH]; intros ls ls' e Hrun; [done|].
  simpl in Hrun. destruct (restoreDoc quota d ls) as [ls1|e1] eqn:Hd.
  - destruct (IH _ _ _ Hrun) as (before & d' & after & -> & Hbefore & Hfail).
    exists (d :: before), d', after. split; [done|]. split; [|done].
    simpl. by rewrite Hd.
  - simplify_eq. exists [], d, docs. done.
Qed.

(** X9. How [restore] ends.  It reloads the page exactly when it resolves,
    and then the status is synced and the time of the last sync the present
    one; when it rejects the status is offline.  Without a connection or a
    user it sends no request and touches neither [localStorage] nor the
    notifications.  [restore] does not undo what it has written: when a
    local write is refused it rejects with the storage holding the writes of
    the documents before the refused one, and none of those after. *)
Theorem restore_reloads_iff_resolved (c : Connection) (now : Z)
    (snapshot : Completion (list DocSnapshot)) (st : SyncState) :
  let result := restore quota c now snapshot st in
  let st' := result.1 in
  (result.2 = Resolved ->
     reloads st' = S (reloads st) /\ status st' = synced
     /\ lastSynced st' = Some now
     /\ toasts st' = toasts st ++ [RestoreComplete])
  /\ (forall e, result.2 = Rejected e ->
        reloads st' = reloads st /\ status st' = offline
        /\ lastSynced st' = lastSynced st)
  /\ (connected c = None ->
        remoteCalls st' = remoteCalls st
        /\ localStorage st' = localStorage st /\ toasts st' = toasts st)
  /\ (forall docs e, is_Some (connected c) -> snapshot = Normal docs ->
        result.2 = Rejected e ->
        exists before d after,
          docs = before ++ d :: after
          /\ restoreDocs quota before (localStorage st)
             = (localStorage st', None)
          /\ restoreDoc quota d (localStorage st') = Throw e).
Proof.
  intros result st'. subst result st'. unfold restore.
  destruct (connected c) as [uid|] eqn:Hc; cbv zeta.
  - change (localStorage (request (GetDocs uid) (setStatus syncing st)))
      with (localStorage st).
    destruct snapshot as [docs|e0].
    + destruct (restoreDocs quota docs (localStorage st)) as [ls [e1|]]
        eqn:Hrun; simpl.
      * split; [done|]. split; [by intros e [= <-]|]. split; [done|].
        intros docs' e _ [= <-] [= <-]. by apply restoreDocs_stops.
      * split; [done|]. split; [done|]. split; [done|]. done.
    + simpl. split; [done|]. split; [by intros e [= <-]|]. split; [done|].
      done.
  - simpl. split; [done|]. split; [by intros e [= <-]|]. split; [done|].
    by intros docs e [? ?].
Qed.
End RestoreEnds.

Lemma restore_reloads_iff_resolved_witness :
  let st :=
    sampleState (mkStorage None
                   {[ "wyrd-ledger-products" := Valid (JArr [JNum 1]) ]}) in
  reloads (restore (fun _ => true) (mkConn true (Some "uid")) 0
                   (Normal [sampleDoc "customers" (JArr [])]) st).1 = 1%nat
  /\ reloads (restore (fun _ => true) (mkConn true (Some "uid")) 0
                      (Throw FirebaseError) st).1 = 0%nat.
Proof.
  intros st. split.
  - apply (restore_reloads_iff_resolved (fun _ => true)
             (mkConn true (Some "uid")) 0
             (Normal [sampleDoc "customers" (JArr [])]) st).
    reflexivity.
  - destruct (restore_reloads_iff_resolved (fun _ => true)
                (mkConn true (Some "uid")) 0 (Throw FirebaseError) st)
      as (_ & Hrej & _).
    apply (Hrej FirebaseError). reflexivity.
Defined.

(** ** SyncContext.tsx: resetAllData and fetchData *)

Section Reset.

Lemma requests_fold uid (docs : list DocSnapshot) : forall st : SyncState,
  let st' :=
    fold_left (fun st d => request (DeleteDoc uid (doc_id d)) st) docs st in
  remoteCalls st'
  = remoteCalls st ++ List.map (fun d => DeleteDoc uid (doc_id d)) docs
  /\ localStorage st' = localStorage st
  /\ status st' = status st /\ lastSynced st' = lastSynced st
  /\ toasts st' = toasts st /\ pendingOperations st' = pendingOperations st.
Proof.
  induction docs as [|d docs IH]; intros st; simpl.
  - by rewrite app_nil_r.
  - destruct (IH (request (DeleteDoc uid (doc_id d)) st))
      as (-> & -> & -> & -> & -> & ->).
    simpl. by rewrite <- app_assoc.
Qed.

Lemma Promise_all_resolved results :
  Promise_all results = Resolved <-> Forall (fun r => r = Resolved) results.
Proof.
  induction results as [|[|e] results IH]; simpl.
  - split; [constructor | done].
  - rewrite IH. split; [by constructor | by inversion 1].
  - split; [done | by inversion 1].
Qed.

(** X10. [resetAllData] with a connection, a user and a snapshot of the
    user's documents asks for the deletion of every document of the
    snapshot, in order, whether or not deletions fail: nothing is held back
    after a failure and nothing is rolled back.  It resolves exactly when
    every deletion did, and then the status is synced and the time of the
    last sync is cleared; otherwise it rejects with the status offline.  It
    never touches [localStorage]: the local collections and the stored queue
    stay as they are. *)
Theorem resetAllData_deletes_every_document (c : Connection)
    (snapshot : Completion (list DocSnapshot)) (deleted : string -> Settled)
    (st : SyncState) :
  let result := resetAllData c snapshot deleted st in
  let st' := result.1 in
  localStorage st' = localStorage st
  /\ toasts st' = toasts st
  /\ (forall uid docs, connected c = Some uid -> snapshot = Normal docs ->
        remoteCalls st'
        = remoteCalls st ++ GetDocs uid
            :: List.map (fun d => DeleteDoc uid (doc_id d)) docs
        /\ (result.2 = Resolved <->
            forall d, In d docs -> deleted (doc_id d) = Resolved))
  /\ (result.2 = Resolved -> status st' = synced /\ lastSynced st' = None)
  /\ (forall e, result.2 = Rejected e ->
        lastSynced st' = lastSynced st
        /\ (is_Some (connected c) -> status st' = offline)).
Proof.
  intros result st'. subst result st'. unfold resetAllData.
  destruct (connected c) as [uid|] eqn:Hc; cbv zeta.
  - destruct snapshot as [docs|e0].
    + pose proof (requests_fold uid docs
                    (request (GetDocs uid) (setStatus syncing st)))
        as (Hcalls & Hls & Hstatus & Hlast & Htoasts & _).
      cbv zeta in *.
      destruct (Promise_all (List.map (fun d => deleted (doc_id d)) docs))
        as [|e] eqn:Hall; simpl; rewrite ?Hcalls, ?Hls, ?Htoasts, ?Hlast.
      * split; [done|]. split; [done|]. split; [|done].
        intros uid' docs' [= <-] [= <-]. simpl.
        split; [by rewrite <- app_assoc|]. split; [|done]. intros _.
        apply Promise_all_resolved in Hall.
        rewrite Forall_forall in Hall. intros d Hd.
        apply Hall, list_elem_of_In.
        by apply (in_map (fun d0 => deleted (doc_id d0))).
      * split; [done|]. split; [done|]. split.
        -- intros uid' docs' [= <-] [= <-]. simpl.
           split; [by rewrite <- app_assoc|]. split; [done|]. intros Hok.
           assert (Promise_all (List.map (fun d => deleted (doc_id d)) docs)
                   = Resolved); [|congruence].
           apply Promise_all_resolved, Forall_forall.
           intros r Hr%list_elem_of_In. apply in_map_iff in Hr as (d & <- & Hd).
           by apply Hok.
        -- split; [done|]. by intros e' [= <-].
    + simpl. split; [done|]. split; [done|]. split; [done|].
      split; [done|]. by intros e' [= <-].
  - simpl. split; [done|]. split; [done|]. split; [done|]. split; [done|].
    intros e' _. split; [done|]. by intros [? ?].
Qed.

Lemma findItems_none docs collectionName :
  (forall d, In d docs -> doc_id d <> collectionName) ->
  findItems docs collectionName = None.
Proof.
  induction docs as [|d docs IH]; intros Hnone; [done|]. simpl.
  destruct (String.eqb_spec (doc_id d) collectionName) as [Heq|_].
  - by destruct (Hnone d (or_introl eq_refl)).
  - apply IH. intros d' Hin. apply Hnone. by right.
Qed.

Lemma findItems_first before d after collectionName :
  (forall d', In d' before -> doc_id d' <> collectionName) ->
  doc_id d = collectionName ->
  findItems (before ++ d :: after) collectionName
  = match doc_data d !! "items" with
    | Some items => if truthy items then Some items else None
    | None => None
    end.
Proof.
  intros Hbefore Hid.
  induction before as [|d0 before IH]; simpl.
  - by rewrite Hid, String.eqb_refl.
  - destruct (String.eqb_spec (doc_id d0) collectionName) as [Heq|_].
    + by destruct (Hbefore d0 (or_introl eq_refl)).
    + apply IH. intros d' Hin. apply Hbefore. by right.
Qed.

(** X11. [fetchData] changes nothing of what the provider holds apart from
    the request it sends.  Without a connection or a user it returns null
    and sends nothing; when the read fails it returns null and raises its
    notification.  Otherwise it raises nothing and returns null when no
    document has the collection name as id, and for the first document of
    that id its [items] if they are truthy, null if they are falsy or
    missing.  Reading back the documents of a committed batch of writes
    under distinct names gives the items written under the name when they
    are truthy. *)
Theorem fetchData_returns_items_or_null (c : Connection)
    (snapshot : Completion (list DocSnapshot)) (collectionName : string)
    (st : SyncState) :
  let result := fetchData c snapshot collectionName st in
  let st' := result.1 in
  (localStorage st' = localStorage st /\ status st' = status st
   /\ toasts st' = toasts st /\ lastSynced st' = lastSynced st
   /\ pendingOperations st' = pendingOperations st)
  /\ (connected c = None -> st' = st /\ result.2 = mkFetched None false)
  /\ (forall e, is_Some (connected c) -> snapshot = Throw e ->
        result.2 = mkFetched None true)
  /\ (forall docs, is_Some (connected c) -> snapshot = Normal docs ->
        fetchFailed result.2 = false
        /\ ((forall d, In d docs -> doc_id d <> collectionName) ->
            fetched result.2 = None)
        /\ (forall before d after,
              docs = before ++ d :: after ->
              (forall d', In d' before -> doc_id d' <> collectionName) ->
              doc_id d = collectionName ->
              fetched result.2
              = match doc_data d !! "items" with
                | Some items => if truthy items then Some items else None
                | None => None
                end))
  /\ (forall updatedAt writes items,
        is_Some (connected c) ->
        snapshot = Normal (written updatedAt writes) ->
        NoDup (List.map fst writes) ->
        In (collectionName, items) writes ->
        truthy items = true ->
        fetched result.2 = Some items).
Proof.
  intros result st'. subst result st'. unfold fetchData.
  destruct (connected c) as [uid|] eqn:Hc.
  - split; [by destruct snapshot|]. split; [done|].
    split; [by intros e _ ->|]. split.
    + intros docs _ ->. simpl. split; [done|].
      split; [apply findItems_none|].
      intros before d after -> Hbefore Hid. by apply findItems_first.
    + intros updatedAt writes items _ -> Hnd Hin Htruthy. simpl.
      apply in_split in Hin as (l1 & l2 & ->).
      unfold written. rewrite map_app. simpl.
      rewrite findItems_first.
      * simpl. rewrite lookup_insert_eq. by rewrite Htruthy.
      * intros d' Hd' Hid. apply in_map_iff in Hd' as ([k v] & <- & Hk).
        simpl in Hid. subst k.
        rewrite map_app in Hnd. simpl in Hnd.
        apply NoDup_app in Hnd as (_ & Hcross & _).
        apply (Hcross collectionName).
        -- apply list_elem_of_In. by apply (in_map fst) in Hk.
        -- by left.
      * done.
  - simpl. split; [done|]. split; [done|].
    split; [by intros e [? ?]|]. split; [by intros docs [? ?]|].
    by intros updatedAt writes items [? ?].
Qed.
End Reset.

Lemma resetAllData_deletes_every_document_witness :
  let deleted := fun name => if String.eqb name "customers"
                             then Rejected FirebaseError else Resolved in
  let result :=
    resetAllData (mkConn true (Some "uid"))
      (Normal [sampleDoc "customers" (JArr []); sampleDoc "products" (JArr [])])
      deleted (sampleState (mkStorage None ∅)) in
  remoteCalls result.1
  = [GetDocs "uid"; DeleteDoc "uid" "customers"; DeleteDoc "uid" "products"]
  /\ result.2 <> Resolved.
Proof.
  intros deleted result.
  destruct (resetAllData_deletes_every_document (mkConn true (Some "uid"))
              (Normal [sampleDoc "customers" (JArr []);
                       sampleDoc "products" (JArr [])])
              deleted (sampleState (mkStorage None ∅)))
    as (_ & _ & Hcalls & _).
  destruct (Hcalls "uid" _ eq_refl eq_refl) as [Hsent Hiff].
  split; [exact Hsent|].
  intros Hok.
  pose proof (proj1 Hiff Hok (sampleDoc "customers" (JArr []))
                (or_introl eq_refl)) as Hdel.
  discriminate Hdel.
Defined.

Lemma fetchData_returns_items_or_null_witness :
  fetched (fetchData (mkConn true (Some "uid"))
             (Normal (written JNull [("products", JArr [JNum 1]);
                                     ("customers", JArr [])]))
             "customers" (sampleState (mkStorage None ∅))).2
  = Some (JArr [])
  /\ fetched (fetchData (mkConn true (Some "uid"))
                (Normal [sampleDoc "products" JNull])
                "products" (sampleState (mkStorage None ∅))).2
     = None.
Proof.
  split.
  - destruct (fetchData_returns_items_or_null (mkConn true (Some "uid"))
                (Normal (written JNull [("products", JArr [JNum 1]);
                                        ("customers", JArr [])]))
                "customers" (sampleState (mkStorage None ∅)))
      as (_ & _ & _ & _ & Hback).
    apply (Hback JNull [("products", JArr [JNum 1]); ("customers", JArr [])]
                 (JArr []));
      [by eexists | done | | simpl; auto | done].
    apply (bool_decide_unpack _). vm_compute. reflexivity.
  - destruct (fetchData_returns_items_or_null (mkConn true (Some "uid"))
                (Normal [sampleDoc "products" JNull])
                "products" (sampleState (mkStorage None ∅)))
      as (_ & _ & _ & Hdocs & _).
    destruct (Hdocs _ ltac:(by eexists) eq_refl) as (_ & _ & Hfirst).
    etransitivity;
      [apply (Hfirst [] (sampleDoc "products" JNull) []); done|].
    reflexivity.
Defined.

Section SaveThenFetch.
Variable quota : LocalStorage -> bool.

(** X12. What [saveData] writes, [fetchData] reads.  Take a connection, a
    user and a commit that resolves.  When no record holds [undefined]
    anywhere, [saveData] sends one batch with the records as
    [JSON.stringify] shows them, ends with the status synced and the time of
    the last sync the present one, and queues nothing; [fetchData] of the
    same collection on the documents of that batch returns what was sent,
    and [fetchData] of another collection returns null.  Records that were
    read from text are of this kind, and what is sent is what was read.
    When a record holds [undefined], [batch.set] throws: nothing is sent,
    the save is queued with the records as [JSON.stringify] shows them, the
    count goes up by one, the failure is notified and the status ends
    offline. *)
Theorem saveData_then_fetchData (c : Connection) (uid uuid : string) (now : Z)
    (collectionName : string) (records : list Value) (st : SyncState) :
  connected c = Some uid ->
  let st1 :=
    (saveData quota c uuid now Resolved collectionName records st).1 in
  let sent :=
    JArr (List.map (fun record =>
                      match JSON_image record with
                      | Some j => j
                      | None => JNull
                      end) records) in
  let writes := [(collectionName, sent)] in
  (forallb defined records = true ->
   remoteCalls st1 = remoteCalls st ++ [BatchCommit uid writes]
   /\ status st1 = synced /\ lastSynced st1 = Some now
   /\ getQueuedOperations (localStorage st1)
      = getQueuedOperations (localStorage st)
   /\ pendingOperations st1 = pendingOperations st
   /\ toasts st1 = toasts st
   /\ forall updatedAt other,
        fetched (fetchData c (Normal (written updatedAt writes))
                           collectionName st1).2
        = Some sent
        /\ (other <> collectionName ->
            fetched (fetchData c (Normal (written updatedAt writes))
                               other st1).2
            = None))
  /\ (forall parsed, records = List.map ofJson parsed ->
        forallb defined records = true /\ sent = JArr parsed)
  /\ (forallb defined records = false ->
      remoteCalls st1 = remoteCalls st
      /\ status st1 = offline /\ lastSynced st1 = lastSynced st
      /\ pendingOperations st1 = pendingOperations st + 1
      /\ toasts st1 = toasts st ++ [SaveFailedQueued]
      /\ localStorage st1
         = queueOperation quota uuid now
             {| in_type := save; in_collection := Some collectionName;
                in_data := sent |}
             (localStorage st)).
Proof.
  intros Hc st1 sent writes. subst st1.
  assert (Hsent : JSON_array records = sent).
  { reflexivity. }
  unfold saveData, saveDataInternal_begin, saveDataInternal_end, fetchData.
  rewrite Hc, firestoreValue_array, Hsent.
  split; [|split].
  - intros ->. simpl. do 6 (split; [done|]).
    intros updatedAt other. rewrite String.eqb_refl.
    rewrite lookup_insert_eq. simpl. split; [done|]. intros Hother.
    by destruct (String.eqb_spec collectionName other).
  - intros parsed ->. split.
    + rewrite forallb_forall. intros v Hv.
      apply in_map_iff in Hv as (j & <- & _). apply ofJson_defined.
    + unfold sent. f_equal. rewrite map_map.
      rewrite <- (map_id parsed) at 2. apply map_ext. intros j.
      by rewrite ofJson_image.
  - intros ->. done.
Qed.
End SaveThenFetch.

Lemma saveData_then_fetchData_witness :
  let c := mkConn true (Some "uid") in
  let st1 := (saveData (fun _ => true) c "id-1" 7 Resolved "products"
                       [VNum 1] (sampleState (mkStorage None ∅))).1 in
  fetched (fetchData c (Normal (written JNull [("products", JArr [JNum 1])]))
                     "products" st1).2
  = Some (JArr [JNum 1])
  /\ remoteCalls
       (saveData (fun _ => true) c "id-1" 7 Resolved "products"
                 [VObj [("name", VStr "shirt"); ("link", VUndefined)]]
                 (sampleState (mkStorage None ∅))).1
     = [].
Proof.
  intros c st1. split.
  - destruct (saveData_then_fetchData (fun _ => true) c "uid" "id-1" 7
                "products" [VNum 1] (sampleState (mkStorage None ∅)) eq_refl)
      as (Hback & _ & _).
    destruct (Hback eq_refl) as (_ & _ & _ & _ & _ & _ & Hfetch).
    apply (Hfetch JNull "").
  - destruct (saveData_then_fetchData (fun _ => true) c "uid" "id-1" 7
                "products"
                [VObj [("name", VStr "shirt"); ("link", VUndefined)]]
                (sampleState (mkStorage None ∅)) eq_refl)
      as (_ & _ & Hthrown).
    by destruct (Hthrown eq_refl) as (-> & _).
Defined.

(** ** SyncContext.tsx: the pending count *)

Section Pending.
Variable quota : LocalStorage -> bool.

Lemma persistQueue_length operations ls :
  (length operations <= length (getQueuedOperations ls))%nat ->
  (length (getQueuedOperations (persistQueue quota operations ls))
   <= length (getQueuedOperations ls))%nat.
Proof.
  intros Hlen.
  by destruct (persistQueue_queue quota operations ls) as [-> | ->].
Qed.

Lemma dequeue_covered i st : covered st -> covered (dequeue quota i st).
Proof.
  unfold covered, dequeue, removeFromQueue. simpl. intros Hcov.
  pose proof (persistQueue_length
                (List.filter (fun op => negb (String.eqb (id op) i))
                             (getQueuedOperations (localStorage st)))
                (localStorage st) (filter_length_le _ _)).
  lia.
Qed.

Lemma bumpRetry_covered i st : covered st -> covered (bumpRetry quota i st).
Proof.
  unfold covered, bumpRetry, incrementRetryCount. simpl. intros Hcov.
  match goal with |- context [persistQueue quota ?ops _] =>
    pose proof (persistQueue_length ops (localStorage st)) as Hlen
  end.
  rewrite length_map in Hlen. specialize (Hlen (le_n _)). lia.
Qed.

Lemma enqueue_grows uuid now op st :
  (length (getQueuedOperations (localStorage (enqueue quota uuid now op st)))
   <= S (length (getQueuedOperations (localStorage st))))%nat.
Proof.
  unfold enqueue, queueOperation. simpl.
  match goal with |- context [persistQueue quota ?ops ?ls] =>
    destruct (persistQueue_queue quota ops ls) as [-> | ->]; [|lia]
  end.
  rewrite length_app. simpl. case_bool_decide; [|lia].
  unfold shift. destruct (getQueuedOperations (localStorage st)); simpl; lia.
Qed.

Lemma iteration_begin_covered c op st :
  covered st -> covered (iteration_begin quota c op st).1.
Proof.
  intros Hcov. unfold iteration_begin, saveDataInternal_begin.
  rewrite ?firestoreValue_ofJson.
  destruct (negb (shouldRetry op)); [by apply dequeue_covered|].
  destruct (replayTarget op); [|done].
  destruct (connected c); [done | by apply bumpRetry_covered].
Qed.

Lemma iteration_end_covered now commit op n st :
  covered st -> covered (iteration_end quota now commit op n st).1.
Proof.
  intros Hcov. unfold iteration_end, saveDataInternal_end.
  destruct commit; simpl; [by apply dequeue_covered | by apply bumpRetry_covered].
Qed.

Lemma drainEpilogue_exact n st :
  pendingOperations (drainEpilogue n st)
  = Z.of_nat (length (getQueuedOperations (localStorage (drainEpilogue n st)))).
Proof. unfold drainEpilogue. by destruct (0 <? n). Qed.

(** When the loop is over the count is exact; while a call is suspended it
    covers the queue. *)
Lemma drainLoop_covered c operations : forall i n st,
  covered st ->
  let result := drainLoop quota c i operations n st in
  covered result.1
  /\ (result.2 = Finished ->
      pendingOperations result.1
      = Z.of_nat (length (getQueuedOperations (localStorage result.1)))).
Proof.
  induction operations as [|op operations IH]; intros i n st Hcov.
  - cbn [drainLoop fst snd]. pose proof (drainEpilogue_exact n st) as Hexact.
    split; [unfold covered; lia | done].
  - simpl. pose proof (iteration_begin_covered c op st Hcov) as Hcov1.
    destruct (iteration_begin quota c op st) as [st1 [|]]; simpl in *.
    + split; [done | done].
    + by apply IH.
Qed.

Lemma getQueuedOperations_queueItem ls ls' :
  queueItem ls' = queueItem ls ->
  getQueuedOperations ls' = getQueuedOperations ls.
Proof. unfold getQueuedOperations, readQueue. by intros ->. Qed.

Lemma sync_keeps_queue c now commit st :
  getQueuedOperations (localStorage (sync c now commit st).1)
  = getQueuedOperations (localStorage st)
  /\ pendingOperations (sync c now commit st).1 = pendingOperations st.
Proof.
  unfold sync. destruct (connected c); [|done]. cbv zeta.
  destruct (collectBatch (localStorage (setStatus syncing st))
                         STORAGE_KEYS_entries []); [|done].
  by destruct commit.
Qed.

Lemma restore_keeps_queue c now snapshot st :
  getQueuedOperations (localStorage (restore quota c now snapshot st).1)
  = getQueuedOperations (localStorage st)
  /\ pendingOperations (restore quota c now snapshot st).1
     = pendingOperations st.
Proof.
  unfold restore. destruct (connected c) as [uid|]; [|done]. cbv zeta.
  destruct snapshot as [docs|e]; [|done].
  change (localStorage (request (GetDocs uid) (setStatus syncing st)))
    with (localStorage st).
  destruct (restoreDocs quota docs (localStorage st)) as [ls failure] eqn:Hrun.
  assert (Hq : queueItem ls = queueItem (localStorage st)).
  { destruct docs as [|d docs]; [by simplify_eq/=|].
    assert (Hall : forall docs ls0 ls1 f,
              restoreDocs quota docs ls0 = (ls1, f) ->
              queueItem ls1 = queueItem ls0).
    { clear. intros docs. induction docs as [|d docs IH];
        intros ls0 ls1 f Hrun; [by simplify_eq/=|].
      simpl in Hrun. destruct (restoreDoc quota d ls0) as [ls2|e] eqn:Hd;
        [|by simplify_eq].
      rewrite (IH _ _ _ Hrun).
      by destruct (restoreDoc_lookup quota d ls0 ls2 "" Hd). }
    by apply (Hall _ _ _ _ Hrun). }
  destruct failure; simpl; (split; [by apply getQueuedOperations_queueItem|done]).
Qed.

Lemma resetAllData_keeps_queue c snapshot deleted st :
  getQueuedOperations (localStorage (resetAllData c snapshot deleted st).1)
  = getQueuedOperations (localStorage st)
  /\ pendingOperations (resetAllData c snapshot deleted st).1
     = pendingOperations st.
Proof.
  unfold resetAllData. destruct (connected c) as [uid|]; [|done]. cbv zeta.
  destruct snapshot as [docs|e]; [|done].
  pose proof (requests_fold uid docs
                (request (GetDocs uid) (setStatus syncing st)))
    as (_ & Hls & _ & _ & _ & Hpending).
  cbv zeta in *.
  destruct (Promise_all _); simpl; by rewrite Hls, Hpending.
Qed.

(** X13. The pending count never falls short of the queue.  The effect run
    at mount makes [pendingOperations] the length of the listed queue;
    [saveData], [processQueue] up to its await and after it, [sync],
    [restore], [resetAllData] and [fetchData] keep it at least that length,
    whatever the remote store and the browser do; and a call of
    [processQueue] that has gone through the queue leaves it equal to the
    length.  Hence, with operations queued and the provider connected, the
    effect that watches the connection does call [processQueue]. *)
Theorem pendingOperations_covers_queue :
  (forall st, covered (mountPending st))
  /\ (forall c uuid now commit name records st,
        covered st ->
        covered (saveData quota c uuid now commit name records st).1)
  /\ (forall c st, covered st ->
        let result := processQueue quota c st in
        covered result.1
        /\ (result.2 = Finished -> result.1 <> st ->
            pendingOperations result.1
            = Z.of_nat
                (length (getQueuedOperations (localStorage result.1)))))
  /\ (forall now commit d st, covered st ->
        let result := processQueue_resume quota now commit d st in
        covered result.1
        /\ (result.2 = Finished ->
            pendingOperations result.1
            = Z.of_nat
                (length (getQueuedOperations (localStorage result.1)))))
  /\ (forall c now commit st, covered st -> covered (sync c now commit st).1)
  /\ (forall c now snapshot st,
        covered st -> covered (restore quota c now snapshot st).1)
  /\ (forall c snapshot deleted st,
        covered st -> covered (resetAllData c snapshot deleted st).1)
  /\ (forall c snapshot name st,
        covered st -> covered (fetchData c snapshot name st).1)
  /\ (forall c st,
        covered st -> getQueuedOperations (localStorage st) <> [] ->
        reconnectEffect quota true c st = processQueue quota c st).
Proof.
  split; [|split; [|split; [|split; [|split; [|split; [|split; [|split]]]]]]].
  - intros st. unfold covered, mountPending. simpl. lia.
  - intros c uuid now commit name records st Hcov.
    unfold saveData, saveDataInternal_begin, saveDataInternal_end.
    set (op := mkInput save (Some name) (JSON_array records)).
    destruct (connected c) as [uid|];
      [destruct (firestoreValue (VArr records)); [destruct commit as [|e]|]|];
      cbn -[enqueue]; unfold covered in *; cbn -[enqueue].
    + done.
    + match goal with |- context [enqueue quota uuid now op ?s] =>
        pose proof (enqueue_grows uuid now op s) as Hgrow
      end. simpl in Hgrow. simpl. lia.
    + match goal with |- context [enqueue quota uuid now op ?s] =>
        pose proof (enqueue_grows uuid now op s) as Hgrow
      end. simpl in Hgrow. simpl. lia.
    + pose proof (enqueue_grows uuid now op st) as Hgrow.
      simpl in Hgrow. simpl. lia.
  - intros c st Hcov result. subst result. unfold processQueue.
    destruct (connected c); [|done].
    destruct (isProcessingQueue st); [done|].
    case_bool_decide; [done|].
    destruct (drainLoop_covered c (getQueuedOperations (localStorage st))
                0%nat 0 (setProcessing true st) Hcov) as [Hcov' Hexact].
    split; [done|]. intros Hfin _. by apply Hexact.
  - intros now commit d st Hcov result. subst result.
    unfold processQueue_resume.
    pose proof (iteration_end_covered now commit (current d) (successCount d)
                  st Hcov) as Hcov1.
    destruct (iteration_end quota now commit (current d) (successCount d) st)
      as [st1 n]. by apply drainLoop_covered.
  - intros c now commit st Hcov. unfold covered in *.
    destruct (sync_keeps_queue c now commit st) as [-> ->]. done.
  - intros c now snapshot st Hcov. unfold covered in *.
    destruct (restore_keeps_queue c now snapshot st) as [-> ->]. done.
  - intros c snapshot deleted st Hcov. unfold covered in *.
    destruct (resetAllData_keeps_queue c snapshot deleted st) as [-> ->].
    done.
  - intros c snapshot name st Hcov. unfold covered, fetchData in *.
    destruct (connected c); [|done]. by destruct snapshot.
  - intros c st Hcov Hqueue. unfold reconnectEffect. simpl.
    unfold covered in Hcov.
    destruct (getQueuedOperations (localStorage st)) as [|op l]; [done|].
    simpl in Hcov. rewrite (proj2 (Z.ltb_lt _ _)) by lia. done.
Qed.
End Pending.

Lemma pendingOperations_covers_queue_witness :
  let st := mountPending (sampleState
                            (mkStorage (Some (Valid [sampleOp "b" 0])) ∅)) in
  reconnectEffect (fun _ => true) true (mkConn true (Some "uid")) st
  = processQueue (fun _ => true) (mkConn true (Some "uid")) st.
Proof.
  intros st.
  destruct (pendingOperations_covers_queue (fun _ => true))
    as (Hmount & _ & _ & _ & _ & _ & _ & _ & Heffect).
  apply Heffect; [apply Hmount | discriminate].
Defined.

(** ** pages/Settings.tsx *)

Section SettingsPageFacts.
Variable quota : LocalStorage -> bool.

(** X14. [handleSync] always reports success: whatever [sync] met, the page
    raises "Sync complete" and never "Sync failed", also when [sync] itself
    has just raised its failure notification and left the status offline. *)
Theorem handleSync_always_reports_success (c : Connection) (now : Z)
    (commit : Settled) (p : SettingsPage) :
  let p' := handleSync c now commit p in
  pageToasts p' = pageToasts p ++ [PageSyncComplete]
  /\ isSyncing p' = false
  /\ provider p' = (sync c now commit (provider p)).1
  /\ (status (provider p') <> synced ->
      status (provider p') = offline
      /\ exists t, toasts (provider p') = toasts (provider p) ++ [t]
                   /\ t <> SyncComplete).
Proof.
  intros p'. subst p'. unfold handleSync. cbv zeta.
  change (provider (setIsSyncing true p)) with (provider p).
  destruct (sync c now commit (provider p)) as [st outcome] eqn:Hsync.
  assert (Hres : outcome = Resolved).
  { change outcome with (st, outcome).2. rewrite <- Hsync.
    unfold sync. destruct (connected c); [|done]. cbv zeta.
    destruct (collectBatch _ _ _); [|done]. by destruct commit. }
  subst outcome. simpl. do 3 (split; [done|]).
  change st with (st, Resolved).1. rewrite <- Hsync. clear Hsync.
  unfold sync. destruct (connected c); cbv zeta.
  - destruct (collectBatch _ _ _); [destruct commit|]; simpl; intros Hne;
      first [done | split; [done|]; eexists; split; [done|]; discriminate].
  - simpl. intros _. split; [done|]. eexists. split; [done|]. discriminate.
Qed.
End SettingsPageFacts.

Lemma handleSync_always_reports_success_witness :
  let p := mkSettings (sampleState (mkStorage None ∅)) [] false false false
                      [] false false in
  let p' := handleSync (mkConn false None) 0 Resolved p in
  pageToasts p' = [PageSyncComplete]
  /\ toasts (provider p') = [SyncNoConnection].
Proof.
  intros p p'.
  destruct (handleSync_always_reports_success (mkConn false None) 0 Resolved p)
    as (Hpage & _ & _ & Hfailed).
  split; [exact Hpage|].
  destruct Hfailed as (_ & t & Ht & _); [discriminate|].
  reflexivity.
Defined.

Section ResetPage.
Variable quota : LocalStorage -> bool.

Lemma requests_keep_reloads uid (docs : list DocSnapshot) :
  forall st : SyncState,
  reloads (fold_left (fun st d => request (DeleteDoc uid (doc_id d)) st)
                     docs st)
  = reloads st.
Proof.
  induction docs as [|d docs IH]; intros st; [done|].
  cbn [fold_left]. by rewrite IH.
Qed.

(** X15. [handleReset] clears the local data only after the cloud data.
    When the page is connected and [resetAllData] rejects, [localStorage],
    the account list and the page are left as they were and "Reset failed"
    is raised.  Otherwise the four collections and the stored queue are
    removed from [localStorage], every other entry is kept, the account list
    is emptied and the page reloads.  When the page is not connected no
    request is sent, and since the queue is gone a later drain finds nothing
    to send either. *)
Theorem handleReset_clears_local_after_cloud (isConnected : bool)
    (c : Connection) (snapshot : Completion (list DocSnapshot))
    (deleted : string -> Settled) (p : SettingsPage) :
  let p' := handleReset isConnected c snapshot deleted p in
  let cloud := resetAllData c snapshot deleted (provider p) in
  let collections := ["wyrd-ledger-products"; "wyrd-ledger-customers";
                      "wyrd-ledger-settings"; "wyrd-ledger-bank-accounts"] in
  isResetting p' = false
  /\ (forall e, isConnected = true -> cloud.2 = Rejected e ->
        localStorage (provider p') = localStorage (provider p)
        /\ reloads (provider p') = reloads (provider p)
        /\ bankAccounts p' = bankAccounts p
        /\ pageToasts p' = pageToasts p ++ [ResetFailed])
  /\ (isConnected = false \/ cloud.2 = Resolved ->
        queueItem (localStorage (provider p')) = None
        /\ (forall key, In key collections ->
              dataItems (localStorage (provider p')) !! key = None)
        /\ (forall key, ~ In key collections ->
              dataItems (localStorage (provider p')) !! key
              = dataItems (localStorage (provider p)) !! key)
        /\ reloads (provider p') = S (reloads (provider p))
        /\ bankAccounts p' = []
        /\ pageToasts p' = pageToasts p ++ [DataResetComplete isConnected])
  /\ (isConnected = false ->
        remoteCalls (provider p') = remoteCalls (provider p)
        /\ forall c' remote clock,
             processQueue_run quota c' remote clock (provider p')
             = provider p').
Proof.
  intros p' cloud collections. subst p' cloud. unfold handleReset. cbv zeta.
  change (provider (setIsResetting true p)) with (provider p).
  assert (Hls : localStorage (resetAllData c snapshot deleted (provider p)).1
                = localStorage (provider p)).
  { unfold resetAllData. destruct (connected c) as [uid|]; [|done]. cbv zeta.
    destruct snapshot as [docs|e]; [|done].
    pose proof (requests_fold uid docs
                  (request (GetDocs uid) (setStatus syncing (provider p))))
      as (_ & Hls & _). cbv zeta in Hls.
    destruct (Promise_all _); simpl; by rewrite Hls. }
  assert (Hreloads : reloads (resetAllData c snapshot deleted (provider p)).1
                     = reloads (provider p)).
  { unfold resetAllData. destruct (connected c) as [uid|]; [|done]. cbv zeta.
    destruct snapshot as [docs|e]; [|done].
    destruct (Promise_all _); simpl; by rewrite requests_keep_reloads. }
  assert (Hcleared : forall st,
            localStorage st = localStorage (provider p) ->
            let ls :=
              removeQueueItem
                (removeItem BANK_ACCOUNTS_KEY
                   (removeItem "wyrd-ledger-settings"
                      (removeItem "wyrd-ledger-customers"
                         (removeItem "wyrd-ledger-products"
                            (localStorage st))))) in
            queueItem ls = None
            /\ (forall key, In key collections -> dataItems ls !! key = None)
            /\ (forall key, ~ In key collections ->
                  dataItems ls !! key
                  = dataItems (localStorage (provider p)) !! key)).
  { intros st ->. simpl. split; [done|]. split.
    - intros key [<-|[<-|[<-|[<-|[]]]]]; unfold BANK_ACCOUNTS_KEY;
        by simplify_map_eq.
    - intros key Hnot. unfold BANK_ACCOUNTS_KEY.
      rewrite !lookup_delete_ne; [done|..];
        intros <-; apply Hnot; simpl; auto. }
  destruct isConnected.
  - destruct (resetAllData c snapshot deleted (provider p)) as [st [|e]]
      eqn:Hcloud; simpl in Hls, Hreloads; simpl.
    + split; [done|]. split; [done|]. split.
      * intros _. destruct (Hcleared st Hls) as (Hq & Hin & Hout).
        rewrite Hreloads. done.
      * done.
    + split; [done|]. split; [by intros e' _ [= <-]|]. split; [|done].
      by intros [?|?].
  - simpl. split; [done|]. split; [done|]. split.
    + intros _. by destruct (Hcleared (provider p) eq_refl) as (Hq & Hin & Hout).
    + intros _. split; [done|]. intros c' remote clock.
      unfold processQueue_run. simpl. destruct (connected c'); [|done].
      by destruct (isProcessingQueue (provider p)).
Qed.
End ResetPage.

Lemma handleReset_clears_local_after_cloud_witness :
  let p := mkSettings
             (sampleState
                (mkStorage (Some (Valid [sampleOp "a" 0]))
                           {[ "wyrd-ledger-products" := Valid (JArr []) ]}))
             [] false false false [] false true in
  localStorage
    (provider (handleReset true (mkConn true (Some "uid"))
                           (Throw FirebaseError) (fun _ => Resolved) p))
  = localStorage (provider p)
  /\ queueItem
       (localStorage
          (provider (handleReset false (mkConn true (Some "uid"))
                                 (Throw FirebaseError) (fun _ => Resolved) p)))
     = None.
Proof.
  intros p. split.
  - destruct (handleReset_clears_local_after_cloud (fun _ => true) true
                (mkConn true (Some "uid")) (Throw FirebaseError)
                (fun _ => Resolved) p) as (_ & Hfail & _).
    apply (Hfail FirebaseError eq_refl eq_refl).
  - destruct (handleReset_clears_local_after_cloud (fun _ => true) false
                (mkConn true (Some "uid")) (Throw FirebaseError)
                (fun _ => Resolved) p) as (_ & _ & Hclear & _).
    apply Hclear. by left.
Defined.

Section BankAccounts.
Variable quota : LocalStorage -> bool.

(** X16. [saveBankAccountsWithSync] sends the accounts it has just stored.
    When the browser refuses the write of the accounts nothing is stored and
    no sync is started (the call rejects).  When it accepts, the accounts
    are stored under the bank accounts key and [sync] runs on the new
    storage: with a connection and a user and the other three collections
    readable, one batch is sent and its write for [bankAccounts] carries the
    accounts just saved.  Whatever happens then, the call resolves. *)
Theorem saveBankAccountsWithSync_sends_accounts (c : Connection) (now : Z)
    (commit : Settled) (accounts : list BankAccount) (st : SyncState) :
  let items := JArr (List.map accountJson accounts) in
  let result := saveBankAccountsWithSync quota c now commit accounts st in
  let stored :=
    mkStorage (queueItem (localStorage st))
              (<[BANK_ACCOUNTS_KEY := Valid items]>
                 (dataItems (localStorage st))) in
  (quota stored = false ->
     result.1 = st /\ result.2 = Rejected QuotaExceededError)
  /\ (quota stored = true ->
      result.2 = Resolved
      /\ localStorage result.1 = stored
      /\ forall uid, connected c = Some uid ->
           (forall key storageKey,
              In (key, storageKey) STORAGE_KEYS_entries ->
              storageKey <> BANK_ACCOUNTS_KEY ->
              dataItems (localStorage st) !! storageKey <> Some Corrupt) ->
           exists writes,
             remoteCalls result.1 = remoteCalls st ++ [BatchCommit uid writes]
             /\ In ("bankAccounts", items) writes).
Proof.
  intros items result stored. subst result.
  unfold saveBankAccountsWithSync, setItem, JSON_stringify.
  fold items. fold stored. split.
  - intros ->. done.
  - intros ->.
    assert (Hres : (sync c now commit (setStorage stored st)).2 = Resolved
                   /\ localStorage (sync c now commit (setStorage stored st)).1
                      = stored).
    { unfold sync. destruct (connected c); [|done]. cbv zeta.
      destruct (collectBatch _ _ _); [|done]. by destruct commit. }
    destruct (sync c now commit (setStorage stored st)) as [st' outcome]
      eqn:Hsync.
    simpl in Hres. destruct Hres as [-> Hls]. simpl.
    split; [done|]. split; [done|].
    intros uid Hc Hparse.
    assert (Hparse' : forall key storageKey,
              In (key, storageKey) STORAGE_KEYS_entries ->
              dataItems stored !! storageKey <> Some Corrupt).
    { intros key storageKey Hin. subst stored. simpl.
      destruct (decide (storageKey = BANK_ACCOUNTS_KEY)) as [->|Hne].
      - by rewrite lookup_insert_eq.
      - rewrite lookup_insert_ne by done. by apply (Hparse key). }
    exists (omap (batchWrite stored) STORAGE_KEYS_entries).
    change st' with (st', Resolved).1. rewrite <- Hsync.
    split.
    + unfold sync. rewrite Hc. cbv zeta.
      change (localStorage (setStatus syncing (setStorage stored st)))
        with stored.
      rewrite (collectBatch_closed _ _ [] Hparse'). by destruct commit.
    + apply list_elem_of_In, list_elem_of_omap.
      exists ("bankAccounts", BANK_ACCOUNTS_KEY). split.
      * apply list_elem_of_In. simpl. auto 6.
      * unfold batchWrite. subst stored. simpl.
        by rewrite lookup_insert_eq.
Qed.
End BankAccounts.

Lemma saveBankAccountsWithSync_sends_accounts_witness :
  let st := sampleState (mkStorage None ∅) in
  let result :=
    saveBankAccountsWithSync (fun _ => true) (mkConn true (Some "uid")) 0
                             Resolved [sampleAccount "1" true] st in
  remoteCalls result.1
  = [BatchCommit "uid"
       [("bankAccounts", JArr [accountJson (sampleAccount "1" true)])]].
Proof.
  intros st result.
  destruct (saveBankAccountsWithSync_sends_accounts (fun _ => true)
              (mkConn true (Some "uid")) 0 Resolved [sampleAccount "1" true]
              st) as (_ & Haccepted).
  destruct (Haccepted eq_refl) as (_ & _ & Hsent).
  destruct (Hsent "uid" eq_refl) as (writes & Hcalls & _).
  - intros key storageKey _ _. vm_compute. discriminate.
  - reflexivity.
Defined.

Section AccountList.

Lemma filter_map_le (f : BankAccount -> BankAccount)
    (accounts : list BankAccount) :
  (forall a, f a = a \/ isDefault (f a) = false) ->
  (length (List.filter isDefault (List.map f accounts))
   <= length (List.filter isDefault accounts))%nat.
Proof.
  intros Hf. induction accounts as [|a accounts IH]; simpl; [done|].
  destruct (Hf a) as [-> | ->]; destruct (isDefault a); simpl; lia.
Qed.

Lemma filter_none {A} (f : A -> bool) (l : list A) :
  (forall x, In x l -> f x = false) -> List.filter f l = [].
Proof.
  induction l as [|x l IH]; intros Hf; [done|]. simpl.
  rewrite (Hf x (or_introl eq_refl)). apply IH. intros y Hy. apply Hf.
  by right.
Qed.

Lemma filter_id_at_most_one (i : string) (accounts : list BankAccount) :
  NoDup (List.map accountId accounts) ->
  (length (List.filter (fun a => String.eqb (accountId a) i) accounts)
   <= 1)%nat.
Proof.
  induction accounts as [|a accounts IH]; simpl; [lia|].
  intros [Hfresh Hnd]%NoDup_cons.
  destruct (String.eqb_spec (accountId a) i) as [Heq|Hne]; [|by apply IH].
  simpl. assert (List.filter (fun a => String.eqb (accountId a) i) accounts
                 = []) as ->; [|simpl; lia].
  apply filter_none. intros a' Hin.
  destruct (String.eqb_spec (accountId a') i) as [Heq'|]; [|done].
  exfalso. apply Hfresh. rewrite Heq, <- Heq'.
  apply list_elem_of_In. by apply in_map.
Qed.

(** X17. The account handlers keep the account ids distinct and at most one
    account default.  [handleSaveAccount] adding an account under a stamp
    that is not yet an id, or editing an account with a non-empty id;
    [handleDeleteAccount]; and [handleSetDefault], after which, ids being
    distinct, the default accounts are exactly those of the chosen id.
    Editing does not keep the default flag: in a list that is not empty the
    edited account is not default afterwards, whatever it was before. *)
Theorem account_handlers_keep_one_default (accounts : list BankAccount) :
  NoDup (List.map accountId accounts) ->
  oneDefault accounts ->
  (forall stamp form,
     ~ In stamp (List.map accountId accounts) ->
     let accounts' := savedAccounts stamp form None accounts in
     NoDup (List.map accountId accounts') /\ oneDefault accounts'
     /\ length accounts' = S (length accounts))
  /\ (forall stamp form editing,
        accountId editing <> "" ->
        let accounts' := savedAccounts stamp form (Some editing) accounts in
        List.map accountId accounts' = List.map accountId accounts
        /\ oneDefault accounts'
        /\ forall a, In a accounts' -> accountId a = accountId editing ->
                     isDefault a = false /\ accountForm a = form)
  /\ (forall account,
        let accounts' := accountsWithout account accounts in
        NoDup (List.map accountId accounts') /\ oneDefault accounts'
        /\ forall a, In a accounts' -> accountId a <> accountId account)
  /\ (forall account,
        let accounts' := accountsWithDefault account accounts in
        List.map accountId accounts' = List.map accountId accounts
        /\ oneDefault accounts'
        /\ forall a, In a accounts' ->
             isDefault a = String.eqb (accountId a) (accountId account)).
Proof.
  intros Hnd Hone. split; [|split; [|split]].
  - intros stamp form Hfresh accounts'. subst accounts'.
    unfold savedAccounts, oneDefault in *.
    rewrite map_app, List.filter_app, !length_app. simpl.
    split; [|split; [|lia]].
    + apply NoDup_app. split; [done|]. split; [|apply NoDup_singleton].
      intros i Hi [->|[]]%list_elem_of_In. by apply Hfresh, list_elem_of_In.
    + case_bool_decide as Hempty; simpl; [|lia].
      apply length_zero_iff_nil in Hempty. subst accounts. simpl. lia.
  - intros stamp form editing Hid accounts'. subst accounts'.
    unfold savedAccounts, oneDefault in *.
    destruct (String.eqb_spec (accountId editing) "") as [|_]; [done|].
    split; [|split].
    + rewrite map_map. apply map_ext_in. intros a _.
      by destruct (String.eqb_spec (accountId a) (accountId editing)).
    + destruct accounts as [|a0 accounts]; [simpl; lia|].
      etransitivity; [apply filter_map_le|exact Hone].
      intros a. destruct (String.eqb (accountId a) (accountId editing)); auto.
    + intros a Hin Ha. apply in_map_iff in Hin as (a' & <- & Hin).
      destruct (String.eqb_spec (accountId a') (accountId editing))
        as [_|Hne]; [|done].
      simpl. split; [|done]. apply bool_decide_eq_false.
      by destruct accounts.
  - intros account accounts'. subst accounts'.
    unfold accountsWithout, oneDefault in *.
    set (keep := fun a => negb (String.eqb (accountId a) (accountId account))).
    assert (Hsub : List.filter keep accounts `sublist_of` accounts).
    { clear. induction accounts as [|a accounts IH]; simpl; [done|].
      destruct (keep a); by constructor. }
    split; [|split].
    + eapply sublist_NoDup; [exact Hnd|].
      clear -Hsub. induction Hsub; simpl; by constructor.
    + etransitivity; [|exact Hone]. apply sublist_length.
      clear -Hsub. induction Hsub as [|a l k _ IH|a l k _ IH]; simpl; [done| |].
      * destruct (isDefault a); [by constructor | done].
      * destruct (isDefault a); [by constructor | done].
    + intros a [_ Hkeep]%filter_In. unfold keep in Hkeep.
      by destruct (String.eqb_spec (accountId a) (accountId account)).
  - intros account accounts'. subst accounts'.
    unfold accountsWithDefault, oneDefault in *. split; [|split].
    + rewrite map_map. by apply map_ext.
    + etransitivity; [|apply (filter_id_at_most_one (accountId account) _ Hnd)].
      clear. induction accounts as [|a accounts IH]; simpl; [done|].
      destruct (String.eqb (accountId a) (accountId account)); simpl; lia.
    + intros a Hin. by apply in_map_iff in Hin as (a' & <- & _).
Qed.
End AccountList.

Lemma account_handlers_keep_one_default_witness :
  let accounts := [sampleAccount "1" true; sampleAccount "2" false] in
  oneDefault (savedAccounts "3" (mkForm "" "" "" "" "" "" "" "") None accounts)
  /\ List.map isDefault
       (savedAccounts "9" (mkForm "" "" "" "" "" "" "" "")
                      (Some (sampleAccount "1" true)) accounts)
     = [false; false].
Proof.
  intros accounts.
  assert (Hnd : NoDup (List.map accountId accounts))
    by (apply (bool_decide_unpack _); vm_compute; reflexivity).
  assert (Hone : oneDefault accounts) by (unfold oneDefault; simpl; lia).
  destruct (account_handlers_keep_one_default accounts Hnd Hone)
    as (Hadd & _).
  split.
  - apply (Hadd "3"). intros [H|[H|[]]]; discriminate H.
  - reflexivity.
Defined.

(** ** pages/Products.tsx *)

Section ProductList.
Variable trim : string -> string.
Variable splitCommas : string -> list string.
Variable parseInt : string -> option Z.


End ProductList.


Section ProductsMirror.
Variable quota : LocalStorage -> bool.

Lemma optionalProperty_image name v :
  flat_map (fun '(k, x) => match JSON_image x with
                           | Some j => [(k, j)]
                           | None => []
                           end) (optionalProperty name v)
  = optionalField name v.
Proof. by destruct v. Qed.

(** The text of a product in memory is [productJson] of it. *)
Lemma productValue_image (p : Product) :
  JSON_image (productValue p) = Some (productJson p).
Proof.
  unfold productValue, productJson. cbn [JSON_image].
  rewrite !flat_map_app, !optionalProperty_image. cbn [app flat_map JSON_image].
  rewrite !map_map. cbn [JSON_image default from_option id].
  reflexivity.
Qed.

Lemma productValue_array (list : list Product) :
  JSON_array (List.map productValue list) = JArr (List.map productJson list).
Proof.
  unfold JSON_array. f_equal. rewrite map_map. apply map_ext. intros p.
  by rewrite productValue_image.
Qed.

Lemma forallb_defined_strings (l : list string) :
  forallb defined (List.map VStr l) = true.
Proof. by induction l. Qed.

(** A product in memory holds [undefined] exactly when one of its two
    optional properties does. *)
Lemma productValue_defined (p : Product) :
  defined (productValue p) = false
  <-> cargoCarrier p = Undefined \/ cargoTrackingLink p = Undefined.
Proof.
  unfold productValue. cbn [defined app forallb].
  rewrite !forallb_defined_strings. cbn [andb].
  destruct (cargoCarrier p), (cargoTrackingLink p); simpl;
    split; try done; try (by intros [?|?]); auto.
Qed.

Lemma productValues_defined (list : list Product) :
  forallb defined (List.map productValue list) = false
  <-> exists p, In p list
                /\ (cargoCarrier p = Undefined
                    \/ cargoTrackingLink p = Undefined).
Proof.
  induction list as [|p list IH]; cbn [List.map forallb].
  - split; [done | by intros (? & [] & _)].
  - rewrite andb_false_iff, IH, productValue_defined. split.
    + intros [Hp | (q & Hq & Hundefined)].
      * exists p. split; [by left | done].
      * exists q. split; [by right | done].
    + intros (q & [<- | Hq] & Hundefined); [by left|]. right. by exists q.
Qed.

(** X19. The effect that mirrors the product list.  When the browser
    refuses the local write the effect throws and nothing is sent or
    queued.  An emptied list is stored locally, when the browser accepts
    it, and is neither sent nor queued: the provider is not called at all.
    A list that is not empty is stored as text and handed to [saveData] as
    the page holds it.  With every browser write accepted: when a product
    of the list has an optional property that is [undefined], as
    [handleSave] leaves them for a blank carrier or tracking link, nothing
    is sent and the text of the list is the last entry of the queue, with
    the status offline and the failure notified when there is a connection
    and a user; when no product has one, the text of the list is either
    written to the cloud, the queue staying as it was, or is the last entry
    of the queue. *)
Theorem productsEffect_mirrors_unless_empty (c : Connection) (uuid : string)
    (now : Z) (commit : Settled) (list : list Product) (st : SyncState) :
  let text := JArr (List.map productJson list) in
  let stored :=
    mkStorage (queueItem (localStorage st))
              (<["wyrd-ledger-products" := Valid text]>
                 (dataItems (localStorage st))) in
  let holdsUndefined := fun p : Product =>
    cargoCarrier p = Undefined \/ cargoTrackingLink p = Undefined in
  let entry := {| id := uuid; type := save; collection := Some "products";
                  data := text; timestamp := now; retryCount := 0 |} in
  let result := productsEffect quota c uuid now commit list st in
  (quota stored = false -> result = Throw QuotaExceededError)
  /\ (quota stored = true -> list = [] ->
      result = Normal (setStorage stored st))
  /\ ((forall ls, quota ls = true) -> list <> [] ->
      exists st', result = Normal st'
        /\ dataItems (localStorage st') !! "wyrd-ledger-products"
           = Some (Valid text)
        /\ ((exists p, In p list /\ holdsUndefined p) ->
            remoteCalls st' = remoteCalls st
            /\ last (getQueuedOperations (localStorage st')) = Some entry
            /\ (is_Some (connected c) ->
                status st' = offline
                /\ toasts st' = toasts st ++ [SaveFailedQueued]))
        /\ ((forall p, In p list -> ~ holdsUndefined p) ->
            (exists uid,
               connected c = Some uid
               /\ remoteCalls st'
                  = remoteCalls st ++ [BatchCommit uid [("products", text)]]
               /\ commit = Resolved
               /\ getQueuedOperations (localStorage st')
                  = getQueuedOperations (localStorage st))
            \/ ((connected c = None \/ commit <> Resolved)
                /\ last (getQueuedOperations (localStorage st'))
                   = Some entry))).
Proof.
  intros text stored holdsUndefined entry result. subst result.
  unfold productsEffect, setItem, JSON_stringify.
  change PRODUCTS_STORAGE_KEY with "wyrd-ledger-products".
  fold text. fold stored.
  split; [by intros ->|]. split.
  - intros -> ->. done.
  - intros Hquota Hlist. rewrite Hquota.
    rewrite bool_decide_eq_true_2 by (destruct list; [done | simpl; lia]).
    eexists. split; [done|].
    unfold saveData, saveDataInternal_begin, saveDataInternal_end.
    rewrite firestoreValue_array, productValue_array. fold text.
    assert (Hstored : forall op,
              dataItems (queueOperation quota uuid now op stored)
              !! "wyrd-ledger-products" = Some (Valid text)).
    { intros op. unfold queueOperation. rewrite persistQueue_dataItems.
      subst stored. simpl. by rewrite lookup_insert_eq. }
    destruct (forallb defined (List.map productValue list)) eqn:Hdefined.
    + assert (Hnone : ~ exists p, In p list /\ holdsUndefined p).
      { intros Hsome%productValues_defined. congruence. }
      destruct (connected c) as [uid|]; [destruct commit as [|e]|];
        cbn -[queueOperation].
      * split; [subst stored; simpl; by rewrite lookup_insert_eq|].
        split; [done|]. intros _. left. exists uid. done.
      * split; [apply Hstored|]. split; [done|]. intros _. right.
        split; [by right|].
        rewrite queueOperation_queue by apply Hquota. by rewrite last_snoc.
      * split; [apply Hstored|]. split; [done|]. intros _. right.
        split; [by left|].
        rewrite queueOperation_queue by apply Hquota. by rewrite last_snoc.
    + assert (Hsome : exists p, In p list /\ holdsUndefined p)
        by by apply productValues_defined.
      destruct (connected c) as [uid|]; cbn -[queueOperation].
      * split; [apply Hstored|]. split.
        -- intros _. split; [done|]. split; [|done].
           rewrite queueOperation_queue by apply Hquota. by rewrite last_snoc.
        -- intros Hall. destruct Hsome as (p & Hp & Hundefined).
           by destruct (Hall p Hp).
      * split; [apply Hstored|]. split.
        -- intros _. split; [done|]. split; [|by intros [? ?]].
           rewrite queueOperation_queue by apply Hquota. by rewrite last_snoc.
        -- intros Hall. destruct Hsome as (p & Hp & Hundefined).
           by destruct (Hall p Hp).
Qed.
End ProductsMirror.

Lemma productsEffect_mirrors_unless_empty_witness :
  let st :=
    sampleState (mkStorage None
                   {[ "wyrd-ledger-products" := Valid (JArr [JNum 1]) ]}) in
  productsEffect (fun _ => true) (mkConn true (Some "uid")) "id-1" 0 Resolved
                 [] st
  = Normal (sampleState
              (mkStorage None {[ "wyrd-ledger-products" := Valid (JArr []) ]}))
  /\ exists st',
       productsEffect (fun _ => true) (mkConn true (Some "uid")) "id-1" 0
                      Resolved
                      [mkProduct "A" "shirt" [] [] 1 Undefined Undefined
                                 "t0" "t0"] st
       = Normal st'
       /\ remoteCalls st' = [] /\ status st' = offline.
Proof.
  intros st. split.
  - destruct (productsEffect_mirrors_unless_empty (fun _ => true)
                (mkConn true (Some "uid")) "id-1" 0 Resolved [] st)
      as (_ & Hempty & _).
    rewrite (Hempty eq_refl eq_refl). reflexivity.
  - destruct (productsEffect_mirrors_unless_empty (fun _ => true)
                (mkConn true (Some "uid")) "id-1" 0 Resolved
                [mkProduct "A" "shirt" [] [] 1 Undefined Undefined "t0" "t0"]
                st)
      as (_ & _ & Hlist).
    destruct Hlist as (st' & Hrun & _ & Hundefined & _); [done | done |].
    exists st'. split; [exact Hrun|].
    destruct Hundefined as (Hcalls & _ & Hstatus).
    + eexists. split; [by left | by left].
    + destruct Hstatus as [Hstatus _]; [by eexists|]. done.
Defined.

(** ** The stock of the ordered products *)



















(** ** The restore button and the steps of the order form *)

Section RestorePage.
Variable quota : LocalStorage -> bool.

(** X21. The restore button of the settings page reports what happened,
    unlike the sync button: it shows "Data restored" exactly when the
    provider is connected, the documents were read and every local write
    was accepted, and then the window is reloaded once, the status is
    synced and the provider has shown "Restore complete"; otherwise it
    shows "Restore failed", nothing is reloaded, the status is offline, the
    last-synced time is unchanged, and the provider has shown its own
    failure notification unless there was no connection at all.  Either
    way the button is released: [isRestoring] ends false. *)
Theorem handleRestore_reports_outcome (c : Connection) (now : Z)
    (snapshot : Completion (list DocSnapshot)) (p : SettingsPage) :
  let p' := handleRestore quota c now snapshot p in
  let restored :=
    exists uid docs, connected c = Some uid /\ snapshot = Normal docs
      /\ (restoreDocs quota docs (localStorage (provider p))).2 = None in
  isRestoring p' = false
  /\ (restored ->
      pageToasts p' = pageToasts p ++ [DataRestored]
      /\ reloads (provider p') = S (reloads (provider p))
      /\ status (provider p') = synced
      /\ lastSynced (provider p') = Some now
      /\ toasts (provider p') = toasts (provider p) ++ [RestoreComplete])
  /\ (~ restored ->
      pageToasts p' = pageToasts p ++ [PageRestoreFailed]
      /\ reloads (provider p') = reloads (provider p)
      /\ status (provider p') = offline
      /\ lastSynced (provider p') = lastSynced (provider p)
      /\ toasts (provider p')
         = toasts (provider p)
           ++ match connected c with
              | Some _ => [RestoreFailed]
              | None => []
              end).
Proof.
  intros p' restored. subst p' restored. unfold handleRestore, restore.
  destruct (connected c) as [uid|] eqn:Hc.
  - destruct snapshot as [docs|e].
    + cbn [setStatus request localStorage setIsRestoring provider pageToasts].
      destruct (restoreDocs quota docs (localStorage (provider p)))
        as [ls [e|]] eqn:Hdocs.
      * split; [done|]. split.
        -- intros (uid' & docs' & _ & [= <-] & Hnone).
           rewrite Hdocs in Hnone. done.
        -- intros _. simpl. rewrite ?app_nil_r. done.
      * split; [done|]. split; [intros _; simpl; done|].
        intros Hnot. exfalso. apply Hnot. exists uid, docs.
        by rewrite Hdocs.
    + split; [done|]. split.
      * intros (uid' & docs' & _ & [=] & _).
      * intros _. simpl. rewrite ?app_nil_r. done.
  - split; [done|]. split.
    + intros (uid' & docs' & [=] & _).
    + intros _. simpl. rewrite ?app_nil_r. done.
Qed.
End RestorePage.

Lemma handleRestore_reports_outcome_witness :
  let p := mkSettings (sampleState (mkStorage None ∅)) [] false false false
                      [] false false in
  pageToasts (handleRestore (fun _ => true) (mkConn true (Some "uid")) 7
                            (Normal [sampleDoc "products" (JArr [])]) p)
  = [DataRestored].
Proof.
  intros p.
  destruct (handleRestore_reports_outcome (fun _ => true)
              (mkConn true (Some "uid")) 7 (Normal [sampleDoc "products" (JArr [])]) p)
    as (_ & Hyes & _).
  destruct Hyes as (-> & _); [|reflexivity].
  exists "uid", [sampleDoc "products" (JArr [])]. split; [reflexivity|]. split; reflexivity.
Defined.

(** X22. The order form never leaves its four steps: from a step between
    1 and 4, whatever sequence of Next and Back is pressed, the current
    step is again between 1 and 4, so the title [steps[currentStep - 1]]
    shown on the card always exists and bears the number of the step.
    Back undoes Next below the last step, and Next undoes Back above the
    first. *)
Theorem order_form_stays_within_steps (currentStep : Z)
    (pressed : list StepButton) :
  1 <= currentStep <= 4 ->
  let final := fold_left press pressed currentStep in
  1 <= final <= 4
  /\ (exists title, steps !! Z.to_nat (final - 1) = Some (final, title))
  /\ (currentStep < 4 -> handleBack (handleNext currentStep) = currentStep)
  /\ (1 < currentStep -> handleNext (handleBack currentStep) = currentStep).
Proof.
  intros Hrange final.
  assert (Hfinal : 1 <= final <= 4).
  { subst final. revert currentStep Hrange.
    induction pressed as [|b pressed IH]; intros s Hs; [done|].
    cbn [fold_left]. apply IH.
    destruct b; unfold press, handleNext, handleBack.
    - destruct (s <? 4) eqn:E; [apply Z.ltb_lt in E|]; lia.
    - destruct (s >? 1) eqn:E; [apply Z.gtb_lt in E|]; lia. }
  split; [done|]. split.
  { assert (Hcases : final = 1 \/ final = 2 \/ final = 3 \/ final = 4) by lia.
    destruct Hcases as [H | [H | [H | H]]]; rewrite H; eexists; reflexivity. }
  unfold handleNext, handleBack. split.
  - intros Hlt. rewrite (proj2 (Z.ltb_lt _ _) Hlt).
    rewrite (proj2 (Z.gtb_lt _ _)) by lia. lia.
  - intros Hgt. rewrite (proj2 (Z.gtb_lt _ _)) by lia.
    rewrite (proj2 (Z.ltb_lt _ _)) by lia. lia.
Qed.

Lemma order_form_stays_within_steps_witness :
  fold_left press [PressNext; PressNext; PressNext; PressNext; PressBack] 2 = 3
  /\ 1 <= fold_left press [PressNext; PressNext; PressNext; PressNext; PressBack] 2
     <= 4.
Proof.
  split; [reflexivity|].
  apply (order_form_stays_within_steps 2
           [PressNext; PressNext; PressNext; PressNext; PressBack]).
  lia.
Defined.
